(** * fortpy code-element model: a shallow embedding of [fortpy/elements.py]

    The development follows the layout of the Python module:
    - Python conventions (exceptions, list indexing, dictionaries, strings);
    - [DocElement] and [CodeElement.overwrite_docs];
    - [CodeElement.full_name];
    - [Decoratable.find_section];
    - [Executable]: [changed], [_get_assignments_in], [get_parameter];
    - [CodeElement.warn] and [Module.warn];
    - [Module]: [linenum], [charindex], [contains_index], [update_elements],
      [find_embedded_parent], [update_embedded].

    Python integers are unbounded and are modelled by [Z].  Python strings are
    modelled by [string] (sequences of 8-bit characters, as Python 2 [str]);
    [lower] acts on the ASCII letters. *)

From Stdlib Require Import ZArith Ascii String List Bool Lia.
From stdpp Require Import base option list strings gmap.

Set Warnings "-register-all".

Open Scope string_scope.
Open Scope list_scope.
Open Scope Z_scope.

(** ** Python conventions *)

(** The exceptions raised by the modelled code. *)
Inductive exn : Type :=
| AttributeError
| IndexError
| KeyError
| TypeError.

(** The outcome of running a piece of Python code: a value, or an exception. *)
Inductive res (A : Type) : Type :=
| Ok (a : A)
| Raise (e : exn).
Arguments Ok {A} a.
Arguments Raise {A} e.

Definition res_bind {A B} (r : res A) (f : A -> res B) : res B :=
  match r with
  | Ok a => f a
  | Raise e => Raise e
  end.

Definition is_ok {A} (r : res A) : Prop :=
  match r with Ok _ => True | Raise _ => False end.

(** [len(x)] as a Python integer. *)
Definition len {A} (l : list A) : Z := Z.of_nat (length l).
Definition slen (s : string) : Z := Z.of_nat (String.length s).

(** [l[i]] on a Python list: a negative index counts from the end, an index
    out of range raises [IndexError]. *)
Definition py_index {A} (l : list A) (i : Z) : res A :=
  let j := if i <? 0 then i + len l else i in
  if j <? 0 then Raise IndexError
  else match l !! Z.to_nat j with
       | Some x => Ok x
       | None => Raise IndexError
       end.

(** *** Dictionaries

    A [dict] is an association list in insertion order.  A Python dictionary
    never holds a key twice; [dict_set] and [dict_del] keep that property. *)
Definition dict (V : Type) : Type := list (string * V).

Fixpoint dict_get {V} (k : string) (d : dict V) : option V :=
  match d with
  | [] => None
  | (k', v) :: d' => if decide (k' = k) then Some v else dict_get k d'
  end.

Definition dict_mem {V} (k : string) (d : dict V) : bool :=
  match dict_get k d with Some _ => true | None => false end.

(** [d[k] = v]: overwrite in place, or append a new entry. *)
Fixpoint dict_set {V} (k : string) (v : V) (d : dict V) : dict V :=
  match d with
  | [] => [(k, v)]
  | (k', v') :: d' =>
      if decide (k' = k) then (k', v) :: d' else (k', v') :: dict_set k v d'
  end.

(** [del d[k]] (the caller checks that the key is present). *)
Fixpoint dict_del {V} (k : string) (d : dict V) : dict V :=
  match d with
  | [] => []
  | (k', v') :: d' =>
      if decide (k' = k) then dict_del k d' else (k', v') :: dict_del k d'
  end.

Definition dict_keys {V} (d : dict V) : list string := d.*1.
Definition dict_values {V} (d : dict V) : list V := d.*2.

(** [d[k]] raises [KeyError] on a missing key. *)
Definition dict_item {V} (k : string) (d : dict V) : res V :=
  match dict_get k d with
  | Some v => Ok v
  | None => Raise KeyError
  end.

(** *** Strings *)

Definition lower_ascii (c : ascii) : ascii :=
  let n := nat_of_ascii c in
  if (Nat.leb 65 n && Nat.leb n 90)%bool then ascii_of_nat (n + 32) else c.

(** [s.lower()] *)
Fixpoint lower (s : string) : string :=
  match s with
  | EmptyString => EmptyString
  | String c s' => String (lower_ascii c) (lower s')
  end.

(** [s.split(c)] for a one-character separator [c]; the result is never
    empty. *)
Fixpoint split (c : ascii) (s : string) : list string :=
  match s with
  | EmptyString => [EmptyString]
  | String a s' =>
      if decide (a = c) then EmptyString :: split c s'
      else match split c s' with
           | h :: t => String a h :: t
           | [] => [String a EmptyString]
           end
  end.

Fixpoint is_prefix (p s : string) : bool :=
  match p, s with
  | EmptyString, _ => true
  | String a p', String b s' => if decide (a = b) then is_prefix p' s' else false
  | String _ _, EmptyString => false
  end.

(** [needle in hay] on strings. *)
Fixpoint str_in (needle hay : string) : bool :=
  if is_prefix needle hay then true
  else match hay with
       | EmptyString => false
       | String _ hay' => str_in needle hay'
       end.

(** [sep.join(l)] *)
Fixpoint join (sep : string) (l : list string) : string :=
  match l with
  | [] => EmptyString
  | [s] => s
  | s :: l' => s +:+ sep +:+ join sep l'
  end.

Definition newline : ascii := ascii_of_nat 10.
Definition percent : ascii := ascii_of_nat 37.

(** ** DocElement *)

Record DocElement : Type := mkDocElement {
  doctype : string;
  contents : string;
  attributes : dict string
}.

(** [DocElement.pointsto]: the lower-cased ["name"] attribute, or [None]. *)
Definition pointsto (d : DocElement) : option string :=
  lower <$> dict_get "name" (attributes d).

(** The test of [overwrite_docs]: same xml tag and same [pointsto]. *)
Definition same_doc (d doc : DocElement) : bool :=
  bool_decide (doctype d = doctype doc) && bool_decide (pointsto d = pointsto doc).

(** The loop of [overwrite_docs]: delete the first matching entry and stop. *)
Fixpoint del_first_doc (doc : DocElement) (docstring : list DocElement)
  : list DocElement :=
  match docstring with
  | [] => []
  | d :: rest => if same_doc d doc then rest else d :: del_first_doc doc rest
  end.

(** [CodeElement.overwrite_docs], acting on the [docstring] attribute, the
    only state it reads or writes. *)
Definition overwrite_docs (doc : DocElement) (docstring : list DocElement)
  : list DocElement :=
  del_first_doc doc docstring ++ [doc].

(** The pair that identifies a docstring entry. *)
Definition doc_key (d : DocElement) : string * option string :=
  (doctype d, pointsto d).

(** The docstring list of an element created with [docstring = []] after the
    calls [overwrite_docs(d)] for [d] in [ds], in order. *)
Definition docs_after (ds : list DocElement) : list DocElement :=
  fold_left (fun docstring d => overwrite_docs d docstring) ds [].

(** ** CodeElement: the ownership chain and [full_name] *)

Module Ownership.

(** The attributes of a [CodeElement] that [full_name] reads and writes.  The
    chain of [parent] references ends in [None]. *)
Inductive CodeElement : Type := mkCodeElement {
  name : string;
  parent : option CodeElement;
  _full_name : option string
}.

(** The [while current is not None] loop, started at [current = c]. *)
Fixpoint names_from (c : CodeElement) : list string :=
  name c :: match parent c with
            | Some p => names_from p
            | None => []
            end.

Definition ancestors (self : CodeElement) : list string :=
  name self :: match parent self with
               | Some p => names_from p
               | None => []
               end.

(** The property [CodeElement.full_name]: the value returned, and [self] with
    its cache filled. *)
Definition full_name (self : CodeElement) : string * CodeElement :=
  match _full_name self with
  | Some s => (s, self)
  | None =>
      let s := join "." (ancestors self) in
      (s, mkCodeElement (name self) (parent self) (Some s))
  end.

(** A module [mod] and an executable [foo] declared in it. *)
Definition ex_mod : CodeElement := mkCodeElement "mod" None None.
Definition ex_foo : CodeElement := mkCodeElement "foo" (Some ex_mod) None.

End Ownership.

(** ** Executable: parameters, assignments and call dependencies *)

Module Calls.

Record ValueElement : Type := mkValueElement {
  name : string;
  dtype : option string;
  kind : option string;
  default : option string;
  dimension : option string
}.

(** The nearest [Module] ancestor of an element, as far as [changed] looks at
    it: its [name], and whether its [parent] is the project registry
    ([has_registry = false] stands for [parent is None]). *)
Record ModuleRef : Type := mkModuleRef {
  mname : string;
  has_registry : bool
}.

(** A call edge.  [dmodule] is the value of the [module] property of the
    dependency ([None] when its ownership chain holds no [Module]). *)
Record Dependency : Type := mkDependency {
  _name : string;
  argslist : list string;
  isSubroutine : bool;
  dmodule : option ModuleRef
}.

(** [Dependency.name] *)
Definition dname (d : Dependency) : string := lower (_name d).

(** [Dependency.external_name] *)
Definition external_name (d : Dependency) : res string :=
  match dmodule d with
  | Some m => Ok (lower (mname m) +:+ "." +:+ dname d)
  | None => Raise AttributeError
  end.

(** [xname] is the attribute [name]; [xmodule] is the value of the [module]
    property of the executable. *)
Record Executable : Type := mkExecutable {
  xname : string;
  xmodule : option ModuleRef;
  dependencies : dict (list Dependency);
  paramorder : list string;
  _parameters : dict ValueElement;
  _assignments : list string
}.

(** *** Parameters *)

(** [Executable.get_parameter] *)
Definition get_parameter (self : Executable) (index : Z) : option ValueElement :=
  if (index >? 0) && (index <? len (paramorder self)) then
    match py_index (paramorder self) index with
    | Ok key => if dict_mem key (_parameters self) then dict_get key (_parameters self) else None
    | Raise _ => None
    end
  else None.

(** [Executable.add_parameter] *)
Definition add_parameter (parameter : ValueElement) (self : Executable) : Executable :=
  let key := lower (name parameter) in
  mkExecutable (xname self) (xmodule self) (dependencies self)
    (if bool_decide (key ∈ paramorder self) then paramorder self
     else paramorder self ++ [key])
    (dict_set key parameter (_parameters self))
    (_assignments self).

(** An executable as its constructor leaves it. *)
Definition new_executable (nm : string) (m : option ModuleRef) : Executable :=
  mkExecutable nm m [] [] [] [].

(** The executable after [add_parameter(p)] for [p] in [ps], in order. *)
Definition with_parameters (ps : list ValueElement) (self : Executable) : Executable :=
  fold_left (fun x p => add_parameter p x) ps self.

(** *** Assignments *)

(** What [_get_assignments_in] returns: [True], a list, or nothing ([None],
    when the loop of the first branch ends without a match). *)
Inductive assignments_result : Type :=
| ATrue
| ANone
| AList (l : list string).

(** [assign.split("%")[0].lower()] *)
Definition assign_target (assign : string) : string :=
  match split percent assign with
  | t :: _ => lower t
  | [] => EmptyString
  end.

Fixpoint assigns_symbol (assignments : list string) (lsymbol : string) : assignments_result :=
  match assignments with
  | [] => ANone
  | assign :: rest =>
      if bool_decide (assign_target assign = lsymbol) then ATrue
      else assigns_symbol rest lsymbol
  end.

(** [Executable._get_assignments_in]; [filterlist] is a dictionary, of which
    only the keys matter. *)
Definition _get_assignments_in {V} (self : Executable) (filterlist : dict V)
    (symbol : string) : assignments_result :=
  if bool_decide (symbol <> "") then assigns_symbol (_assignments self) symbol
  else AList (filter (fun assign => dict_mem (assign_target assign) filterlist = true)
                (_assignments self)).

(** *** [changed] *)

(** Modelled from the spec: the project registry, which is not part of this
    file, exposes [get_executable(fully_qualified_lowercase_name)] returning
    an [Executable] or nothing.  It is a finite table. *)
Definition registry : Type := dict Executable.
Definition get_executable (reg : registry) (nm : string) : option Executable :=
  dict_get nm reg.

(** The values [changed] returns. *)
Inductive pyval : Type :=
| PNone
| PStr (s : string).

#[global] Instance pyval_eq_dec : EqDecision pyval.
Proof. solve_decision. Defined.

(** Truth value of a returned value in a condition. *)
Definition truthy (v : pyval) : bool :=
  match v with
  | PNone => false
  | PStr s => negb (bool_decide (s = ""))
  end.

(** [myname = "{}.{}".format(self.module.name, self.name).lower()] *)
Definition myname (self : Executable) : res string :=
  match xmodule self with
  | Some m => Ok (lower (mname m +:+ "." +:+ xname self))
  | None => Raise AttributeError
  end.

(** The dependencies in the order the two nested [for] loops visit them. *)
Definition dependency_list (self : Executable) : list Dependency :=
  flat_map (fun dependlist =>
              match dict_get dependlist (dependencies self) with
              | Some l => l
              | None => []
              end)
    (dict_keys (dependencies self)).

(** The result of a call that may not have returned yet: [None] when the
    recursion budget is used up. *)
Definition run (A : Type) : Type := option (res A).

(** The body of the nested loops.  [rec] is the recursive call
    [iexec.changed(symbol, checked)]; the result is [inl v] when the loop
    returns [v], and [inr checked] when it runs to its end. *)
Fixpoint changed_loop (rec : Executable -> list string -> run (pyval * list string))
    (reg : registry) (attached : bool) (deps : list Dependency) (checked : list string)
  : run (pyval * list string + list string) :=
  match deps with
  | [] => Some (Ok (inr checked))
  | dependency :: rest =>
      match external_name dependency with
      | Raise e => Some (Raise e)
      | Ok ename =>
          if negb attached then Some (Raise AttributeError)
          else
            match get_executable reg ename with
            | None => changed_loop rec reg attached rest (checked ++ [ename])
            | Some iexec =>
                match rec iexec checked with
                | None => None
                | Some (Raise e) => Some (Raise e)
                | Some (Ok (v, checked')) =>
                    if bool_decide (v <> PStr "") then Some (Ok (inl (PStr ename, checked')))
                    else changed_loop rec reg attached rest (checked' ++ [ename])
                end
            end
      end
  end.

(** Whether [self.module.parent] is the registry. *)
Definition attached (self : Executable) : bool :=
  match xmodule self with
  | Some m => has_registry m
  | None => false
  end.

(** [Executable.changed(symbol, checked)], with the list [checked] passed
    through and returned, since the callers share and extend it. *)
Fixpoint changed (fuel : nat) (reg : registry) (self : Executable) (symbol : string)
    (checked : list string) : run (pyval * list string) :=
  match fuel with
  | O => None
  | S fuel' =>
      match myname self with
      | Raise e => Some (Raise e)
      | Ok me =>
          if bool_decide (me ∈ checked) then Some (Ok (PNone, checked))
          else
            match _get_assignments_in self (_parameters self) symbol with
            | ATrue => Some (Ok (PStr me, checked))
            | _ =>
                match changed_loop (fun iexec c => changed fuel' reg iexec symbol c)
                        reg (attached self) (dependency_list self) (checked ++ [me]) with
                | None => None
                | Some (Raise e) => Some (Raise e)
                | Some (Ok (inl r)) => Some (Ok r)
                | Some (Ok (inr checked')) => Some (Ok (PNone, checked'))
                end
            end
      end
  end.

(** The executables of [world] that a query has not visited yet. *)
Definition is_unvisited (checked : list string) (x : Executable) : bool :=
  match myname x with
  | Ok me => negb (bool_decide (me ∈ checked))
  | Raise _ => false
  end.

Definition unvisited (world : list Executable) (checked : list string) : list Executable :=
  filter (fun x => is_unvisited checked x = true) world.

(** What [add_parameter] maintains: no name occurs twice in [paramorder], and
    each parameter is stored under its lower-cased name. *)
Definition parameters_ok (x : Executable) : Prop :=
  NoDup (paramorder x) /\
  forall k p, dict_get k (_parameters x) = Some p -> lower (name p) = k.

(** A recursive call that returns and only extends the list it is given. *)
Definition returns_extending (rec : Executable -> list string -> run (pyval * list string))
    (x : Executable) (c : list string) : Prop :=
  exists r, rec x c = Some r /\ forall v c', r = Ok (v, c') -> c ⊆ c'.

(** Two executables of a module [m]: [a] calls [b]; neither assigns anything. *)
Definition ex_m : ModuleRef := mkModuleRef "m" true.
Definition ex_b : Executable := mkExecutable "b" (Some ex_m) [] [] [] [].
Definition ex_a : Executable :=
  mkExecutable "a" (Some ex_m) [("b", [mkDependency "b" [] true (Some ex_m)])] [] [] [].
Definition ex_registry : registry := [("m.a", ex_a); ("m.b", ex_b)].


(** *** Parameters and assignments, continued *)

(** [del l[l.index(x)]]: the list without the first occurrence of [x]. *)
Fixpoint remove_first (x : string) (l : list string) : list string :=
  match l with
  | [] => []
  | y :: l' => if decide (y = x) then l' else y :: remove_first x l'
  end.

(** [Executable.remove_parameter] *)
Definition remove_parameter (parameter_name : string) (self : Executable) : Executable :=
  mkExecutable (xname self) (xmodule self) (dependencies self)
    (if bool_decide (parameter_name ∈ paramorder self)
     then remove_first parameter_name (paramorder self)
     else paramorder self)
    (if dict_mem parameter_name (_parameters self)
     then dict_del parameter_name (_parameters self)
     else _parameters self)
    (_assignments self).

(** [[ self._parameters[k] for k in order ]] *)
Fixpoint parameters_in_order (parameters : dict ValueElement) (order : list string)
  : res (list ValueElement) :=
  match order with
  | [] => Ok []
  | k :: order' =>
      res_bind (dict_item k parameters) (fun p =>
      res_bind (parameters_in_order parameters order') (fun ps => Ok (p :: ps)))
  end.

(** [Executable.ordered_parameters] *)
Definition ordered_parameters (self : Executable) : res (list ValueElement) :=
  parameters_in_order (_parameters self) (paramorder self).

(** [Executable.parameters_as_string] *)
Definition parameters_as_string (self : Executable) : res string :=
  res_bind (ordered_parameters self) (fun ps => Ok (join ", " (map name ps))).

(** [Executable.add_assignment] *)
Definition add_assignment (value : string) (self : Executable) : Executable :=
  mkExecutable (xname self) (xmodule self) (dependencies self)
    (paramorder self) (_parameters self)
    (if bool_decide (value ∈ _assignments self) then _assignments self
     else _assignments self ++ [value]).

(** [Executable.add_dependency]: the test reads [value.name], the update
    reads and writes the key [value.name.lower()]. *)
Definition add_dependency (value : Dependency) (self : Executable) : res Executable :=
  let updated deps :=
    mkExecutable (xname self) (xmodule self) deps
      (paramorder self) (_parameters self) (_assignments self) in
  if dict_mem (dname value) (dependencies self) then
    res_bind (dict_item (lower (dname value)) (dependencies self)) (fun l =>
    Ok (updated (dict_set (lower (dname value)) (l ++ [value]) (dependencies self))))
  else
    Ok (updated (dict_set (lower (dname value)) [value] (dependencies self))).

(** A call of [add_parameter] or of [remove_parameter]. *)
Inductive parameter_call : Type :=
| AddParameter (parameter : ValueElement)
| RemoveParameter (parameter_name : string).

Definition call_on (self : Executable) (c : parameter_call) : Executable :=
  match c with
  | AddParameter p => add_parameter p self
  | RemoveParameter nm => remove_parameter nm self
  end.

(** The executable after the given calls, in order. *)
Definition after_calls (cs : list parameter_call) (self : Executable) : Executable :=
  fold_left call_on cs self.

(** The executable after [add_assignment(v)] for [v] in [vs], in order. *)
Definition with_assignments (vs : list string) (self : Executable) : Executable :=
  fold_left (fun x v => add_assignment v x) vs self.

(** The executable after [add_dependency(d)] for [d] in [ds], in order. *)
Fixpoint with_dependencies (ds : list Dependency) (self : Executable) : res Executable :=
  match ds with
  | [] => Ok self
  | d :: ds' => res_bind (add_dependency d self) (with_dependencies ds')
  end.

(** The order list and the dictionary of parameters hold the same names. *)
Definition parameters_consistent (x : Executable) : Prop :=
  parameters_ok x /\
  forall k, k ∈ paramorder x <-> dict_mem k (_parameters x) = true.

(** An executable with the parameters [n] and [x], declared in that order. *)
Definition ex_two_parameters : Executable :=
  with_parameters [mkValueElement "n" (Some "integer") None None None;
                   mkValueElement "x" (Some "real") None None None]
    (new_executable "s" (Some ex_m)).
End Calls.

(** ** The documentation check [warn] *)

Module Warnings.

(** The classes of [elements.py] that derive from [CodeElement] or
    [Decoratable]. *)
Inductive class : Type :=
| object_
| CodeElement
| ValueElement
| Decoratable
| Executable
| Function
| Subroutine
| TypeExecutable
| CustomType
| Module_.

(** Method resolution order of each class, from its [class] statement. *)
Definition mro (c : class) : list class :=
  match c with
  | object_ => [object_]
  | CodeElement => [CodeElement; object_]
  | ValueElement => [ValueElement; CodeElement; object_]
  | Decoratable => [Decoratable; object_]
  | Executable => [Executable; ValueElement; CodeElement; Decoratable; object_]
  | Function => [Function; Executable; ValueElement; CodeElement; Decoratable; object_]
  | Subroutine => [Subroutine; Executable; ValueElement; CodeElement; Decoratable; object_]
  | TypeExecutable => [TypeExecutable; CodeElement; object_]
  | CustomType => [CustomType; CodeElement; Decoratable; object_]
  | Module_ => [Module_; CodeElement; Decoratable; object_]
  end.

#[global] Instance class_eq_dec : EqDecision class.
Proof. solve_decision. Defined.

(** The classes whose body has a [def warn]. *)
Definition defines_warn (c : class) : bool :=
  match c with
  | CodeElement | Module_ => true
  | _ => false
  end.

(** The classes that follow [c] in a resolution order. *)
Fixpoint after (c : class) (l : list class) : list class :=
  match l with
  | [] => []
  | c' :: l' => if decide (c' = c) then l' else after c l'
  end.

(** [super(c, self).warn]: the first class after [c] in the resolution order
    of the class of [self] that defines [warn]. *)
Definition super_warn (c self_class : class) : option class :=
  head (filter (fun k => defines_warn k = true) (after c (mro self_class))).

(** [self.warn]: the first class of the resolution order that defines it. *)
Definition lookup_warn (self_class : class) : option class :=
  head (filter (fun k => defines_warn k = true) (mro self_class)).

(** An instance, with the attributes that [warn] reads. *)
Record Instance_ : Type := mkInstance {
  cls : class;
  name : string;
  modifiers : list string;
  docstring : option (list DocElement)
}.

(** Values that the expressions of [warn] evaluate to. *)
Inductive value : Type :=
| VNone
| VBool (b : bool).

(** [f()] for a value [f]: neither [None] nor a [bool] can be called. *)
Definition call (f : value) : res value :=
  match f with
  | VNone => Raise TypeError
  | VBool _ => Raise TypeError
  end.

Definition truth (v : value) : bool :=
  match v with
  | VNone => false
  | VBool b => b
  end.

(** The property [CodeElement.has_docstring]. *)
Definition has_docstring (self : Instance_) : value :=
  VBool (match docstring self with Some _ => true | None => false end).

(** [CodeElement.warn]: the condition calls the value of the property. *)
Definition CodeElement_warn (self : Instance_) (collection : list string)
  : res (list string) :=
  res_bind (call (has_docstring self)) (fun r =>
  if negb (truth r)
  then Ok (collection ++ ["WARNING: no docstring on code element " +:+ name self])
  else Ok collection).

(** [Module.warn]: [super(CodeElement, self).warn(collection)], then the
    check of the modifiers. *)
Definition Module_warn (self : Instance_) (collection : list string)
  : res (list string) :=
  res_bind
    (match super_warn CodeElement (cls self) with
     | Some CodeElement => CodeElement_warn self collection
     | Some _ | None => Raise AttributeError
     end) (fun collection' =>
  if negb (bool_decide ("implicit none" ∈ modifiers self))
  then Ok (collection' ++ ["WARNING: implicit none not set in " +:+ name self])
  else Ok collection').

(** [self.warn(collection)] *)
Definition warn (self : Instance_) (collection : list string) : res (list string) :=
  match lookup_warn (cls self) with
  | Some Module_ => Module_warn self collection
  | Some _ => CodeElement_warn self collection
  | None => Raise AttributeError
  end.

End Warnings.

(** ** Module: offsets, the boundary, shifting and re-parenting *)

Module Layout.

(** Objects are held in a store and referred to by their position in it. *)
Abbreviation oid := nat.

(** The value of a [parent] attribute: [None], the module under study, or a
    type or executable of the store. *)
Inductive owner : Type :=
| NoParent
| TheModule
| Elem (o : oid).

(** A child of the module: a [CustomType], an [Executable] or a
    [ValueElement].  An attribute that the class of the object does not have
    is [None]: a [ValueElement] has no [docstart], [docend], [types] or
    [executables]; a [CustomType] has no [types]. *)
Record Element : Type := mkElement {
  start : Z;
  end_ : Z;
  docstart : option Z;
  docend : option Z;
  parent : owner;
  types : option (dict oid);
  executables : option (dict oid)
}.

Definition new_CustomType (s e ds de : Z) (p : owner) : Element :=
  mkElement s e (Some ds) (Some de) p None (Some []).
Definition new_Executable (s e ds de : Z) (p : owner) : Element :=
  mkElement s e (Some ds) (Some de) p (Some []) (Some []).
Definition new_ValueElement (s e : Z) (p : owner) : Element :=
  mkElement s e None None p None None.

(** The module: its text, the line index built from it, the cached boundary
    and the three top-level dictionaries ([m_types], [m_members] and
    [m_executables] are the attributes [types], [members], [executables]). *)
Record ModuleEl : Type := mkModule {
  refstring : string;
  _lines : list string;
  _chars : list Z;
  _contains_index : option Z;
  m_types : dict oid;
  m_members : dict oid;
  m_executables : dict oid
}.

Record State : Type := mkState {
  this : ModuleEl;
  heap : list Element
}.

(** Code that reads and writes the state and may raise. *)
Definition M (A : Type) : Type := State -> res (A * State).

Definition ret {A} (a : A) : M A := fun st => Ok (a, st).
Definition bind {A B} (c : M A) (k : A -> M B) : M B :=
  fun st => match c st with
            | Ok (a, st') => k a st'
            | Raise e => Raise e
            end.
Definition raise {A} (e : exn) : M A := fun _ => Raise e.
Definition lift {A} (r : res A) : M A :=
  fun st => match r with Ok a => Ok (a, st) | Raise e => Raise e end.

Notation "'do' x <- c ; k" := (bind c (fun x => k))
  (at level 10, x name, c at level 100, k at level 200, only parsing).
Notation "'do_' c ; k" := (bind c (fun _ => k))
  (at level 10, c at level 100, k at level 200, only parsing).

Definition get_module : M ModuleEl := fun st => Ok (this st, st).
Definition set_module (m : ModuleEl) : M unit := fun st => Ok (tt, mkState m (heap st)).

(** Reading an object through a reference.  Every reference of a Python
    state points to an object, so the [None] case is there only to make the
    function total. *)
Definition read (o : oid) : M Element :=
  fun st => match heap st !! o with
            | Some e => Ok (e, st)
            | None => Raise KeyError
            end.
Definition write (o : oid) (e : Element) : M unit :=
  fun st => Ok (tt, mkState (this st) (<[o := e]> (heap st))).

(** Reading an attribute that the object may not have. *)
Definition getattr {A} (x : option A) : M A :=
  match x with
  | Some a => ret a
  | None => raise AttributeError
  end.

(** [for x in l: body(x)] *)
Fixpoint for_each {A} (l : list A) (body : A -> M unit) : M unit :=
  match l with
  | [] => ret tt
  | x :: l' => do_ body x; for_each l' body
  end.

(** *** [CodeElement] properties *)

(** [CodeElement.embedded] *)
Definition embedded (self : Element) : bool :=
  match parent self with
  | TheModule => false
  | _ => true
  end.

(** [CodeElement.absstart] *)
Definition absstart (self : Element) : Z :=
  match docstart self with
  | Some d => if d >? 0 then d else start self
  | None => start self
  end.

(** *** [Decoratable.find_section] *)

Inductive section : Type :=
| Docstring
| Signature
| Body.

Definition find_section (self : Element) (charindex : Z) : res (option section) :=
  match docend self, docstart self with
  | Some de, Some ds =>
      let result :=
        if (charindex >? de) && (charindex - start self <? 8) then Some Signature
        else if (charindex >=? start self) && (charindex <=? end_ self) then Some Body
        else None in
      match result with
      | None => if (charindex >=? ds) && (charindex <=? de) then Ok (Some Docstring)
                else Ok None
      | Some _ => Ok result
      end
  | _, _ => Raise AttributeError
  end.

(** *** The line index *)

(** [self._chars[-1] -= 1] *)
Fixpoint dec_last (l : list Z) : list Z :=
  match l with
  | [] => []
  | [x] => [x - 1]
  | x :: l' => x :: dec_last l'
  end.

(** The loop that replaces each entry by the running total. *)
Fixpoint running (total : Z) (l : list Z) : list Z :=
  match l with
  | [] => []
  | x :: l' => (total + x) :: running (total + x) l'
  end.

(** The first part of [linenum]: build [_lines] and [_chars] when they are
    missing and there is text. *)
Definition index_text (m : ModuleEl) : ModuleEl :=
  if (len (_lines m) =? 0) && negb (bool_decide (refstring m = "")) then
    let lines := split newline (refstring m) in
    let chars := running 0 (dec_last (map (fun x => slen x + 1) lines)) in
    mkModule (refstring m) lines chars (_contains_index m)
      (m_types m) (m_members m) (m_executables m)
  else m.

(** What [linenum] returns: a two-element list, or the integer [-1]. *)
Inductive linenum_result : Type :=
| LList (a b : Z)
| LInt (n : Z).

(** The search loop of [linenum], at position [i] with [chars] the entries
    from [i] on. *)
Fixpoint find_line (index : Z) (chars : list Z) (i : Z) : linenum_result :=
  match chars with
  | [] => LInt (-1)
  | c :: rest => if index <=? c then LList i (c - index)
                 else find_line index rest (i + 1)
  end.

(** [Module.linenum] *)
Definition linenum (index : Z) : M linenum_result :=
  do m <- get_module;
  let m' := index_text m in
  do_ set_module m';
  if len (_lines m') >? 0 then ret (find_line index (_chars m') 0)
  else ret (LList (-1) (-1)).

(** [Module.charindex] *)
Definition charindex (line column : Z) : M Z :=
  do m <- get_module;
  do_ (if len (_lines m) =? 0 then do_ linenum 1; ret tt else ret tt);
  do m' <- get_module;
  do c <- lift (py_index (_chars m') (line - 1));
  ret (c + column).

(** *** The boundary *)

(** The loop over [self.types] that computes [max_t]. *)
Fixpoint last_type_end (keys : list string) (max_t : Z) : M Z :=
  match keys with
  | [] => ret max_t
  | tkey :: keys' =>
      do m <- get_module;
      do o <- lift (dict_item tkey (m_types m));
      do t <- read o;
      if (end_ t >? max_t) && negb (embedded t)
      then last_type_end keys' (end_ t)
      else last_type_end keys' max_t
  end.

(** The [while] loop of [contains_index]; [n] is the number of iterations
    left before [i] reaches [max_i]. *)
Fixpoint scan_contains (lines : list string) (start_ i : Z) (n : nat) : res (option Z) :=
  match n with
  | O => Ok None
  | S n' =>
      res_bind (py_index lines (start_ + i)) (fun line =>
      if str_in "contains" (lower line) then Ok (Some (start_ + i))
      else scan_contains lines start_ (i + 1) n')
  end.

(** The property [Module.contains_index]. *)
Definition contains_index : M Z :=
  do m <- get_module;
  match _contains_index m with
  | Some ci => ret ci
  | None =>
      do max_t <- last_type_end (dict_keys (m_types m)) 0;
      do r <- linenum max_t;
      match r with
      | LInt _ => raise TypeError
      | LList start_ _ =>
          do m1 <- get_module;
          let max_i := if max_t >? 0 then 10 else len (_lines m1) in
          do found <- lift (scan_contains (_lines m1) start_ 0 (Z.to_nat max_i));
          let ci := match found with
                    | Some ci => ci
                    | None => len (_lines m1) - 1
                    end in
          do_ set_module (mkModule (refstring m1) (_lines m1) (_chars m1) (Some ci)
                            (m_types m1) (m_members m1) (m_executables m1));
          ret ci
      end
  end.

(** *** Shifting *)

(** [Module._update_char_check] *)
Definition _update_char_check (element : Element) (target docdelta : Z) : M bool :=
  if negb (docdelta =? 0) then
    do ds <- getattr (docstart element);
    if ds <=? target then
      do de <- getattr (docend element);
      if de >=? target - docdelta then ret true
      else ret (absstart element >? target)
    else ret (absstart element >? target)
  else ret (absstart element >? target).

(** [Module._element_charfix] *)
Definition _element_charfix (o : oid) (charcount : Z) : M unit :=
  do element <- read o;
  do ds <- getattr (docstart element);
  do de <- getattr (docend element);
  write o (mkElement (start element + charcount) (end_ element + charcount)
             (Some (ds + charcount)) (Some (de + charcount))
             (parent element) (types element) (executables element)).

(** The body of the loops over [self.types] and [self.executables]. *)
Definition shift_decorated (coll : dict oid) (target charcount docdelta : Z)
    (key : string) : M unit :=
  do o <- lift (dict_item key coll);
  do element <- read o;
  do b <- _update_char_check element target docdelta;
  if b then _element_charfix o charcount else ret tt.

(** The body of the loop over [self.members]. *)
Definition shift_member (coll : dict oid) (target charcount : Z) (key : string) : M unit :=
  do o <- lift (dict_item key coll);
  do element <- read o;
  if start element >? target then
    write o (mkElement (start element + charcount) (end_ element + charcount)
               (docstart element) (docend element)
               (parent element) (types element) (executables element))
  else ret tt.

(** [Module.update_elements] *)
Definition update_elements (line column charcount docdelta : Z) : M unit :=
  do c <- charindex line column;
  let target := c + charcount in
  do ci <- contains_index;
  do m <- get_module;
  if line <? ci then
    do_ for_each (dict_keys (m_types m))
          (shift_decorated (m_types m) target charcount docdelta);
    do_ for_each (dict_keys (m_members m))
          (shift_member (m_members m) target charcount);
    do m' <- get_module;
    set_module (mkModule (refstring m') (_lines m') (_chars m') None
                  (m_types m') (m_members m') (m_executables m'))
  else
    for_each (dict_keys (m_executables m))
      (shift_decorated (m_executables m) target charcount docdelta).

(** *** Re-parenting *)

(** [element.start > c.start and element.end < c.end] *)
Definition inside (element c : Element) : bool :=
  (start element >? start c) && (end_ element <? end_ c).

(** One loop of [find_embedded_parent]: the first entry of [coll], in the
    order of its keys, whose span holds the span of [element]. *)
Fixpoint first_container (coll : dict oid) (keys : list string) (element : Element)
  : M (option oid) :=
  match keys with
  | [] => ret None
  | t :: keys' =>
      do o <- lift (dict_item t coll);
      do c <- read o;
      if inside element c then ret (Some o)
      else first_container coll keys' element
  end.

(** [Module.find_embedded_parent]: the types first; the executables when the
    first loop ends without [break]. *)
Definition find_embedded_parent (element : Element) : M (option oid) :=
  do m <- get_module;
  do r <- first_container (m_types m) (dict_keys (m_types m)) element;
  match r with
  | Some o => ret (Some o)
  | None => first_container (m_executables m) (dict_keys (m_executables m)) element
  end.

(** [Module.collection], restricted to what [update_embedded] then does with
    it: [dependencies] and [publics] are lists, which have no [keys]. *)
Definition collection (attribute : string) : M (dict oid) :=
  do m <- get_module;
  if bool_decide (attribute = "types") then ret (m_types m)
  else if bool_decide (attribute = "members") then ret (m_members m)
  else if bool_decide (attribute = "executables") then ret (m_executables m)
  else if bool_decide (attribute = "dependencies") || bool_decide (attribute = "publics")
  then raise AttributeError
  else raise KeyError.

(** [del coll[key]] on the dictionary that [collection(attribute)] returned,
    which is the dictionary of the module itself. *)
Definition del_item (attribute key : string) : M unit :=
  do m <- get_module;
  if bool_decide (attribute = "types") then
    set_module (mkModule (refstring m) (_lines m) (_chars m) (_contains_index m)
                  (dict_del key (m_types m)) (m_members m) (m_executables m))
  else if bool_decide (attribute = "members") then
    set_module (mkModule (refstring m) (_lines m) (_chars m) (_contains_index m)
                  (m_types m) (dict_del key (m_members m)) (m_executables m))
  else
    set_module (mkModule (refstring m) (_lines m) (_chars m) (_contains_index m)
                  (m_types m) (m_members m) (dict_del key (m_executables m))).

(** Assignments to one attribute of an object. *)
Definition set_parent (e : Element) (p : owner) : Element :=
  mkElement (start e) (end_ e) (docstart e) (docend e) p (types e) (executables e).
Definition set_types (e : Element) (d : dict oid) : Element :=
  mkElement (start e) (end_ e) (docstart e) (docend e) (parent e) (Some d) (executables e).
Definition set_executables (e : Element) (d : dict oid) : Element :=
  mkElement (start e) (end_ e) (docstart e) (docend e) (parent e) (types e) (Some d).

(** The body of the loop of [update_embedded]. *)
Definition embed (attribute key : string) : M unit :=
  do coll <- collection attribute;
  do element <- lift (dict_item key coll);
  do el <- read element;
  do new_parent <- find_embedded_parent el;
  match new_parent with
  | None => ret tt
  | Some np =>
      do_ write element (set_parent el (Elem np));
      do p <- read np;
      do_ (if bool_decide (attribute = "types") then
             do d <- getattr (types p);
             write np (set_types p (dict_set key element d))
           else
             do d <- getattr (executables p);
             write np (set_executables p (dict_set key element d)));
      del_item attribute key
  end.

(** [Module.update_embedded] *)
Definition update_embedded (attribute : string) : M unit :=
  do coll <- collection attribute;
  for_each (dict_keys coll) (embed attribute).

(** The dictionary of a new parent that receives the element. *)
Definition nested (attribute : string) (p : Element) : option (dict oid) :=
  if bool_decide (attribute = "types") then types p else executables p.

(** The assignment [new_parent.types[key] = element], or the one to
    [new_parent.executables]. *)
Definition receive (attribute : string) (p : Element) (d : dict oid) : Element :=
  if bool_decide (attribute = "types") then set_types p d else set_executables p d.

(** The top-level dictionary named by [attribute]. *)
Definition top_level (attribute : string) (m : ModuleEl) : dict oid :=
  if bool_decide (attribute = "types") then m_types m
  else if bool_decide (attribute = "members") then m_members m
  else m_executables m.

(** [o] is held by the module under the key [t], as a type or as an
    executable: the objects that [find_embedded_parent] looks at. *)
Definition top_has (m : ModuleEl) (t : string) (o : oid) : Prop :=
  dict_get t (m_types m) = Some o \/ dict_get t (m_executables m) = Some o.

(** The span of [o] lies in the span of a type or executable of the module. *)
Definition has_container (st : State) (o : oid) : Prop :=
  exists t p pe ve,
    top_has (this st) t p /\ heap st !! p = Some pe /\
    heap st !! o = Some ve /\ inside ve pe = true.

Definition same_span (x x' : Element) : Prop :=
  start x' = start x /\ end_ x' = end_ x.

(** What the iterations of the loop of [update_embedded] for the keys [ks]
    may change between the states [st] and [st']: no span; the parent of an
    object only if the object is held under one of the keys; no entry of a
    receiving dictionary under another key; and a type or executable leaves
    the module only if it has a container. *)
Definition embed_rel (attribute : string) (ks : list string) (st st' : State) : Prop :=
  length (heap st') = length (heap st) /\
  (forall o x, heap st !! o = Some x ->
     exists x', heap st' !! o = Some x' /\ same_span x x' /\
       ((forall k, k ∈ ks -> dict_get k (top_level attribute (this st)) <> Some o) ->
        parent x' = parent x) /\
       (forall d k o2, nested attribute x = Some d -> dict_get k d = Some o2 ->
          k ∉ ks -> exists d', nested attribute x' = Some d' /\ dict_get k d' = Some o2)) /\
  (forall t o, top_has (this st') t o -> top_has (this st) t o) /\
  (forall pr, pr ∈ top_level attribute (this st') -> pr ∈ top_level attribute (this st)) /\
  (forall k v, dict_get k (top_level attribute (this st')) = Some v ->
     dict_get k (top_level attribute (this st)) = Some v) /\
  (forall k, k ∉ ks ->
     dict_get k (top_level attribute (this st')) = dict_get k (top_level attribute (this st))) /\
  (forall t o, top_has (this st) t o -> top_has (this st') t o \/ has_container st o).

(** Every type and executable of the module is in the store and has an
    [executables] dictionary, as instances of [CustomType] and [Executable]
    have. *)
Definition containers_ready (st : State) : Prop :=
  forall o, o ∈ dict_values (m_types (this st)) ++ dict_values (m_executables (this st)) ->
            exists x d, heap st !! o = Some x /\ executables x = Some d.

(** *** Well-formed states

    What the parser builds: in each top-level dictionary the keys are
    distinct; each object is held by one dictionary under one key; each
    reference points into the store; the members are [ValueElement]s. *)
Definition wf_state (st : State) : bool :=
  let m := this st in
  bool_decide (NoDup (dict_keys (m_types m))) &&
  bool_decide (NoDup (dict_keys (m_members m))) &&
  bool_decide (NoDup (dict_keys (m_executables m))) &&
  bool_decide (NoDup (dict_values (m_types m) ++ dict_values (m_members m)
                        ++ dict_values (m_executables m))) &&
  forallb (fun o => match heap st !! o with
                    | Some e => match docstart e with None => true | Some _ => false end
                    | None => false
                    end) (dict_values (m_members m)).

(** Two states with the same objects and the same top-level dictionaries. *)
Definition same_elements (st st' : State) : Prop :=
  heap st' = heap st /\
  m_types (this st') = m_types (this st) /\
  m_members (this st') = m_members (this st) /\
  m_executables (this st') = m_executables (this st).

(** How an element [e'] relates to the element [e] it was before a shift by
    [charcount] that is applied when [b] holds. *)
Definition shifted_if (b : bool) (charcount : Z) (e e' : Element) : Prop :=
  if b then start e' = start e + charcount /\ end_ e' = end_ e + charcount
  else e' = e.

(** *** Examples *)

(** The offset of the character [index] within line [i]: its distance from
    the start of the line, which is the end of the line before. *)
Definition offset_in_line (chars : list Z) (i : nat) (index : Z) : Z :=
  index - match i with
          | O => 0
          | S j => match chars !! j with Some c => c | None => 0 end
          end.

Definition lines_text (lines : list string) : string :=
  join (String newline EmptyString) lines.

(** A module of two lines, not indexed yet. *)
Definition ex_two_lines : State :=
  mkState (mkModule (lines_text ["ab"; "cd"]) [] [] None [] [] []) [].

(** A module with a type [t] (object 0), a member [x] (object 1) and, after
    the boundary on line 4, two subroutines [s] (object 2) and [r]
    (object 3). *)
Definition ex_text : string :=
  lines_text ["module m"; "type t"; "end type"; "integer x"; "contains";
              "subroutine s"; "end subroutine"; "subroutine r"; "end subroutine";
              "end module"].

Definition ex_state : State :=
  mkState
    (mkModule ex_text [] [] None [("t", 0%nat)] [("x", 1%nat)] [("s", 2%nat); ("r", 3%nat)])
    [new_CustomType 9 24 0 0 TheModule;
     new_ValueElement 25 34 TheModule;
     new_Executable 44 71 0 0 TheModule;
     new_Executable 72 99 0 0 TheModule].

(** The state that a call leaves, the given state when it raises. *)
Definition state_after (c : M unit) (st : State) : State :=
  match c st with
  | Ok (_, st') => st'
  | Raise _ => st
  end.

(** A module in which the subroutine [inner] (object 1) and the type [u]
    (object 2) lie in the span of the subroutine [outer] (object 0). *)
Definition ex_embedded : State :=
  mkState
    (mkModule EmptyString [] [] None [("u", 2%nat)] [] [("outer", 0%nat); ("inner", 1%nat)])
    [new_Executable 10 200 0 0 TheModule;
     new_Executable 50 90 0 0 TheModule;
     new_CustomType 20 40 0 0 TheModule].


(** *** Further notions used to state what the update engine does *)

(** The element with its four offsets moved by [charcount]. *)
Definition charfix (e : Element) (charcount : Z) : Element :=
  mkElement (start e + charcount) (end_ e + charcount)
    ((fun d => d + charcount) <$> docstart e) ((fun d => d + charcount) <$> docend e)
    (parent e) (types e) (executables e).

(** The test of [_update_char_check], as a proposition: the docstring of the
    element overlaps the edit and [docdelta] is not zero, or the element
    starts after the target. *)
Definition must_shift (target docdelta : Z) (e : Element) : Prop :=
  (docdelta <> 0 /\
   exists ds de, docstart e = Some ds /\ docend e = Some de /\
                 ds <= target /\ de >= target - docdelta) \/
  absstart e > target.

(** The objects that an edit on [line] may move, for the boundary [ci]. *)
Definition affected_objects (m : ModuleEl) (line ci : Z) : list oid :=
  if line <? ci then dict_values (m_types m) ++ dict_values (m_members m)
  else dict_values (m_executables m).

(** A module whose line index is still to be built from a text that is not
    empty. *)
Definition fresh_text (st : State) : Prop :=
  _lines (this st) = [] /\ refstring (this st) <> "".

(** The sum of a list of integers. *)
Definition total (l : list Z) : Z := foldr Z.add 0 l.

(** The numbers that [linenum] adds up: the length of each line, plus one
    for its line break, the last line excepted. *)
Definition contributions (lines : list string) : list Z :=
  dec_last (map (fun x => slen x + 1) lines).

(** A line that holds the boundary keyword, in any case. *)
Definition has_contains (line : string) : bool := str_in "contains" (lower line).

(** A module with a documented subroutine [s] (object 0) after the boundary
    on line 1: its docstring is line 2, its span the lines 3 and 4. *)
Definition ex_documented : State :=
  mkState
    (mkModule
       (lines_text ["module m"; "contains"; "!!<summary>s</summary>";
                    "subroutine s"; "end subroutine"; "end module"])
       [] [] None [] [] [("s", 0%nat)])
    [new_Executable 41 68 18 40 TheModule].

(** A module with a type and no boundary keyword, four lines long. *)
Definition ex_no_boundary : State :=
  mkState
    (mkModule (lines_text ["module m"; "type t"; "end type"; "end module"])
       [] [] None [("t", 0%nat)] [] [])
    [new_CustomType 9 24 0 0 TheModule].

(** A module without types whose boundary keyword is in upper case. *)
Definition ex_upper_boundary : State :=
  mkState
    (mkModule (lines_text ["module m"; "integer x"; "CONTAINS"; "end module"])
       [] [] None [] [("x", 0%nat)] [])
    [new_ValueElement 9 18 TheModule].


(** *** [Module.get_element] *)

(** The loop of [get_element] over [self.types] or [self.executables]: it
    keeps the entry with the largest [absstart] among those that start at or
    before [ichar]; [maxstart] starts at 0. *)
Fixpoint scan_latest (d : dict oid) (ichar : Z) (keys : list string) (maxstart : Z)
    (tempresult : option oid) : M (option oid) :=
  match keys with
  | [] => ret tempresult
  | t :: keys' =>
      do o <- lift (dict_item t d);
      do e <- read o;
      if (ichar >=? absstart e) && (absstart e >? maxstart)
      then scan_latest d ichar keys' (absstart e) (Some o)
      else scan_latest d ichar keys' maxstart tempresult
  end.

(** The test after the loop.  [incomplete o] is the attribute [incomplete]
    of the object [o]. *)
Definition accept (incomplete : oid -> bool) (ichar : Z) (tempresult : option oid)
  : M (option oid) :=
  match tempresult with
  | None => ret None
  | Some o =>
      do e <- read o;
      if (ichar <=? end_ e) || incomplete o then ret (Some o) else ret None
  end.

(** The loop over [self.members], left at the first match. *)
Fixpoint scan_members (d : dict oid) (ichar : Z) (keys : list string) : M (option oid) :=
  match keys with
  | [] => ret None
  | m :: keys' =>
      do o <- lift (dict_item m d);
      do e <- read o;
      if (ichar >=? start e) && (ichar <=? end_ e) then ret (Some o)
      else scan_members d ichar keys'
  end.

(** What [get_element] returns: the module itself, or one of its children. *)
Inductive found : Type :=
| FoundModule
| FoundElement (o : oid).

(** [Module.get_element] *)
Definition get_element (incomplete : oid -> bool) (line column : Z) : M found :=
  do ichar <- charindex line column;
  do icontains <- contains_index;
  do m <- get_module;
  do result <-
    (if line <? icontains then
       do tempresult <- scan_latest (m_types m) ichar (dict_keys (m_types m)) 0 None;
       do result <- accept incomplete ichar tempresult;
       match result with
       | Some o => ret (Some o)
       | None => scan_members (m_members m) ichar (dict_keys (m_members m))
       end
     else
       do tempresult <- scan_latest (m_executables m) ichar
                          (dict_keys (m_executables m)) 0 None;
       accept incomplete ichar tempresult);
  match result with
  | None => ret FoundModule
  | Some o => ret (FoundElement o)
  end.

(** Every reference of the three top-level dictionaries points into the
    store. *)
Definition resolved (st : State) : bool :=
  forallb (fun o => bool_decide (is_Some (heap st !! o)))
    (dict_values (m_types (this st)) ++ dict_values (m_members (this st))
       ++ dict_values (m_executables (this st))).

(** The entry [k] of [d] starts at [a], at or before [ichar]. *)
Definition starts_by (st : State) (d : dict oid) (ichar : Z) (k : string) (a : Z) : Prop :=
  exists o e, dict_get k d = Some o /\ heap st !! o = Some e /\
              absstart e = a /\ a <= ichar.

(** [o] is the entry of [d] that starts last among those that start at or
    before [ichar], the first of them in the order of the dictionary, and
    its start is positive. *)
Definition latest_of (st : State) (d : dict oid) (ichar : Z) (o : oid) (e : Element)
  : Prop :=
  exists k keys1 keys2,
    dict_keys d = keys1 ++ k :: keys2 /\
    dict_get k d = Some o /\ heap st !! o = Some e /\
    0 < absstart e <= ichar /\
    (forall k' a, k' ∈ keys1 -> starts_by st d ichar k' a -> a < absstart e) /\
    (forall k' a, k' ∈ keys2 -> starts_by st d ichar k' a -> a <= absstart e).

(** The element reaches [ichar], or is marked incomplete. *)
Definition owns (incomplete : oid -> bool) (ichar : Z) (o : oid) (e : Element) : Prop :=
  ichar <= end_ e \/ incomplete o = true.

(** The outcome of the search among the types or the executables [d]. *)
Definition decorated_owner (incomplete : oid -> bool) (st : State) (d : dict oid)
    (ichar : Z) (r : option oid) : Prop :=
  match r with
  | Some o => exists e, latest_of st d ichar o e /\ owns incomplete ichar o e
  | None =>
      (forall k a, k ∈ dict_keys d -> starts_by st d ichar k a -> a <= 0) \/
      exists o e, latest_of st d ichar o e /\ ~ owns incomplete ichar o e
  end.

(** A member whose span holds [ichar]. *)
Definition member_at (st : State) (ichar : Z) (o : oid) : Prop :=
  exists k e, dict_get k (m_members (this st)) = Some o /\ heap st !! o = Some e /\
              start e <= ichar <= end_ e.

(** What [get_element] answers for the offset [ichar] on a line before the
    boundary ([before = true]) or not. *)
Definition owner_of (incomplete : oid -> bool) (st : State) (before : bool) (ichar : Z)
    (r : found) : Prop :=
  if before then
    match r with
    | FoundElement o =>
        decorated_owner incomplete st (m_types (this st)) ichar (Some o) \/
        (decorated_owner incomplete st (m_types (this st)) ichar None /\
         member_at st ichar o)
    | FoundModule =>
        decorated_owner incomplete st (m_types (this st)) ichar None /\
        forall o, ~ member_at st ichar o
    end
  else
    match r with
    | FoundElement o =>
        decorated_owner incomplete st (m_executables (this st)) ichar (Some o)
    | FoundModule =>
        decorated_owner incomplete st (m_executables (this st)) ichar None
    end.

(** *** [Module.update_refstring] *)

(** The slices [s[:i]] and [s[j:]] of a string. *)
Fixpoint str_take (n : nat) (s : string) : string :=
  match n, s with
  | S n', String c s' => String c (str_take n' s')
  | _, _ => EmptyString
  end.

Fixpoint str_drop (n : nat) (s : string) : string :=
  match n, s with
  | S n', String _ s' => str_drop n' s'
  | _, _ => s
  end.

Definition slice_to (s : string) (i : Z) : string :=
  str_take (Z.to_nat (if i <? 0 then slen s + i else i)) s.

Definition slice_from (s : string) (j : Z) : string :=
  str_drop (Z.to_nat (if j <? 0 then slen s + j else j)) s.

(** The attributes that [update_refstring] assigns besides those of the line
    index. *)
Record Sections : Type := mkSections {
  preamble : string;
  contains : string;
  changed : bool
}.

(** The state after the first assignments of [update_refstring]: the new
    text, no lines, no cached boundary; [_chars] is not reset. *)
Definition reset_text (text : string) (st : State) : State :=
  mkState (mkModule text [] (_chars (this st)) None
             (m_types (this st)) (m_members (this st)) (m_executables (this st)))
    (heap st).

(** [Module.update_refstring] *)
Definition update_refstring (text : string) : M Sections :=
  do_ (fun st => Ok (tt, reset_text text st));
  do icontains <- contains_index;
  do ichar <- charindex icontains 0;
  ret (mkSections (slice_to text ichar) (slice_from text (ichar + 9)) true).

(** The lines, each followed by a line break. *)
Fixpoint with_breaks (lines : list string) : string :=
  match lines with
  | [] => EmptyString
  | l :: lines' => l +:+ String newline (with_breaks lines')
  end.

(** A module whose text is to be replaced. *)
Definition ex_stale : State :=
  mkState (mkModule "old" ["old"] [3] (Some 0) [] [] []) [].

(** *** [Module.absolute_charindex] *)

(** The slice [s[start:end]]: a negative bound counts from the end, and a
    bound out of range is moved to the nearest end of the string. *)
Definition py_slice (s : string) (start stop : Z) : string :=
  let lo := Z.to_nat (if start <? 0 then slen s + start else start) in
  let hi := Z.to_nat (if stop <? 0 then slen s + stop else stop) in
  str_take (hi - lo) (str_drop lo s).

(** [hay.index(needle)]: the offset of the first occurrence, [None] when
    Python raises [ValueError]. *)
Fixpoint str_index (needle hay : string) : option nat :=
  if is_prefix needle hay then Some 0%nat
  else match hay with
       | EmptyString => None
       | String _ hay' => S <$> str_index needle hay'
       end.

(** [Module.absolute_charindex]; the result is [None] when the call raises
    [ValueError]. *)
Definition absolute_charindex (self : ModuleEl) (text : string) (start stop : Z)
  : option (Z * Z) :=
  let search := py_slice text start stop in
  match str_index search (refstring self) with
  | Some abs_start => Some (Z.of_nat abs_start, (stop - start) + Z.of_nat abs_start)
  | None => None
  end.

(** A module whose text holds the word [ab] twice. *)
Definition ex_repeated : ModuleEl := mkModule "ab ab" [] [] None [] [] [].
End Layout.

(** ** Further methods of [CodeElement] and [Module] *)

(** [CodeElement.clean_mods], on a list: [modifiers.remove("")] when the
    empty string is an entry. *)
Definition clean_mods (modifiers : list string) : list string :=
  if bool_decide ("" ∈ modifiers) then Calls.remove_first "" modifiers else modifiers.

(** The attribute [modifiers] as [CodeElement.__init__] leaves it. *)
Definition init_modifiers (modifiers : option (list string)) : list string :=
  match modifiers with
  | None => []
  | Some ms => clean_mods ms
  end.

Definition dot : ascii := ascii_of_nat 46.

(** [dep.split(".")[0].lower()] *)
Definition module_of (dep : string) : string :=
  match split dot dep with
  | t :: _ => lower t
  | [] => EmptyString
  end.

(** The loop of [Module.needs]. *)
Fixpoint needs_loop (dependencies : list string) (result : list string) : list string :=
  match dependencies with
  | [] => result
  | dep :: rest =>
      let module := module_of dep in
      needs_loop rest (if bool_decide (module ∈ result) then result
                       else result ++ [module])
  end.

(** The property [Module.needs], a function of the attribute
    [dependencies]. *)
Definition needs (dependencies : list string) : list string :=
  needs_loop dependencies [].

(** The values of a list in the order of their first occurrence: each value
    once, at the place where it occurs first.  This is the specification
    that the loops with a membership test are compared with. *)
Fixpoint first_occurrences (l : list string) : list string :=
  match l with
  | [] => []
  | x :: l' => x :: filter (fun y => y <> x) (first_occurrences l')
  end.

(** ** Renaming: [Executable.update_name] and [CustomType.update_name] *)

Module Renaming.

(** The dictionary of the parent in which the elements are filed
    ([executables] for an executable, [types] for a type), and the attribute
    [name] of each object of the store. *)
Record State : Type := mkState {
  filed : dict nat;
  names : list string
}.




End Renaming.

(** ** The arguments of a call: [Dependency.clean] *)

From stdpp Require pretty.

Module CallArgs.

(** An entry of an argument list: a string, or a nested list of entries. *)
Inductive arg : Type :=
| Str (s : string)
| Lst (l : list arg).

(** [re.sub("[:,]+", "", s)] *)
Fixpoint remove_separators (s : string) : string :=
  match s with
  | EmptyString => EmptyString
  | String c s' =>
      if bool_decide (c = ":"%char \/ c = ","%char) then remove_separators s'
      else String c (remove_separators s')
  end.

(** The characters that [strip] removes. *)
Definition is_space (c : ascii) : bool :=
  let n := nat_of_ascii c in
  (Nat.eqb n 32 || (Nat.leb 9 n && Nat.leb n 13))%bool.

Fixpoint lstrip (s : string) : string :=
  match s with
  | EmptyString => EmptyString
  | String c s' => if is_space c then lstrip s' else s
  end.

Fixpoint rstrip (s : string) : string :=
  match s with
  | EmptyString => EmptyString
  | String c s' =>
      match rstrip s' with
      | EmptyString => if is_space c then EmptyString else String c EmptyString
      | r => String c r
      end
  end.

(** [s.strip()] *)
Definition strip (s : string) : string := rstrip (lstrip s).

(** [re.sub("[:,]+", "", arg).strip()] *)
Definition cleaner (s : string) : string := strip (remove_separators s).

(** The suffix that records the length [n] of a nested list: an opening
    parenthesis, a star, [n] in decimal, a closing parenthesis. *)
Definition count_suffix (n : nat) : string :=
  "(" +:+ "*" +:+ stdpp.pretty.pretty_nat n +:+ ")".

(** [result[-1] = result[-1] + suffix], on a list that is not empty. *)
Fixpoint extend_last (result : list string) (suffix : string) : list string :=
  match result with
  | [] => []
  | [x] => [x +:+ suffix]
  | x :: result' => x :: extend_last result' suffix
  end.

(** ["/" in a]: a substring test on a string, a membership test on a list. *)
Definition has_slash (a : arg) : bool :=
  match a with
  | Str s => str_in "/" s
  | Lst l => existsb (fun x => match x with
                               | Str s => bool_decide (s = "/")
                               | Lst _ => false
                               end) l
  end.

(** The loop of [clean]; [rec] is the recursive call [self.clean(arg)], and
    [printed] collects the arguments that a warning is printed for. *)
Fixpoint clean_loop (rec : arg -> list arg -> res (list string * list arg))
    (argslist : list arg) (result : list string) (printed : list arg)
  : res (list string * list arg) :=
  match argslist with
  | [] => Ok (result, printed)
  | a :: rest =>
      match a with
      | Lst l =>
          if len result >? 0 then
            match rec a printed with
            | Ok (inner, printed') =>
                clean_loop rec rest
                  (extend_last result (count_suffix (length inner))) printed'
            | Raise e => Raise e
            end
          else
            match l with
            | [] => Raise IndexError
            | a0 :: _ =>
                clean_loop rec rest result
                  (if has_slash a0 then printed else printed ++ [a])
            end
      | Str s =>
          clean_loop rec rest
            (if slen (cleaner s) >? 0 then result ++ [cleaner s] else result) printed
      end
  end.

(** [Dependency.clean] on the list held by [a]. *)
Fixpoint clean_arg (a : arg) (printed : list arg) : res (list string * list arg) :=
  match a with
  | Lst argslist => clean_loop clean_arg argslist [] printed
  | Str _ => Raise TypeError
  end.

(** [Dependency.clean(argslist)]: the list returned and the arguments
    warned about. *)
Definition clean (argslist : list arg) : res (list string * list arg) :=
  clean_arg (Lst argslist) [].

(** The strings among the entries. *)
Fixpoint strings_of (argslist : list arg) : list string :=
  match argslist with
  | [] => []
  | Str s :: rest => s :: strings_of rest
  | Lst _ :: rest => strings_of rest
  end.

(** The number that a nested list contributes: the number of strings of its
    top level that cleaning leaves non-empty. *)
Definition token_count (l : list arg) : nat :=
  length (filter (fun c => c <> "") (map cleaner (strings_of l))).

(** The count suffixes of the nested lists at the front of [argslist], up
    to the next string that makes a token. *)
Fixpoint leading_suffixes (argslist : list arg) : string :=
  match argslist with
  | [] => EmptyString
  | Lst l :: rest => count_suffix (token_count l) +:+ leading_suffixes rest
  | Str s :: rest =>
      if bool_decide (cleaner s = "") then leading_suffixes rest else EmptyString
  end.

(** The list that the result of [clean] is compared with: one token for
    each string of the top level that cleaning leaves non-empty, the cleaned
    string followed by the count suffixes of the nested lists between it and
    the next token. *)
Fixpoint tokens (argslist : list arg) : list string :=
  match argslist with
  | [] => []
  | Lst _ :: rest => tokens rest
  | Str s :: rest =>
      if bool_decide (cleaner s = "") then tokens rest
      else (cleaner s +:+ leading_suffixes rest) :: tokens rest
  end.

(** No list of the tree is empty. *)
Fixpoint no_empty_list (a : arg) : bool :=
  match a with
  | Str _ => true
  | Lst l => negb (bool_decide (l = [])) && forallb no_empty_list l
  end.

End CallArgs.
(** * Properties *)

(** ** Docstring lists *)

Lemma same_doc_key (d doc : DocElement) :
  same_doc d doc = true <-> doc_key d = doc_key doc.
Proof.
  unfold same_doc, doc_key. rewrite andb_true_iff, !bool_decide_eq_true.
  split; [intros [-> ->]; reflexivity | intros [= -> ->]; auto].
Qed.

Lemma del_first_doc_incl (doc : DocElement) (l : list DocElement) :
  forall d, d ∈ del_first_doc doc l -> d ∈ l.
Proof.
  induction l as [|x l IH]; simpl; intros d Hd; [assumption|].
  destruct (same_doc x doc).
  - now apply list_elem_of_further.
  - apply elem_of_cons in Hd as [->|Hd]; [apply list_elem_of_here|].
    apply list_elem_of_further; auto.
Qed.

Lemma del_first_doc_unique (doc : DocElement) (l : list DocElement) :
  NoDup (doc_key <$> l) ->
  NoDup (doc_key <$> del_first_doc doc l) /\
  doc_key doc ∉ doc_key <$> del_first_doc doc l.
Proof.
  induction l as [|x l IH]; simpl; intros Hnd.
  - split; [constructor | apply not_elem_of_nil].
  - apply NoDup_cons in Hnd as [Hx Hnd].
    destruct (same_doc x doc) eqn:E.
    + apply same_doc_key in E. rewrite <- E. auto.
    + destruct (IH Hnd) as [IH1 IH2]. simpl. split.
      * apply NoDup_cons. split; [|assumption].
        intros Hin. apply Hx.
        apply list_elem_of_fmap in Hin as (y & -> & Hy).
        apply list_elem_of_fmap. exists y. split; [reflexivity|].
        eapply del_first_doc_incl; eassumption.
      * intros Hin. apply elem_of_cons in Hin as [Heq|Hin]; [|auto].
        assert (same_doc x doc = true) by (apply same_doc_key; auto).
        congruence.
Qed.

Lemma overwrite_docs_NoDup (doc : DocElement) (l : list DocElement) :
  NoDup (doc_key <$> l) -> NoDup (doc_key <$> overwrite_docs doc l).
Proof.
  intros Hnd. unfold overwrite_docs. rewrite fmap_app.
  destruct (del_first_doc_unique doc l Hnd) as [H1 H2].
  apply NoDup_app. split; [assumption|]. split.
  - intros k Hk Hk'. simpl in Hk'. apply list_elem_of_singleton in Hk'.
    subst. auto.
  - simpl. apply NoDup_singleton.
Qed.

Lemma docs_after_snoc (ds : list DocElement) (d : DocElement) :
  docs_after (ds ++ [d]) = overwrite_docs d (docs_after ds).
Proof. unfold docs_after. now rewrite fold_left_app. Qed.

Lemma docs_after_NoDup (ds : list DocElement) :
  NoDup (doc_key <$> docs_after ds).
Proof.
  induction ds as [|d ds IH] using rev_ind.
  - constructor.
  - rewrite docs_after_snoc. now apply overwrite_docs_NoDup.
Qed.

Lemma filter_none {A} (P : A -> Prop) `{forall x, Decision (P x)} (l : list A) :
  (forall x, x ∈ l -> ~ P x) -> filter P l = [].
Proof.
  induction l as [|x l IH]; intros Hl; [reflexivity|].
  rewrite filter_cons_False by (apply Hl, list_elem_of_here).
  apply IH. intros y Hy. apply Hl, list_elem_of_further, Hy.
Qed.

Lemma overwrite_docs_only (doc : DocElement) (l : list DocElement) :
  NoDup (doc_key <$> l) ->
  filter (fun d => doc_key d = doc_key doc) (overwrite_docs doc l) = [doc].
Proof.
  intros Hnd. unfold overwrite_docs. rewrite filter_app.
  destruct (del_first_doc_unique doc l Hnd) as [_ H2].
  replace (filter (fun d => doc_key d = doc_key doc) (del_first_doc doc l))
    with (@nil DocElement).
  - simpl. rewrite filter_cons_True by reflexivity. reflexivity.
  - symmetry. apply filter_none.
    intros d Hd Heq. apply H2. rewrite <- Heq.
    apply list_elem_of_fmap. eauto.
Qed.

(** C3. Starting from the empty docstring list of a new element, after any
    sequence of [overwrite_docs] calls no two entries share the pair
    (doctype, pointsto); and when two entries [d1], [d2] with the same pair
    are inserted one after the other, the list holds exactly one entry with
    that pair, namely [d2]. *)
Theorem overwrite_docs_last_write_wins (ds : list DocElement) :
  NoDup (doc_key <$> docs_after ds) /\
  forall d1 d2 : DocElement,
    doc_key d1 = doc_key d2 ->
    filter (fun d => doc_key d = doc_key d2) (docs_after (ds ++ [d1; d2])) = [d2].
Proof.
  split; [apply docs_after_NoDup|].
  intros d1 d2 _.
  change [d1; d2] with ([d1] ++ [d2]).
  rewrite app_assoc, docs_after_snoc.
  apply overwrite_docs_only, docs_after_NoDup.
Qed.

Lemma overwrite_docs_last_write_wins_witness :
  let d0 := mkDocElement "summary" "zero" [] in
  let d1 := mkDocElement "parameter" "one" [("name", "N")] in
  let d2 := mkDocElement "parameter" "two" [("name", "n")] in
  filter (fun d => doc_key d = doc_key d2) (docs_after ([d0] ++ [d1; d2])) = [d2].
Proof.
  intros d0 d1 d2.
  apply (proj2 (overwrite_docs_last_write_wins [d0]) d1 d2).
  reflexivity.
Defined.

(** ** Full names *)

Lemma join_cons (sep a b : string) (l : list string) :
  join sep (a :: b :: l) = a +:+ sep +:+ join sep (b :: l).
Proof. reflexivity. Qed.

Lemma names_from_cons (c : Ownership.CodeElement) :
  exists l, Ownership.names_from c = Ownership.name c :: l.
Proof. destruct c as [n p f]; simpl. eauto. Qed.

(** What the code computes when no cache is filled: the name of the element
    comes first, the names of its owners follow. *)
Lemma full_name_uncached (e p : Ownership.CodeElement) :
  Ownership.parent e = Some p ->
  Ownership._full_name e = None ->
  Ownership._full_name p = None ->
  fst (Ownership.full_name e)
  = Ownership.name e +:+ "." +:+ fst (Ownership.full_name p).
Proof.
  intros Hp He Hc. unfold Ownership.full_name. rewrite He, Hc. simpl.
  unfold Ownership.ancestors. rewrite Hp.
  destruct p as [n q f]; simpl. reflexivity.
Qed.

(** C2. The executable [foo] of the module [mod]: [full_name] is ["foo.mod"],
    while the full name of the parent followed by ["."] and the name of the
    element is ["mod.foo"]. *)
Theorem full_name_foo_in_mod :
  fst (Ownership.full_name Ownership.ex_foo) = "foo.mod" /\
  fst (Ownership.full_name Ownership.ex_mod) +:+ "." +:+ Ownership.name Ownership.ex_foo
  = "mod.foo".
Proof. split; reflexivity. Qed.

(** ** Sections of a decorated element *)

(** C7, as stated, fails: offset 12 lies in the span [10, 100] of the
    element, and is classified as signature, not body. *)
Lemma find_section_body_counterexample :
  let e := Layout.new_Executable 10 100 0 5 Layout.TheModule in
  Layout.start e <= 12 <= Layout.end_ e /\
  Layout.find_section e 12 = Ok (Some Layout.Signature).
Proof. simpl. split; [lia | reflexivity]. Qed.

(** C7, amended.  For an element with [docstart], [docend], [start] and [end]
    set, [find_section] answers: signature exactly when the offset is past
    [docend] and less than 8 characters past [start]; body exactly when it is
    in [start, end] and not in the signature window; docstring exactly when
    it is in [docstart, docend] and not in [start, end]; nothing otherwise. *)
Theorem find_section_classifies (self : Layout.Element) (ds de c : Z) :
  Layout.docstart self = Some ds ->
  Layout.docend self = Some de ->
  let sig := c > de /\ c - Layout.start self < 8 in
  let body := Layout.start self <= c <= Layout.end_ self in
  let doc := ds <= c <= de in
  (Layout.find_section self c = Ok (Some Layout.Signature) <-> sig) /\
  (Layout.find_section self c = Ok (Some Layout.Body) <-> body /\ ~ sig) /\
  (Layout.find_section self c = Ok (Some Layout.Docstring) <-> doc /\ ~ body) /\
  (Layout.find_section self c = Ok None <-> ~ sig /\ ~ body /\ ~ doc).
Proof.
  intros Hds Hde. unfold Layout.find_section. rewrite Hds, Hde. simpl.
  destruct (Z.gtb_spec c de), (Z.ltb_spec (c - Layout.start self) 8),
    (Z.geb_spec c (Layout.start self)), (Z.leb_spec c (Layout.end_ self)),
    (Z.geb_spec c ds), (Z.leb_spec c de); simpl;
    repeat split; intros; try discriminate; try lia;
    try match goal with
        | H : _ /\ _ |- _ => exfalso; lia
        end.
Qed.

Lemma find_section_classifies_witness :
  Layout.find_section (Layout.new_Executable 10 100 0 5 Layout.TheModule) 50
  = Ok (Some Layout.Body).
Proof.
  apply (find_section_classifies
           (Layout.new_Executable 10 100 0 5 Layout.TheModule) 0 5 50
           eq_refl eq_refl).
  simpl. lia.
Defined.

(** ** The documentation check *)

(** C9. [warn] returns normally for no instance and no collection: on a
    module the lookup through [super] finds no [warn] and raises
    [AttributeError]; on every other element the call of the value of
    [has_docstring] raises [TypeError]. *)
Theorem warn_always_raises (self : Warnings.Instance_) (collection : list string) :
  (exists e, Warnings.warn self collection = Raise e) /\
  (Warnings.cls self = Warnings.Module_ ->
   Warnings.warn self collection = Raise AttributeError) /\
  (Warnings.cls self = Warnings.CodeElement ->
   Warnings.warn self collection = Raise TypeError).
Proof.
  destruct self as [c n ms d]. unfold Warnings.warn. simpl.
  repeat split.
  - destruct c; simpl; eauto.
  - intros ->. reflexivity.
  - intros ->. reflexivity.
Qed.

Lemma warn_always_raises_witness :
  Warnings.warn (Warnings.mkInstance Warnings.Module_ "m" ["implicit none"] (Some [])) []
  = Raise AttributeError.
Proof.
  apply (warn_always_raises
           (Warnings.mkInstance Warnings.Module_ "m" ["implicit none"] (Some [])) []).
  reflexivity.
Defined.

(** ** Call dependencies *)

Lemma assigns_symbol_found (assignments : list string) (assign symbol : string) :
  assign ∈ assignments -> Calls.assign_target assign = symbol ->
  Calls.assigns_symbol assignments symbol = Calls.ATrue.
Proof.
  induction assignments as [|a l IH]; intros Hin Ht; [inversion Hin|].
  simpl. case_bool_decide as E; [reflexivity|].
  apply elem_of_cons in Hin as [->|Hin]; [contradiction | auto].
Qed.

(** A direct assignment is found: when an assignment of the executable has
    the symbol as the part of its target before the first [%], lower-cased,
    [changed] returns the lower-cased [module.name] of the executable. *)
Lemma changed_direct (fuel : nat) (reg : Calls.registry) (self : Calls.Executable)
    (symbol assign me : string) (checked : list string) :
  Calls.myname self = Ok me -> me ∉ checked -> symbol <> "" ->
  assign ∈ Calls._assignments self -> Calls.assign_target assign = symbol ->
  Calls.changed (S fuel) reg self symbol checked = Some (Ok (Calls.PStr me, checked)).
Proof.
  intros Hme Hnot Hsym Hin Ht. simpl. rewrite Hme.
  rewrite bool_decide_eq_false_2 by assumption.
  unfold Calls._get_assignments_in. rewrite bool_decide_eq_true_2 by assumption.
  now rewrite (assigns_symbol_found _ _ _ Hin Ht).
Qed.

(** C4. The executable [a] calls [b]; no executable of the registry assigns
    anything, yet [a.changed("x")] returns the name ["m.b"], which is not a
    falsy value. *)
Theorem changed_reports_unchanged_symbol :
  Forall (fun x => Calls._assignments x = []) (dict_values Calls.ex_registry) /\
  Calls.changed 3 Calls.ex_registry Calls.ex_a "x" []
  = Some (Ok (Calls.PStr "m.b", ["m.a"; "m.b"])) /\
  Calls.truthy (Calls.PStr "m.b") = true.
Proof.
  split; [repeat constructor|]. split; reflexivity.
Qed.

(** ** Dictionaries *)

Lemma dict_get_set {V} (k k' : string) (v : V) (d : dict V) :
  dict_get k (dict_set k' v d) = if decide (k' = k) then Some v else dict_get k d.
Proof.
  induction d as [|[k0 v0] d IH]; simpl.
  - destruct (decide (k' = k)); reflexivity.
  - destruct (decide (k0 = k')) as [->|Hne]; simpl.
    + destruct (decide (k' = k)); reflexivity.
    + destruct (decide (k0 = k)) as [->|Hne'].
      * destruct (decide (k' = k)); [congruence | reflexivity].
      * apply IH.
Qed.

Lemma dict_get_del {V} (k k' : string) (d : dict V) :
  dict_get k (dict_del k' d) = if decide (k' = k) then None else dict_get k d.
Proof.
  induction d as [|[k0 v0] d IH]; simpl.
  - destruct (decide (k' = k)); reflexivity.
  - destruct (decide (k0 = k')) as [->|Hne]; simpl.
    + rewrite IH. destruct (decide (k' = k)); reflexivity.
    + rewrite IH. destruct (decide (k0 = k)) as [->|Hne'].
      * destruct (decide (k' = k)); [congruence | reflexivity].
      * reflexivity.
Qed.

Lemma py_index_nonneg {A} (l : list A) (i : Z) (x : A) :
  0 <= i -> py_index l i = Ok x -> l !! Z.to_nat i = Some x.
Proof.
  intros Hi. unfold py_index.
  destruct (Z.ltb_spec i 0); [lia|].
  destruct (Z.ltb_spec i 0); [lia|].
  destruct (l !! Z.to_nat i); [intros [= ->]; reflexivity | discriminate].
Qed.

(** ** Parameters *)

Lemma add_parameter_ok (p : Calls.ValueElement) (x : Calls.Executable) :
  Calls.parameters_ok x -> Calls.parameters_ok (Calls.add_parameter p x).
Proof.
  intros [Hnd Hk]. split; simpl.
  - case_bool_decide as Hin; [assumption|].
    apply NoDup_app. split; [assumption|]. split; [|apply NoDup_singleton].
    intros k Hk1 Hk2. apply list_elem_of_singleton in Hk2. subst. auto.
  - intros k q. rewrite dict_get_set.
    destruct (decide (lower (Calls.name p) = k)); [intros [= <-]; assumption|].
    apply Hk.
Qed.

Lemma with_parameters_ok (ps : list Calls.ValueElement) (x : Calls.Executable) :
  Calls.parameters_ok x -> Calls.parameters_ok (Calls.with_parameters ps x).
Proof.
  revert x. induction ps as [|p ps IH]; intros x Hx; [assumption|].
  simpl. apply IH, add_parameter_ok, Hx.
Qed.

Lemma get_parameter_Some (self : Calls.Executable) (index : Z) (p : Calls.ValueElement) :
  Calls.get_parameter self index = Some p ->
  0 < index < len (Calls.paramorder self) /\
  exists key, Calls.paramorder self !! Z.to_nat index = Some key /\
              dict_get key (Calls._parameters self) = Some p.
Proof.
  unfold Calls.get_parameter.
  destruct (Z.gtb_spec index 0); [|discriminate].
  destruct (Z.ltb_spec index (len (Calls.paramorder self))); [|discriminate].
  simpl. destruct (py_index _ index) as [key|] eqn:E; [|discriminate].
  apply py_index_nonneg in E; [|lia].
  unfold dict_mem. destruct (dict_get key _) eqn:G; [|discriminate].
  intros [= ->]. split; [lia|]. eauto.
Qed.

(** C10. [get_parameter(0)] is [None] whatever the parameters are; a
    parameter is returned only for an index strictly between 0 and
    [len(paramorder)], and it is the one stored under [paramorder[index]];
    hence, for an executable whose parameters were added with
    [add_parameter], no index returns the parameter declared first. *)
Theorem get_parameter_never_first :
  (forall self : Calls.Executable, Calls.get_parameter self 0 = None) /\
  (forall (self : Calls.Executable) (index : Z) (p : Calls.ValueElement),
     Calls.get_parameter self index = Some p ->
     0 < index < len (Calls.paramorder self) /\
     exists key, Calls.paramorder self !! Z.to_nat index = Some key /\
                 dict_get key (Calls._parameters self) = Some p) /\
  (forall (nm : string) (m : option Calls.ModuleRef) (ps : list Calls.ValueElement)
          (index : Z) (p : Calls.ValueElement) (first : string),
     let self := Calls.with_parameters ps (Calls.new_executable nm m) in
     Calls.paramorder self !! 0%nat = Some first ->
     Calls.get_parameter self index = Some p ->
     lower (Calls.name p) <> first).
Proof.
  split; [reflexivity|]. split; [apply get_parameter_Some|].
  intros nm m ps index p first self Hfirst Hget.
  assert (Hok : Calls.parameters_ok self).
  { apply with_parameters_ok. split; [constructor | intros k q; discriminate]. }
  destruct Hok as [Hnd Hk].
  apply get_parameter_Some in Hget as (Hidx & key & Hkey & Hp).
  rewrite (Hk _ _ Hp). intros ->.
  assert (Z.to_nat index = 0%nat) by (eapply NoDup_lookup; eassumption).
  lia.
Qed.

Lemma get_parameter_never_first_witness :
  let self := Calls.with_parameters
                [Calls.mkValueElement "N" None None None None;
                 Calls.mkValueElement "x" None None None None]
                (Calls.new_executable "f" None) in
  Calls.get_parameter self 0 = None /\
  lower (Calls.name (Calls.mkValueElement "x" None None None None)) <> "n".
Proof.
  split.
  - apply (proj1 get_parameter_never_first).
  - apply (proj2 (proj2 get_parameter_never_first) "f" None
             [Calls.mkValueElement "N" None None None None;
              Calls.mkValueElement "x" None None None None] 1
             (Calls.mkValueElement "x" None None None None) "n");
      reflexivity.
Defined.

(** ** Termination of [changed] *)

Section Changed.

Import Calls.

Variable reg : registry.
Variable symbol : string.

Lemma filter_length_le {A} (P Q : A -> Prop)
    `{forall x, Decision (P x)} `{forall x, Decision (Q x)} (l : list A) :
  (forall x, P x -> Q x) ->
  (length (filter P l) <= length (filter Q l))%nat.
Proof.
  intros HPQ. induction l as [|x l IH]; [reflexivity|].
  rewrite !filter_cons.
  destruct (decide (P x)) as [HP|HP], (decide (Q x)) as [HQ|HQ]; simpl; try lia.
  exfalso. auto.
Qed.

Lemma filter_length_lt {A} (P Q : A -> Prop)
    `{forall x, Decision (P x)} `{forall x, Decision (Q x)} (l : list A) (a : A) :
  (forall x, P x -> Q x) -> a ∈ l -> Q a -> ~ P a ->
  (length (filter P l) < length (filter Q l))%nat.
Proof.
  intros HPQ Ha HQa HPa. induction l as [|x l IH]; [inversion Ha|].
  rewrite !filter_cons.
  apply elem_of_cons in Ha as [<-|Ha].
  - destruct (decide (P a)); [contradiction|].
    destruct (decide (Q a)); [|contradiction].
    simpl. pose proof (filter_length_le P Q l HPQ). lia.
  - specialize (IH Ha).
    destruct (decide (P x)) as [HP|HP], (decide (Q x)) as [HQ|HQ]; simpl; try lia.
    exfalso. auto.
Qed.

Lemma is_unvisited_mono (c c' : list string) (x : Executable) :
  c ⊆ c' -> is_unvisited c' x = true -> is_unvisited c x = true.
Proof.
  intros Hsub. unfold is_unvisited. destruct (myname x); [|auto].
  rewrite !negb_true_iff, !bool_decide_eq_false. auto.
Qed.

Lemma unvisited_mono (world : list Executable) (c c' : list string) :
  c ⊆ c' -> (length (unvisited world c') <= length (unvisited world c))%nat.
Proof.
  intros Hsub. apply filter_length_le. intros x. now apply is_unvisited_mono.
Qed.

Lemma unvisited_visit (world : list Executable) (c c' : list string)
    (x : Executable) (me : string) :
  x ∈ world -> myname x = Ok me -> me ∉ c -> c ++ [me] ⊆ c' ->
  (length (unvisited world c') < length (unvisited world c))%nat.
Proof.
  intros Hx Hme Hnot Hsub.
  apply filter_length_lt with (a := x); [|assumption| |].
  - intros y. apply is_unvisited_mono. intros z Hz. apply Hsub, elem_of_app. auto.
  - unfold is_unvisited. rewrite Hme, negb_true_iff, bool_decide_eq_false. assumption.
  - unfold is_unvisited. rewrite Hme, negb_true_iff, bool_decide_eq_false.
    intros Hn. apply Hn, Hsub, elem_of_app. right. apply list_elem_of_here.
Qed.

Lemma dict_get_values {V} (k : string) (d : dict V) (v : V) :
  dict_get k d = Some v -> v ∈ dict_values d.
Proof.
  induction d as [|[k0 v0] d IH]; simpl; [discriminate|].
  destruct (decide (k0 = k)).
  - intros [= ->]. apply list_elem_of_here.
  - intros Hd. apply list_elem_of_further, IH, Hd.
Qed.

Lemma changed_loop_returns rec (attached : bool) (c0 : list string)
    (deps : list Dependency) :
  (forall x c, x ∈ dict_values reg -> c0 ⊆ c -> returns_extending rec x c) ->
  forall c, c0 ⊆ c ->
  exists r, changed_loop rec reg attached deps c = Some r /\
            (forall v c', r = Ok (inl (v, c')) -> c ⊆ c') /\
            (forall c', r = Ok (inr c') -> c ⊆ c').
Proof.
  intros Hrec. induction deps as [|d deps IH]; intros c Hc; simpl.
  - eexists. split; [reflexivity|]. split; [discriminate|].
    intros c' [= ->]. reflexivity.
  - destruct (external_name d) as [ename|e].
    2:{ eexists. split; [reflexivity|]. split; discriminate. }
    destruct attached; simpl.
    2:{ eexists. split; [reflexivity|]. split; discriminate. }
    assert (Hgrow : forall c1, c ⊆ c1 -> c ⊆ c1 ++ [ename]).
    { intros c1 H1 z Hz. apply elem_of_app. left. auto. }
    destruct (get_executable reg ename) as [iexec|] eqn:G.
    + apply dict_get_values in G.
      destruct (Hrec iexec c G Hc) as (r & Hr & Hext). rewrite Hr.
      destruct r as [[v c1]|e].
      2:{ eexists. split; [reflexivity|]. split; discriminate. }
      specialize (Hext v c1 eq_refl).
      case_bool_decide.
      * eexists. split; [reflexivity|]. split; [|discriminate].
        intros v' c' [= <- <-]. assumption.
      * destruct (IH (c1 ++ [ename])) as (r & Hr' & H1 & H2).
        { etransitivity; [exact Hc|]. now apply Hgrow. }
        exists r. split; [assumption|].
        split; intros; (etransitivity; [apply (Hgrow c1 Hext)|]); eauto.
    + destruct (IH (c ++ [ename])) as (r & Hr' & H1 & H2).
      { etransitivity; [exact Hc|]. now apply Hgrow. }
      exists r. split; [assumption|].
      split; intros; (etransitivity; [apply (Hgrow c); reflexivity|]); eauto.
Qed.

Lemma changed_returns (world : list Executable) :
  (forall x, x ∈ dict_values reg -> x ∈ world) ->
  forall (fuel : nat) (self : Executable) (checked : list string),
    self ∈ world ->
    (length (unvisited world checked) < fuel)%nat ->
    returns_extending (fun x c => changed fuel reg x symbol c) self checked.
Proof.
  intros Hworld. induction fuel as [|fuel IH]; intros self checked Hself Hlt; [lia|].
  unfold returns_extending. simpl.
  destruct (myname self) as [me|e] eqn:Hme.
  2:{ eexists. split; [reflexivity|]. discriminate. }
  case_bool_decide as Hin.
  { eexists. split; [reflexivity|]. intros v c' [= <- <-]. reflexivity. }
  assert (Hloop : exists r,
    changed_loop (fun iexec c => changed fuel reg iexec symbol c) reg
      (attached self) (dependency_list self) (checked ++ [me]) = Some r /\
    (forall v c', r = Ok (inl (v, c')) -> checked ++ [me] ⊆ c') /\
    (forall c', r = Ok (inr c') -> checked ++ [me] ⊆ c')).
  { apply changed_loop_returns with (c0 := checked ++ [me]); [|reflexivity].
    intros x c Hx Hc. apply IH; [auto|].
    pose proof (unvisited_visit world checked c self me Hself Hme Hin Hc). lia. }
  assert (Hsub : checked ⊆ checked ++ [me]).
  { intros z Hz. apply elem_of_app. auto. }
  destruct (_get_assignments_in self (_parameters self) symbol).
  - eexists. split; [reflexivity|]. intros v c' [= <- <-]. reflexivity.
  - destruct Hloop as (r & -> & H1 & H2).
    destruct r as [[[v c1]|c1]|e]; eexists; (split; [reflexivity|]);
      intros v' c' [= <- <-] || intros v' c' [=]; (etransitivity; [exact Hsub|]); eauto.
  - destruct Hloop as (r & -> & H1 & H2).
    destruct r as [[[v c1]|c1]|e]; eexists; (split; [reflexivity|]);
      intros v' c' [= <- <-] || intros v' c' [=]; (etransitivity; [exact Hsub|]); eauto.
Qed.

Lemma changed_loop_more rec rec' (attached : bool) (deps : list Dependency) :
  (forall x c r, rec x c = Some r -> rec' x c = Some r) ->
  forall c r, changed_loop rec reg attached deps c = Some r ->
              changed_loop rec' reg attached deps c = Some r.
Proof.
  intros Hrec. induction deps as [|d deps IH]; intros c r; simpl; [auto|].
  destruct (external_name d) as [ename|e]; [|auto].
  destruct attached; simpl; [|auto].
  destruct (get_executable reg ename) as [iexec|]; [|apply IH].
  destruct (rec iexec c) as [r0|] eqn:E; [|discriminate].
  rewrite (Hrec _ _ _ E).
  destruct r0 as [[v c1]|e]; [|auto].
  case_bool_decide; [auto | apply IH].
Qed.

Lemma changed_more_fuel (fuel : nat) :
  forall (self : Executable) (checked : list string) r,
    changed fuel reg self symbol checked = Some r ->
    changed (S fuel) reg self symbol checked = Some r.
Proof.
  induction fuel as [|fuel IH]; intros self checked r; [discriminate|].
  intros H. simpl in H. cbn [changed].
  destruct (myname self) as [me|e]; [|assumption].
  case_bool_decide; [assumption|].
  destruct (_get_assignments_in self (_parameters self) symbol); [assumption| |].
  - destruct (changed_loop _ reg _ _ _) as [r0|] eqn:E in H; [|discriminate].
    erewrite changed_loop_more; [exact H| |exact E]. apply IH.
  - destruct (changed_loop _ reg _ _ _) as [r0|] eqn:E in H; [|discriminate].
    erewrite changed_loop_more; [exact H| |exact E]. apply IH.
Qed.

End Changed.

(** C8. [changed] returns (a value, or an exception) on every registry,
    executable and symbol, whatever the call edges are, cycles included: a
    budget of two calls more than the registry has entries is enough, and a
    larger budget gives the same result.  The bound holds because a call that
    does work first records its lower-case [module.name] in [checked], and no
    recorded executable is worked on again. *)
Theorem changed_terminates (reg : Calls.registry) (self : Calls.Executable)
    (symbol : string) (checked : list string) :
  exists r, forall extra : nat,
    Calls.changed (2 + length reg + extra) reg self symbol checked = Some r.
Proof.
  destruct (changed_returns reg symbol (self :: dict_values reg)) with
    (fuel := (2 + length reg)%nat) (self := self) (checked := checked)
    as (r & Hr & _).
  - intros x Hx. now apply list_elem_of_further.
  - apply list_elem_of_here.
  - pose proof (length_filter
      (fun x => Calls.is_unvisited checked x = true) (self :: dict_values reg)) as Hl.
    unfold Calls.unvisited. simpl in Hl |- *.
    unfold dict_values in *. rewrite length_fmap in Hl. lia.
  - exists r. induction extra as [|extra IH].
    + rewrite Nat.add_0_r. exact Hr.
    + rewrite Nat.add_succ_r. apply changed_more_fuel, IH.
Qed.

(** ** The line index *)

Section LineIndex.

Import Layout.

Lemma bind_Ok {A B} (c : M A) (k : A -> M B) (st : State) (r : B * State) :
  bind c k st = Ok r -> exists a st1, c st = Ok (a, st1) /\ k a st1 = Ok r.
Proof.
  unfold bind. destruct (c st) as [[a st1]|e]; [eauto | discriminate].
Qed.

Lemma linenum_eq (index : Z) (st : State) :
  linenum index st
  = Ok (if len (_lines (index_text (this st))) >? 0
        then find_line index (_chars (index_text (this st))) 0
        else LList (-1) (-1),
        mkState (index_text (this st)) (heap st)).
Proof.
  unfold linenum, bind, get_module, set_module, ret. simpl.
  destruct (len (_lines (index_text (this st))) >? 0); reflexivity.
Qed.

Lemma find_line_first (index : Z) (chars : list Z) (k : Z) :
  (exists i c, chars !! i = Some c /\ index <= c) ->
  exists (i : nat) (c : Z),
    find_line index chars k = LList (k + Z.of_nat i) (c - index) /\
    chars !! i = Some c /\ index <= c /\
    forall j c', (j < i)%nat -> chars !! j = Some c' -> c' < index.
Proof.
  revert k. induction chars as [|x chars IH]; intros k (i & c & Hi & Hc).
  - discriminate.
  - simpl. destruct (Z.leb_spec index x) as [Hle|Hgt].
    + exists 0%nat, x. rewrite Z.add_0_r. repeat split; auto. intros; lia.
    + destruct i as [|i]; [simpl in Hi; injection Hi as ->; lia|].
      destruct (IH (k + 1)) as (i' & c' & Hf & Hl & Hle' & Hfirst); [eauto|].
      exists (S i'), c'. rewrite Hf. repeat split; auto.
      * f_equal. lia.
      * intros [|j] c'' Hj Hl'; simpl in Hl'.
        -- injection Hl' as <-. assumption.
        -- apply (Hfirst j); [lia | assumption].
Qed.

Lemma split_nonempty (c : ascii) (s : string) : split c s <> [].
Proof.
  destruct s as [|a s]; simpl; [discriminate|].
  destruct (decide (a = c)); [discriminate|].
  destruct (split c s); discriminate.
Qed.

Lemma len_nil_iff {A} (l : list A) : (len l =? 0) = true <-> l = [].
Proof.
  unfold len. rewrite Z.eqb_eq. destruct l; simpl; split; auto; try discriminate; lia.
Qed.

End LineIndex.

(** C6, as stated, fails on its second component: in the text of the two
    lines [ab] and [cd], the character at offset 0 is the first of line 0, at
    offset 0 within that line, and [linenum(0)] returns [[0, 3]]. *)
Lemma linenum_offset_counterexample :
  let st' := Layout.mkState (Layout.index_text (Layout.this Layout.ex_two_lines)) [] in
  Layout.linenum 0 Layout.ex_two_lines = Ok (Layout.LList 0 3, st') /\
  Layout.offset_in_line (Layout._chars (Layout.this st')) 0 0 = 0 /\
  3 <> 0.
Proof. split; [vm_compute; reflexivity|]. split; [reflexivity | lia]. Qed.

(** C6, amended.  [linenum] first builds the line index when it is missing
    and the text is not empty.  With no line index and an empty text it
    returns [[-1, -1]].  With a line index (there is one whenever the text is
    not empty) and an offset that is at most the cumulative end offset of
    some line, it returns [[i, c - offset]], where [i] is the first line whose
    cumulative end offset [c] is at least the offset: the second component is
    the distance from the offset to the end of the line, not the offset
    within the line. *)
Theorem linenum_first_line_end (st : Layout.State) (index : Z) :
  let m' := Layout.index_text (Layout.this st) in
  let st' := Layout.mkState m' (Layout.heap st) in
  (Layout._lines (Layout.this st) = [] -> Layout.refstring (Layout.this st) = "" ->
   Layout.linenum index st = Ok (Layout.LList (-1) (-1), st)) /\
  (Layout.refstring (Layout.this st) <> "" -> Layout._lines m' <> []) /\
  (Layout._lines m' <> [] ->
   (exists i c, Layout._chars m' !! i = Some c /\ index <= c) ->
   exists (i : nat) (c : Z),
     Layout.linenum index st = Ok (Layout.LList (Z.of_nat i) (c - index), st') /\
     Layout._chars m' !! i = Some c /\ index <= c /\
     forall j c', (j < i)%nat -> Layout._chars m' !! j = Some c' -> c' < index).
Proof.
  intros m' st'. split; [|split].
  - intros Hl Hr. rewrite linenum_eq. unfold Layout.index_text.
    rewrite Hl, Hr. simpl. destruct st as [m h]. simpl in *. rewrite Hl. reflexivity.
  - intros Hr. subst m'. unfold Layout.index_text.
    destruct (len (Layout._lines (Layout.this st)) =? 0) eqn:E; simpl.
    + rewrite bool_decide_eq_false_2 by assumption. simpl. apply split_nonempty.
    + intros Hnil. rewrite Hnil in E. discriminate.
  - intros Hl Hex. rewrite linenum_eq. fold m'.
    destruct (find_line_first index (Layout._chars m') 0 Hex)
      as (i & c & Hf & Hi & Hc & Hfirst).
    exists i, c. rewrite Hf. simpl.
    destruct (Layout._lines m'); [congruence|]. simpl. repeat split; auto.
Qed.

Lemma linenum_first_line_end_witness :
  exists (i : nat) (c : Z),
    Layout.linenum 4 Layout.ex_two_lines
    = Ok (Layout.LList (Z.of_nat i) (c - 4),
          Layout.mkState (Layout.index_text (Layout.this Layout.ex_two_lines)) []) /\
    Layout._chars (Layout.index_text (Layout.this Layout.ex_two_lines)) !! i = Some c /\
    4 <= c /\
    forall j c', (j < i)%nat ->
      Layout._chars (Layout.index_text (Layout.this Layout.ex_two_lines)) !! j = Some c' ->
      c' < 4.
Proof.
  apply (proj2 (proj2 (linenum_first_line_end Layout.ex_two_lines 4))).
  - discriminate.
  - exists 1%nat, 5. split; [reflexivity | lia].
Defined.

(** ** Shifting the elements after an edit *)

Section Shifting.

Import Layout.

Lemma index_text_colls (m : ModuleEl) :
  m_types (index_text m) = m_types m /\
  m_members (index_text m) = m_members m /\
  m_executables (index_text m) = m_executables m.
Proof.
  unfold index_text.
  destruct (_ && _); simpl; auto.
Qed.

Lemma same_elements_refl (st : State) : same_elements st st.
Proof. repeat split. Qed.

Lemma same_elements_trans (st1 st2 st3 : State) :
  same_elements st1 st2 -> same_elements st2 st3 -> same_elements st1 st3.
Proof.
  intros (H1 & H2 & H3 & H4) (H1' & H2' & H3' & H4').
  repeat split; congruence.
Qed.

Lemma linenum_frame (index : Z) (st : State) r st' :
  linenum index st = Ok (r, st') -> same_elements st st'.
Proof.
  rewrite linenum_eq. intros [= _ <-].
  destruct (index_text_colls (this st)) as (H1 & H2 & H3).
  repeat split; assumption.
Qed.

Lemma charindex_frame (line column : Z) (st : State) c st' :
  charindex line column st = Ok (c, st') -> same_elements st st'.
Proof.
  unfold charindex. intros H.
  apply bind_Ok in H as (m & st1 & [= <- <-] & H).
  apply bind_Ok in H as (u & st2 & H2 & H).
  apply bind_Ok in H as (m' & st3 & [= <- <-] & H).
  apply bind_Ok in H as (x & st4 & H4 & [= _ <-]).
  unfold lift in H4. destruct (py_index _ _); [|discriminate].
  injection H4 as _ <-.
  destruct (len (_lines (this st)) =? 0).
  - apply bind_Ok in H2 as (r & st5 & H5 & [= _ <-]).
    eapply linenum_frame, H5.
  - injection H2 as _ <-. apply same_elements_refl.
Qed.

Lemma last_type_end_state (keys : list string) (max_t : Z) (st : State) x st' :
  last_type_end keys max_t st = Ok (x, st') -> st' = st.
Proof.
  revert max_t. induction keys as [|k keys IH]; intros max_t; simpl.
  - intros [= _ <-]. reflexivity.
  - intros H.
    apply bind_Ok in H as (m & st1 & [= <- <-] & H).
    apply bind_Ok in H as (o & st2 & H2 & H).
    unfold lift in H2. destruct (dict_item _ _); [|discriminate].
    injection H2 as <- <-.
    apply bind_Ok in H as (t & st3 & H3 & H).
    unfold read in H3. destruct (heap st !! a); [|discriminate].
    injection H3 as <- <-.
    destruct (_ && _); eapply IH, H.
Qed.

Lemma contains_index_frame (st : State) ci st' :
  contains_index st = Ok (ci, st') -> same_elements st st'.
Proof.
  unfold contains_index. intros H.
  apply bind_Ok in H as (m & st1 & [= <- <-] & H).
  destruct (_contains_index (this st)).
  - injection H as _ <-. apply same_elements_refl.
  - apply bind_Ok in H as (max_t & st2 & H2 & H).
    apply last_type_end_state in H2 as ->.
    apply bind_Ok in H as (r & st3 & H3 & H).
    apply linenum_frame in H3.
    destruct r as [start_ b|n]; [|discriminate].
    apply bind_Ok in H as (m1 & st4 & [= <- <-] & H).
    apply bind_Ok in H as (found & st5 & H5 & H).
    unfold lift in H5. destruct (scan_contains _ _ _ _); [|discriminate].
    injection H5 as _ <-.
    apply bind_Ok in H as (u & st6 & [= _ <-] & [= _ <-]).
    eapply same_elements_trans; [exact H3|].
    repeat split.
Qed.

Lemma read_Ok (o : oid) (st : State) e st' :
  read o st = Ok (e, st') -> heap st !! o = Some e /\ st' = st.
Proof.
  unfold read. destruct (heap st !! o); [|discriminate].
  intros [= <- <-]. auto.
Qed.

Lemma lift_Ok {A} (r : res A) (st : State) a st' :
  lift r st = Ok (a, st') -> r = Ok a /\ st' = st.
Proof. unfold lift. destruct r; [|discriminate]. intros [= <- <-]. auto. Qed.

Lemma dict_item_Ok {V} (k : string) (d : dict V) (v : V) :
  dict_item k d = Ok v -> dict_get k d = Some v.
Proof. unfold dict_item. destruct (dict_get k d); [|discriminate]. now intros [= ->]. Qed.

Lemma getattr_Ok {A} (x : option A) (st : State) a st' :
  getattr x st = Ok (a, st') -> x = Some a /\ st' = st.
Proof. destruct x; simpl; [|discriminate]. intros [= <- <-]. auto. Qed.

Lemma state_insert_same (st : State) (o : oid) (e : Element) :
  heap st !! o = Some e -> st = mkState (this st) (<[o := e]> (heap st)).
Proof. intros H. destruct st as [m h]. simpl in *. now rewrite list_insert_id. Qed.

Lemma shift_decorated_spec (coll : dict oid) (target charcount : Z) (key : string)
    (st : State) u st' :
  shift_decorated coll target charcount 0 key st = Ok (u, st') ->
  exists o e e',
    dict_get key coll = Some o /\ heap st !! o = Some e /\
    st' = mkState (this st) (<[o := e']> (heap st)) /\
    shifted_if (absstart e >? target) charcount e e'.
Proof.
  unfold shift_decorated. intros H.
  apply bind_Ok in H as (o & st1 & H1 & H).
  apply lift_Ok in H1 as [H1 ->]. apply dict_item_Ok in H1.
  apply bind_Ok in H as (e & st1 & H2 & H).
  apply read_Ok in H2 as [H2 ->].
  apply bind_Ok in H as (b & st1 & H3 & H).
  unfold _update_char_check in H3. simpl in H3. injection H3 as <- <-.
  exists o, e. unfold shifted_if.
  destruct (absstart e >? target).
  - unfold _element_charfix in H.
    apply bind_Ok in H as (e0 & st1 & H4 & H).
    apply read_Ok in H4 as [H4 ->].
    assert (e0 = e) by congruence. subst e0.
    apply bind_Ok in H as (ds & st1 & H5 & H).
    apply getattr_Ok in H5 as [H5 ->].
    apply bind_Ok in H as (de & st1 & H6 & H).
    apply getattr_Ok in H6 as [H6 ->].
    injection H as _ <-.
    eexists. split; [assumption|]. split; [assumption|].
    split; [reflexivity|]. simpl. split; reflexivity.
  - injection H as _ <-. exists e.
    split; [assumption|]. split; [assumption|].
    split; [now apply state_insert_same | reflexivity].
Qed.

Lemma shift_member_spec (coll : dict oid) (target charcount : Z) (key : string)
    (st : State) u st' :
  shift_member coll target charcount key st = Ok (u, st') ->
  exists o e e',
    dict_get key coll = Some o /\ heap st !! o = Some e /\
    st' = mkState (this st) (<[o := e']> (heap st)) /\
    shifted_if (start e >? target) charcount e e'.
Proof.
  unfold shift_member. intros H.
  apply bind_Ok in H as (o & st1 & H1 & H).
  apply lift_Ok in H1 as [H1 ->]. apply dict_item_Ok in H1.
  apply bind_Ok in H as (e & st1 & H2 & H).
  apply read_Ok in H2 as [H2 ->].
  exists o, e. unfold shifted_if.
  destruct (start e >? target).
  - injection H as _ <-.
    eexists. split; [assumption|]. split; [assumption|].
    split; [reflexivity|]. simpl. split; reflexivity.
  - injection H as _ <-. exists e.
    split; [assumption|]. split; [assumption|].
    split; [now apply state_insert_same | reflexivity].
Qed.

(** A loop whose body rewrites the object found under its key, and nothing
    else, rewrites each object of the dictionary once. *)
Lemma for_each_local (coll : dict oid) (P : Element -> Element -> Prop)
    (body : string -> M unit) :
  (forall key st u st', body key st = Ok (u, st') ->
     exists o e e', dict_get key coll = Some o /\ heap st !! o = Some e /\
                    st' = mkState (this st) (<[o := e']> (heap st)) /\ P e e') ->
  forall pairs : list (string * oid),
    (forall k o, (k, o) ∈ pairs -> dict_get k coll = Some o) ->
    NoDup pairs.*2 ->
    forall st u st', for_each pairs.*1 body st = Ok (u, st') ->
      this st' = this st /\
      (forall o, o ∉ pairs.*2 -> heap st' !! o = heap st !! o) /\
      (forall k o e, (k, o) ∈ pairs -> heap st !! o = Some e ->
         exists e', heap st' !! o = Some e' /\ P e e').
Proof.
  intros Hbody. induction pairs as [|[k o] pairs IH]; intros Hget Hnd st u st' H.
  - injection H as _ <-. repeat split; auto. intros k o e Hin. inversion Hin.
  - simpl in H, Hnd. apply NoDup_cons in Hnd as [Ho Hnd].
    apply bind_Ok in H as (u1 & st1 & H1 & H).
    apply Hbody in H1 as (o1 & e1 & e1' & Hk & He1 & -> & HP).
    rewrite (Hget k o (list_elem_of_here _ _)) in Hk. injection Hk as <-.
    apply IH in H as (Hm & Hframe & Hall); [|intros; apply Hget; now apply list_elem_of_further|assumption].
    simpl in *. split; [assumption|]. split.
    + intros o' Ho'. rewrite not_elem_of_cons in Ho'. destruct Ho' as [Hne Ho'].
      rewrite (Hframe o' Ho'). apply list_lookup_insert_ne. congruence.
    + intros k' o' e Hin He.
      apply elem_of_cons in Hin as [[= -> ->]|Hin].
      * exists e1'. rewrite (Hframe o Ho).
        assert (e = e1) by congruence. subst e.
        split; [|assumption].
        apply list_lookup_insert_eq. eapply lookup_lt_Some, He1.
      * apply (Hall k' o' e Hin).
        rewrite list_lookup_insert_ne; [assumption|].
        intros ->. apply Ho. apply list_elem_of_fmap. exists (k', o'). auto.
Qed.

Lemma dict_get_NoDup {V} (d : dict V) (k : string) (v : V) :
  NoDup (dict_keys d) -> (k, v) ∈ d -> dict_get k d = Some v.
Proof.
  induction d as [|[k0 v0] d IH]; intros Hnd Hin; [inversion Hin|].
  simpl in *. apply NoDup_cons in Hnd as [Hk Hnd].
  apply elem_of_cons in Hin as [[= -> ->]|Hin].
  - destruct (decide (k0 = k0)); [reflexivity | congruence].
  - destruct (decide (k0 = k)) as [->|Hne]; [|auto].
    exfalso. apply Hk. apply list_elem_of_fmap. exists (k, v). auto.
Qed.

Lemma wf_state_spec (st : State) :
  wf_state st = true ->
  NoDup (dict_keys (m_types (this st))) /\
  NoDup (dict_keys (m_members (this st))) /\
  NoDup (dict_keys (m_executables (this st))) /\
  NoDup (dict_values (m_types (this st)) ++ dict_values (m_members (this st))
           ++ dict_values (m_executables (this st))) /\
  forall o, o ∈ dict_values (m_members (this st)) ->
            exists e, heap st !! o = Some e /\ docstart e = None.
Proof.
  unfold wf_state. rewrite !andb_true_iff, !bool_decide_eq_true, forallb_forall.
  intros ((((H1 & H2) & H3) & H4) & H5). repeat split; try assumption.
  intros o Ho. apply list_elem_of_In in Ho. specialize (H5 o Ho).
  destruct (heap st !! o) as [e|]; [|discriminate].
  exists e. split; [reflexivity|]. destruct (docstart e); [discriminate | reflexivity].
Qed.

Lemma shifted_if_cases (x target charcount : Z) (e e' : Element) :
  shifted_if (x >? target) charcount e e' ->
  (x > target -> start e' = start e + charcount /\ end_ e' = end_ e + charcount) /\
  (x <= target -> start e' = start e /\ end_ e' = end_ e).
Proof.
  unfold shifted_if. destruct (Z.gtb_spec x target).
  - intros [-> ->]. split; [auto | lia].
  - intros ->. split; [lia | auto].
Qed.

End Shifting.

(** The shift rule where it holds.  Let
    [update_elements(line, column, charcount, 0)] run to its end on a
    well-formed module, let [c] be [charindex(line, column)], [target] be
    [c + charcount] and [ci] the boundary line.  The affected elements are
    the types and members when [line < ci], the executables otherwise.  Each
    affected element whose effective start [absstart] is greater than
    [target] has [start] and [end] increased by [charcount]; each affected
    element whose effective start is at most [target] keeps both. *)
Theorem update_elements_shifts (st : Layout.State) (line column charcount : Z)
    (st' : Layout.State) :
  Layout.wf_state st = true ->
  Layout.update_elements line column charcount 0 st = Ok (tt, st') ->
  exists (c ci : Z) (st1 st2 : Layout.State),
    Layout.charindex line column st = Ok (c, st1) /\
    Layout.contains_index st1 = Ok (ci, st2) /\
    let target := c + charcount in
    let affected :=
      if line <? ci
      then Layout.m_types (Layout.this st) ++ Layout.m_members (Layout.this st)
      else Layout.m_executables (Layout.this st) in
    forall (k : string) (o : Layout.oid) (e : Layout.Element),
      (k, o) ∈ affected -> Layout.heap st !! o = Some e ->
      exists e', Layout.heap st' !! o = Some e' /\
        (Layout.absstart e > target ->
         Layout.start e' = Layout.start e + charcount /\
         Layout.end_ e' = Layout.end_ e + charcount) /\
        (Layout.absstart e <= target ->
         Layout.start e' = Layout.start e /\ Layout.end_ e' = Layout.end_ e).
Proof.
  intros Hwf H.
  apply wf_state_spec in Hwf as (Hkt & Hkm & Hkx & Hvals & Hmem).
  unfold Layout.update_elements in H.
  apply bind_Ok in H as (c & st1 & Hc & H).
  apply bind_Ok in H as (ci & st2 & Hci & H).
  apply bind_Ok in H as (m & st2' & [= <- <-] & H).
  exists c, ci, st1, st2. split; [assumption|]. split; [assumption|].
  pose proof (same_elements_trans _ _ _ (charindex_frame _ _ _ _ _ Hc)
                (contains_index_frame _ _ _ Hci)) as (Hh & Ht & Hm & Hx).
  intros target affected k o e Hin He. subst affected.
  apply NoDup_app in Hvals as (Hvt & Htm & Hvals).
  apply NoDup_app in Hvals as (Hvm & Hmx & Hvx).
  destruct (line <? ci).
  - apply bind_Ok in H as (u1 & st3 & H3 & H).
    apply bind_Ok in H as (u2 & st4 & H4 & H).
    apply bind_Ok in H as (m' & st5 & [= <- <-] & [= <-]). simpl.
    eapply for_each_local with (pairs := Layout.m_types (Layout.this st2)) in H3
      as (Hm3 & Hf3 & Hall3);
      [|apply shift_decorated_spec
       |intros; apply dict_get_NoDup; [rewrite Ht|]; assumption
       |rewrite Ht; exact Hvt].
    eapply for_each_local with (pairs := Layout.m_members (Layout.this st2)) in H4
      as (Hm4 & Hf4 & Hall4);
      [|apply shift_member_spec
       |intros; apply dict_get_NoDup; [rewrite Hm|]; assumption
       |rewrite Hm; exact Hvm].
    apply elem_of_app in Hin as [Hin|Hin].
    + destruct (Hall3 k o e) as (e' & He' & HP); [rewrite Ht; assumption|congruence|].
      exists e'. split; [|now apply shifted_if_cases].
      rewrite Hf4; [assumption|]. rewrite Hm.
      intros Hom. apply (Htm o); [|apply elem_of_app; left; exact Hom].
      apply list_elem_of_fmap. exists (k, o). auto.
    + assert (Hov : o ∈ dict_values (Layout.m_members (Layout.this st))).
      { apply list_elem_of_fmap. exists (k, o). auto. }
      destruct (Hall4 k o e) as (e' & He' & HP); [rewrite Hm; assumption| |].
      { rewrite Hf3; [congruence|]. rewrite Ht. intros Hot.
        apply (Htm o Hot), elem_of_app. left. exact Hov. }
      exists e'. split; [assumption|].
      destruct (Hmem o Hov) as (e0 & He0 & Hds).
      assert (e0 = e) by congruence. subst e0.
      unfold Layout.absstart. rewrite Hds. now apply shifted_if_cases.
  - eapply for_each_local with (pairs := Layout.m_executables (Layout.this st2)) in H
      as (Hm3 & Hf3 & Hall3);
      [|apply shift_decorated_spec
       |intros; apply dict_get_NoDup; [rewrite Hx|]; assumption
       |rewrite Hx; exact Hvx].
    destruct (Hall3 k o e) as (e' & He' & HP); [rewrite Hx; assumption|congruence|].
    exists e'. split; [assumption | now apply shifted_if_cases].
Qed.

Lemma update_elements_shifts_witness :
  let st := Layout.ex_state in
  let st' := Layout.state_after (Layout.update_elements 6 0 3 0) st in
  exists (c ci : Z) (st1 st2 : Layout.State),
    Layout.charindex 6 0 st = Ok (c, st1) /\
    Layout.contains_index st1 = Ok (ci, st2) /\
    let target := c + 3 in
    let affected :=
      if 6 <? ci
      then Layout.m_types (Layout.this st) ++ Layout.m_members (Layout.this st)
      else Layout.m_executables (Layout.this st) in
    forall (k : string) (o : Layout.oid) (e : Layout.Element),
      (k, o) ∈ affected -> Layout.heap st !! o = Some e ->
      exists e', Layout.heap st' !! o = Some e' /\
        (Layout.absstart e > target ->
         Layout.start e' = Layout.start e + 3 /\
         Layout.end_ e' = Layout.end_ e + 3) /\
        (Layout.absstart e <= target ->
         Layout.start e' = Layout.start e /\ Layout.end_ e' = Layout.end_ e).
Proof.
  intros st st'.
  apply (update_elements_shifts st 6 0 3 st').
  - reflexivity.
  - vm_compute. reflexivity.
Defined.

(** C1. Two edits after which an element that starts after the target is
    not moved.  First: in the module with the subroutines [s] and [r], the
    edit [update_elements(6, 0, 3)] has the target 60 and moves the
    subroutine [r], which has no docstring, from 72..99 to 75..102;
    [_element_charfix] also moves its [docstart] and [docend] from 0, the
    value that [absstart] reads as "no docstring", to 3.  A second edit with
    the same target 60 then compares the target with 3, and leaves [r] at
    75..102 although its start 75 lies after the target.  Second: in a
    well-formed module of four lines with a type [t] at 9..24 and no
    boundary keyword, the edit [update_elements(1, 0, -3)] has the target 6;
    the call raises [IndexError] while it looks for the boundary, and [t],
    which starts after the target, is not moved. *)
Theorem update_elements_misses_elements :
  let st1 := Layout.state_after (Layout.update_elements 6 0 3 0) Layout.ex_state in
  let r1 := Layout.mkElement 75 102 (Some 3) (Some 3) Layout.TheModule
              (Some []) (Some []) in
  (Layout.wf_state Layout.ex_state = true /\
   Layout.heap Layout.ex_state !! 3%nat
   = Some (Layout.new_Executable 72 99 0 0 Layout.TheModule) /\
   Layout.heap st1 !! 3%nat = Some r1 /\
   Layout.wf_state st1 = true /\
   (exists st, Layout.charindex 6 0 st1 = Ok (57, st)) /\
   Layout.absstart r1 = 3 /\
   exists st2, Layout.update_elements 6 0 3 0 st1 = Ok (tt, st2) /\
               Layout.heap st2 !! 3%nat = Some r1) /\
  (Layout.wf_state Layout.ex_no_boundary = true /\
   Layout.heap Layout.ex_no_boundary !! 0%nat
   = Some (Layout.new_CustomType 9 24 0 0 Layout.TheModule) /\
   (exists st, Layout.charindex 1 0 Layout.ex_no_boundary = Ok (9, st)) /\
   Layout.update_elements 1 0 (-3) 0 Layout.ex_no_boundary = Raise IndexError).
Proof.
  split.
  - repeat split; try reflexivity.
    + eexists. vm_compute. reflexivity.
    + eexists. split; vm_compute; reflexivity.
  - repeat split; try reflexivity.
    eexists. vm_compute. reflexivity.
Qed.

(** ** Re-parenting of embedded elements *)

Section Embedding.

Import Layout.

Lemma dict_get_key {V} (k : string) (d : dict V) (v : V) :
  dict_get k d = Some v -> k ∈ dict_keys d.
Proof.
  induction d as [|[k0 v0] d IH]; simpl; [discriminate|].
  destruct (decide (k0 = k)) as [->|].
  - intros _. apply list_elem_of_here.
  - intros H. apply list_elem_of_further, IH, H.
Qed.

Lemma dict_get_elem {V} (k : string) (d : dict V) (v : V) :
  dict_get k d = Some v -> (k, v) ∈ d.
Proof.
  induction d as [|[k0 v0] d IH]; simpl; [discriminate|].
  destruct (decide (k0 = k)) as [->|].
  - intros [= ->]. apply list_elem_of_here.
  - intros H. apply list_elem_of_further, IH, H.
Qed.

Lemma dict_get_None_elem {V} (k : string) (d : dict V) (v : V) :
  dict_get k d = None -> (k, v) ∉ d.
Proof.
  induction d as [|[k0 v0] d IH]; simpl; intros H Hin; [inversion Hin|].
  destruct (decide (k0 = k)) as [->|Hne]; [discriminate|].
  apply elem_of_cons in Hin as [[= -> ->]|Hin]; [congruence|].
  now apply IH.
Qed.

Lemma dict_del_elem {V} (k : string) (d : dict V) (pr : string * V) :
  pr ∈ dict_del k d -> pr ∈ d.
Proof.
  induction d as [|[k0 v0] d IH]; simpl; [auto|].
  destruct (decide (k0 = k)).
  - intros H. apply list_elem_of_further, IH, H.
  - intros H. apply elem_of_cons in H as [->|H]; [apply list_elem_of_here|].
    apply list_elem_of_further, IH, H.
Qed.

Lemma NoDup_values_key {V} (d : dict V) (k1 k2 : string) (v : V) :
  NoDup (dict_values d) -> (k1, v) ∈ d -> (k2, v) ∈ d -> k1 = k2.
Proof.
  induction d as [|[k0 v0] d IH]; simpl; intros Hnd H1 H2; [inversion H1|].
  apply NoDup_cons in Hnd as [Hv Hnd].
  assert (Hin : forall k, (k, v0) ∈ d -> False).
  { intros k Hk. apply Hv, list_elem_of_fmap. exists (k, v0). auto. }
  apply elem_of_cons in H1 as [H1|H1]; apply elem_of_cons in H2 as [H2|H2].
  - congruence.
  - injection H1 as -> ->. exfalso. eauto.
  - injection H2 as -> ->. exfalso. eauto.
  - auto.
Qed.


Lemma first_container_spec (coll : dict oid) (el : Element) (keys : list string)
    (st : State) r st' :
  first_container coll keys el st = Ok (r, st') ->
  st' = st /\
  match r with
  | Some o => exists t pe, dict_get t coll = Some o /\ heap st !! o = Some pe /\
                           inside el pe = true
  | None => forall t o pe, t ∈ keys -> dict_get t coll = Some o ->
                           heap st !! o = Some pe -> inside el pe = false
  end.
Proof.
  induction keys as [|t keys IH]; simpl.
  - intros [= <- <-]. split; [reflexivity|]. intros t o pe Hin. inversion Hin.
  - intros H.
    apply bind_Ok in H as (o & st1 & H1 & H).
    apply lift_Ok in H1 as [H1 ->]. apply dict_item_Ok in H1.
    apply bind_Ok in H as (c & st1 & H2 & H).
    apply read_Ok in H2 as [H2 ->].
    destruct (inside el c) eqn:E.
    + injection H as <- <-. split; [reflexivity|]. eauto.
    + apply IH in H as [-> H]. split; [reflexivity|].
      destruct r as [o'|]; [assumption|].
      intros t' o' pe Hin Hget Hpe.
      apply elem_of_cons in Hin as [->|Hin]; [|eauto].
      congruence.
Qed.

Lemma find_embedded_parent_spec (el : Element) (st : State) r st' :
  find_embedded_parent el st = Ok (r, st') ->
  st' = st /\
  match r with
  | Some o => exists t pe, top_has (this st) t o /\ heap st !! o = Some pe /\
                           inside el pe = true
  | None => forall t o pe, top_has (this st) t o -> heap st !! o = Some pe ->
                           inside el pe = false
  end.
Proof.
  unfold find_embedded_parent. intros H.
  apply bind_Ok in H as (m & st1 & [= <- <-] & H).
  apply bind_Ok in H as (r1 & st1 & H1 & H).
  apply first_container_spec in H1 as [-> H1].
  destruct r1 as [o|].
  - injection H as <- <-. split; [reflexivity|].
    destruct H1 as (t & pe & H1 & H2 & H3). exists t, pe. unfold top_has. auto.
  - apply first_container_spec in H as [-> H]. split; [reflexivity|].
    destruct r as [o|].
    + destruct H as (t & pe & H2 & H3 & H4). exists t, pe. unfold top_has. auto.
    + intros t o pe [Ht|Ht] Hpe.
      * eapply H1; eauto using dict_get_key.
      * eapply H; eauto using dict_get_key.
Qed.

Lemma collection_Ok (attribute : string) (st : State) coll st' :
  collection attribute st = Ok (coll, st') ->
  st' = st /\ coll = top_level attribute (this st).
Proof.
  unfold collection, top_level. intros H.
  apply bind_Ok in H as (m & st1 & [= <- <-] & H).
  repeat case_bool_decide; simpl in H; try discriminate;
    injection H as <- <-; auto.
Qed.

Lemma del_item_spec (attribute key : string) (st : State) u st' :
  del_item attribute key st = Ok (u, st') ->
  heap st' = heap st /\
  top_level attribute (this st') = dict_del key (top_level attribute (this st)) /\
  (forall t o, top_has (this st') t o -> top_has (this st) t o) /\
  (forall t o, top_has (this st) t o ->
     top_has (this st') t o \/ dict_get t (top_level attribute (this st)) = Some o /\ t = key).
Proof.
  unfold del_item, top_level, top_has. intros H.
  apply bind_Ok in H as (m & st1 & [= <- <-] & H).
  repeat case_bool_decide; injection H as _ <-; simpl;
    (split; [reflexivity|]); (split; [reflexivity|]); split; intros t o;
    rewrite ?dict_get_del; destruct (decide (key = t)); subst; intuition congruence.
Qed.

Lemma inside_irrefl (e : Element) : inside e e = false.
Proof.
  unfold inside. destruct (Z.gtb_spec (start e) (start e)); [lia | reflexivity].
Qed.

Lemma inside_same_span (e e' c c' : Element) :
  same_span e e' -> same_span c c' -> inside e' c' = inside e c.
Proof. intros [H1 H2] [H3 H4]. unfold inside. now rewrite H1, H2, H3, H4. Qed.


(** One iteration of the loop of [update_embedded]: either nothing holds the
    element and the state is unchanged, or the element moves to the first
    container found. *)
Lemma embed_inv (attribute key : string) (st : State) u st' :
  embed attribute key st = Ok (u, st') ->
  exists o el,
    dict_get key (top_level attribute (this st)) = Some o /\
    heap st !! o = Some el /\
    ((st' = st /\
      forall t p pe, top_has (this st) t p -> heap st !! p = Some pe ->
                     inside el pe = false) \/
     (exists np t pe d,
        top_has (this st) t np /\ heap st !! np = Some pe /\
        inside el pe = true /\ np <> o /\ nested attribute pe = Some d /\
        heap st' = <[np := receive attribute pe (dict_set key o d)]>
                     (<[o := set_parent el (Elem np)]> (heap st)) /\
        top_level attribute (this st')
        = dict_del key (top_level attribute (this st)) /\
        (forall t o, top_has (this st') t o -> top_has (this st) t o) /\
        (forall t' o', top_has (this st) t' o' ->
           top_has (this st') t' o' \/
           dict_get t' (top_level attribute (this st)) = Some o' /\ t' = key))).
Proof.
  unfold embed. intros H.
  apply bind_Ok in H as (coll & st1 & H1 & H).
  apply collection_Ok in H1 as [-> ->].
  apply bind_Ok in H as (o & st1 & H1 & H).
  apply lift_Ok in H1 as [H1 ->]. apply dict_item_Ok in H1.
  apply bind_Ok in H as (el & st1 & H2 & H).
  apply read_Ok in H2 as [H2 ->].
  apply bind_Ok in H as (r & st1 & H3 & H).
  apply find_embedded_parent_spec in H3 as [-> H3].
  exists o, el. split; [assumption|]. split; [assumption|].
  destruct r as [np|].
  - right. destruct H3 as (t & pe & Ht & Hpe & Hin).
    assert (Hne : np <> o).
    { intros ->. assert (pe = el) by congruence. subst pe.
      rewrite inside_irrefl in Hin. discriminate. }
    apply bind_Ok in H as ([] & st1 & [= <-] & H).
    apply bind_Ok in H as (p & st1 & H4 & H).
    apply read_Ok in H4 as [H4 ->]. cbn [heap] in H4.
    rewrite list_lookup_insert_ne in H4 by (intros E; apply Hne; symmetry; exact E).
    assert (p = pe) by congruence. subst p.
    apply bind_Ok in H as ([] & st1 & H5 & H).
    apply del_item_spec in H as (Hh & Htop & Hsub & Hlose).
    assert (exists d, nested attribute pe = Some d /\
              st1 = mkState (this st)
                      (<[np := receive attribute pe (dict_set key o d)]>
                         (<[o := set_parent el (Elem np)]> (heap st)))) as (d & Hd & ->).
    { unfold nested, receive. case_bool_decide.
      - apply bind_Ok in H5 as (d & st2 & H6 & H5).
        apply getattr_Ok in H6 as [H6 ->]. injection H5 as <-. eauto.
      - apply bind_Ok in H5 as (d & st2 & H6 & H5).
        apply getattr_Ok in H6 as [H6 ->]. injection H5 as <-. eauto. }
    exists np, t, pe, d. simpl in *. repeat split; auto.
  - left. injection H as _ <-. split; [reflexivity|]. exact H3.
Qed.

Lemma same_span_refl (x : Element) : same_span x x.
Proof. split; reflexivity. Qed.

Lemma same_span_trans (x y z : Element) :
  same_span x y -> same_span y z -> same_span x z.
Proof. intros [H1 H2] [H3 H4]. split; congruence. Qed.

Lemma embed_rel_refl (attribute : string) (ks : list string) (st : State) :
  embed_rel attribute ks st st.
Proof.
  unfold embed_rel. repeat split; auto.
  intros o x Hx. exists x. repeat split; auto. intros d k o2 Hd Hk _. eauto.
Qed.

Lemma has_container_back (attribute : string) (ks : list string) (st st1 : State)
    (o : oid) :
  embed_rel attribute ks st st1 -> has_container st1 o -> has_container st o.
Proof.
  intros (Hlen & Hobj & Hsub & _) (t & p & pe1 & ve1 & Ht & Hp & Hv & Hin).
  assert (Hback : forall i x1, heap st1 !! i = Some x1 ->
            exists x, heap st !! i = Some x /\ same_span x x1).
  { intros i x1 Hi.
    destruct (lookup_lt_is_Some_2 (heap st) i) as [x Hx].
    { rewrite <- Hlen. eapply lookup_lt_Some, Hi. }
    destruct (Hobj i x Hx) as (x' & Hx' & Hspan & _).
    exists x. split; [assumption|]. congruence. }
  destruct (Hback p pe1 Hp) as (pe & Hpe & Hs1).
  destruct (Hback o ve1 Hv) as (ve & Hve & Hs2).
  exists t, p, pe, ve. repeat split; auto.
  rewrite <- Hin. symmetry. now apply inside_same_span.
Qed.


Lemma embed_rel_step (attribute key : string) (st : State) u st' :
  embed attribute key st = Ok (u, st') -> embed_rel attribute [key] st st'.
Proof.
  intros H. apply embed_inv in H as (o & el & Hkey & Hel & [[-> _]|H]).
  { apply embed_rel_refl. }
  destruct H as (np & t & pe & d & Ht & Hpe & Hin & Hne & Hd & Hheap & Htop & Hsub & Hlose).
  assert (Ho : (o < length (heap st))%nat) by (eapply lookup_lt_Some, Hel).
  assert (Hnp : (np < length (heap st))%nat) by (eapply lookup_lt_Some, Hpe).
  unfold embed_rel. rewrite Hheap, Htop, !length_insert.
  split; [reflexivity|]. split; [|repeat split].
  - intros i x Hx.
    destruct (decide (i = np)) as [->|Hi1].
    + assert (x = pe) by congruence. subst x.
      eexists. split; [apply list_lookup_insert_eq; now rewrite length_insert|].
      unfold receive, nested in *.
      case_bool_decide; (split; [split; reflexivity|]); (split; [reflexivity|]);
        intros d0 k o2 Hd0 Hget Hnot; rewrite Hd in Hd0; injection Hd0 as <-;
        eexists; (split; [reflexivity|]); rewrite dict_get_set;
        (destruct (decide (key = k)) as [->|];
           [exfalso; apply Hnot, list_elem_of_here | assumption]).
    + rewrite list_lookup_insert_ne by congruence.
      destruct (decide (i = o)) as [->|Hi2].
      * assert (x = el) by congruence. subst x.
        eexists. split; [now apply list_lookup_insert_eq|].
        split; [split; reflexivity|]. split.
        -- intros Hnot. exfalso. apply (Hnot key); [apply list_elem_of_here | assumption].
        -- intros d0 k o2 Hd0 Hget _. exists d0. split; [|assumption].
           unfold nested in *. case_bool_decide; assumption.
      * rewrite list_lookup_insert_ne by congruence.
        exists x. split; [assumption|]. split; [apply same_span_refl|].
        split; [reflexivity|]. intros d0 k o2 Hd0 Hget _. eauto.
  - assumption.
  - intros pr. apply dict_del_elem.
  - intros k v. rewrite dict_get_del. destruct (decide (key = k)); [discriminate | auto].
  - intros k Hnot. rewrite dict_get_del.
    destruct (decide (key = k)) as [->|]; [|reflexivity].
    exfalso. apply Hnot, list_elem_of_here.
  - intros t' o' Ht'. destruct (Hlose t' o' Ht') as [H|[Hget ->]]; [auto|].
    right. assert (o' = o) by congruence. subst o'.
    exists t, np, pe, el. auto.
Qed.



Lemma inside_spec (e c : Element) :
  inside e c = true <-> start c < start e /\ end_ e < end_ c.
Proof. unfold inside. rewrite andb_true_iff, Z.gtb_gt, Z.ltb_lt. lia. Qed.


Lemma top_level_NoDup (attribute : string) (st : State) :
  wf_state st = true ->
  NoDup (dict_keys (top_level attribute (this st))) /\
  NoDup (dict_values (top_level attribute (this st))).
Proof.
  intros Hwf. apply wf_state_spec in Hwf as (Hkt & Hkm & Hkx & Hvals & _).
  apply NoDup_app in Hvals as (Hvt & _ & Hvals).
  apply NoDup_app in Hvals as (Hvm & _ & Hvx).
  unfold top_level. repeat case_bool_decide; auto.
Qed.

Lemma top_has_elem (m : ModuleEl) (t : string) (o : oid) :
  top_has m t o -> (t, o) ∈ m_types m ++ m_executables m.
Proof.
  intros [H|H]; apply dict_get_elem in H; apply elem_of_app; auto.
Qed.


End Embedding.




(** *** The pass over the executables runs to its end *)

Section EmbeddingReturns.

Import Layout.

Lemma dict_key_get {V} (k : string) (d : dict V) :
  k ∈ dict_keys d -> exists v, dict_get k d = Some v.
Proof.
  induction d as [|[k0 v0] d IH]; simpl; intros H; [inversion H|].
  destruct (decide (k0 = k)); [eauto|].
  apply elem_of_cons in H as [->|H]; [congruence | auto].
Qed.

Lemma dict_del_values {V} (k : string) (d : dict V) (v : V) :
  v ∈ dict_values (dict_del k d) -> v ∈ dict_values d.
Proof.
  intros H. apply list_elem_of_fmap in H as (pr & -> & H).
  apply list_elem_of_fmap. exists pr. split; [reflexivity|].
  eapply dict_del_elem, H.
Qed.

Lemma first_container_returns (coll : dict oid) (el : Element) (st : State)
    (keys : list string) :
  (forall t, t ∈ keys -> exists o x, dict_get t coll = Some o /\ heap st !! o = Some x) ->
  exists r, first_container coll keys el st = Ok (r, st).
Proof.
  induction keys as [|t keys IH]; intros Hkeys; simpl; [eexists; reflexivity|].
  destruct (Hkeys t (list_elem_of_here _ _)) as (o & x & Hget & Hx).
  unfold bind, lift, dict_item, read. rewrite Hget, Hx.
  destruct (inside el x); [eexists; reflexivity|].
  apply IH. intros t' Ht'. apply Hkeys. now apply list_elem_of_further.
Qed.

Lemma find_embedded_parent_returns (el : Element) (st : State) :
  containers_ready st -> exists r, find_embedded_parent el st = Ok (r, st).
Proof.
  intros Hready. unfold find_embedded_parent, bind, get_module.
  assert (Hcoll : forall coll,
            (forall o, o ∈ dict_values coll ->
                       o ∈ dict_values (m_types (this st))
                           ++ dict_values (m_executables (this st))) ->
            exists r, first_container coll (dict_keys coll) el st = Ok (r, st)).
  { intros coll Hin. apply first_container_returns. intros t Ht.
    destruct (dict_key_get t coll Ht) as (o & Hget).
    destruct (Hready o) as (x & d & Hx & _).
    { apply Hin. eapply dict_get_values, Hget. }
    eauto. }
  destruct (Hcoll (m_types (this st))) as (r1 & ->).
  { intros o Ho. apply elem_of_app. auto. }
  destruct r1 as [o|]; [eexists; reflexivity|].
  apply Hcoll. intros o Ho. apply elem_of_app. auto.
Qed.

Lemma embed_executables_returns (k : string) (o : oid) (st : State) :
  containers_ready st ->
  dict_get k (m_executables (this st)) = Some o ->
  exists st', embed "executables" k st = Ok (tt, st') /\
              containers_ready st' /\
              forall k2, k2 <> k ->
                dict_get k2 (m_executables (this st'))
                = dict_get k2 (m_executables (this st)).
Proof.
  intros Hready Hget.
  destruct (Hready o) as (el & del & Hel & Hdel).
  { apply elem_of_app. right. eapply dict_get_values, Hget. }
  destruct (find_embedded_parent_returns el st Hready) as (r & Hr).
  pose proof (find_embedded_parent_spec el st r st Hr) as [_ Hspec].
  unfold embed, bind. simpl. unfold lift, dict_item, read.
  rewrite Hget, Hel, Hr.
  destruct r as [np|]; [|exists st; auto].
  destruct Hspec as (t & pe & Ht & Hpe & Hin).
  assert (Hne : o <> np).
  { intros ->. assert (pe = el) by congruence. subst pe.
    rewrite inside_irrefl in Hin. discriminate. }
  destruct (Hready np) as (pe' & d & Hpe' & Hd).
  { apply top_has_elem in Ht. apply elem_of_app in Ht as [Ht|Ht];
      apply elem_of_app; [left|right]; apply list_elem_of_fmap;
      exists (t, np); (split; [reflexivity | assumption]). }
  assert (pe' = pe) by congruence. subst pe'.
  simpl. rewrite list_lookup_insert_ne by assumption. rewrite Hpe. simpl.
  rewrite Hd. simpl.
  eexists. split; [reflexivity|]. split.
  - intros o2 Ho2. simpl in *.
    assert (Ho2' : o2 ∈ dict_values (m_types (this st))
                        ++ dict_values (m_executables (this st))).
    { apply elem_of_app in Ho2 as [Ho2|Ho2]; apply elem_of_app; [auto|].
      right. eapply dict_del_values, Ho2. }
    destruct (Hready o2 Ho2') as (x & dx & Hx & Hdx).
    destruct (decide (o2 = np)) as [->|Hn1].
    + eexists _, _. split.
      * apply list_lookup_insert_eq. rewrite length_insert.
        eapply lookup_lt_Some, Hpe.
      * reflexivity.
    + rewrite list_lookup_insert_ne by congruence.
      destruct (decide (o2 = o)) as [->|Hn2].
      * eexists _, _. split.
        -- apply list_lookup_insert_eq. eapply lookup_lt_Some, Hel.
        -- simpl. exact Hdel.
      * rewrite list_lookup_insert_ne by congruence. eauto.
  - intros k2 Hk2. simpl. rewrite dict_get_del.
    destruct (decide (k = k2)); [congruence | reflexivity].
Qed.

Lemma for_each_embed_returns (ks : list string) :
  NoDup ks ->
  forall st,
    containers_ready st ->
    (forall k, k ∈ ks -> exists o, dict_get k (m_executables (this st)) = Some o) ->
    exists st', for_each ks (embed "executables") st = Ok (tt, st').
Proof.
  induction 1 as [|k ks Hk Hnd IH]; intros st Hready Hkeys; simpl.
  - eexists. reflexivity.
  - destruct (Hkeys k (list_elem_of_here _ _)) as (o & Hget).
    destruct (embed_executables_returns k o st Hready Hget) as (st1 & H1 & Hr1 & Hsame).
    unfold bind. rewrite H1.
    apply IH; [assumption|].
    intros k2 Hk2. rewrite Hsame.
    + apply Hkeys. now apply list_elem_of_further.
    + intros ->. contradiction.
Qed.

(** On a well-formed module whose types and executables are ready,
    [update_embedded("executables")] returns. *)
Lemma update_embedded_executables_returns (st : State) :
  wf_state st = true -> containers_ready st ->
  exists st', update_embedded "executables" st = Ok (tt, st').
Proof.
  intros Hwf Hready. apply wf_state_spec in Hwf as (_ & _ & Hkx & _).
  unfold update_embedded, bind. simpl.
  apply for_each_embed_returns; [assumption..|].
  intros k. apply dict_key_get.
Qed.

End EmbeddingReturns.

(** * Further properties of the code *)

(** ** The update engine *)

Section UpdateEngine.

Import Layout.

Lemma charfix_zero (e : Element) : charfix e 0 = e.
Proof.
  destruct e as [s e ds de p t x]. unfold charfix. simpl.
  rewrite !Z.add_0_r. destruct ds, de; simpl; rewrite ?Z.add_0_r; reflexivity.
Qed.

Lemma update_char_check_Ok (e : Element) (target docdelta : Z) (st : State) b st' :
  _update_char_check e target docdelta st = Ok (b, st') ->
  st' = st /\ (b = true <-> must_shift target docdelta e).
Proof.
  unfold _update_char_check, must_shift.
  destruct (Z.eqb_spec docdelta 0) as [->|Hd]; simpl.
  - intros [= <- <-]. split; [reflexivity|].
    rewrite Z.gtb_gt. split; [auto|]. intros [[H _]|H]; [congruence | assumption].
  - intros H. apply bind_Ok in H as (ds & st1 & H1 & H).
    apply getattr_Ok in H1 as [Hds ->].
    destruct (Z.leb_spec ds target) as [Hle|Hgt].
    + apply bind_Ok in H as (de & st1 & H1 & H).
      apply getattr_Ok in H1 as [Hde ->].
      destruct (Z.geb_spec de (target - docdelta)) as [Hge|Hlt].
      * injection H as <- <-. split; [reflexivity|]. split; [|reflexivity].
        intros _. left. split; [assumption|]. exists ds, de. repeat split; auto; lia.
      * injection H as <- <-. split; [reflexivity|]. rewrite Z.gtb_gt.
        split; [auto|]. intros [(_ & ds' & de' & H1 & H2 & H3 & H4)|H]; [|assumption].
        assert (de' = de) by congruence. lia.
    + injection H as <- <-. split; [reflexivity|]. rewrite Z.gtb_gt.
      split; [auto|]. intros [(_ & ds' & de' & H1 & H2 & H3 & H4)|H]; [|assumption].
      assert (ds' = ds) by congruence. lia.
Qed.

(** One iteration of the loop over the types or over the executables. *)
Lemma shift_decorated_rule (coll : dict oid) (target charcount docdelta : Z)
    (key : string) (st : State) u st' :
  shift_decorated coll target charcount docdelta key st = Ok (u, st') ->
  exists o e e',
    dict_get key coll = Some o /\ heap st !! o = Some e /\
    st' = mkState (this st) (<[o := e']> (heap st)) /\
    ((must_shift target docdelta e /\ e' = charfix e charcount) \/
     (~ must_shift target docdelta e /\ e' = e)).
Proof.
  unfold shift_decorated. intros H.
  apply bind_Ok in H as (o & st1 & H1 & H).
  apply lift_Ok in H1 as [H1 ->]. apply dict_item_Ok in H1.
  apply bind_Ok in H as (e & st1 & H2 & H).
  apply read_Ok in H2 as [H2 ->].
  apply bind_Ok in H as (b & st1 & H3 & H).
  apply update_char_check_Ok in H3 as [-> Hb].
  exists o, e. destruct b.
  - unfold _element_charfix in H.
    apply bind_Ok in H as (e0 & st1 & H4 & H).
    apply read_Ok in H4 as [H4 ->].
    assert (e0 = e) by congruence. subst e0.
    apply bind_Ok in H as (ds & st1 & H5 & H).
    apply getattr_Ok in H5 as [H5 ->].
    apply bind_Ok in H as (de & st1 & H6 & H).
    apply getattr_Ok in H6 as [H6 ->].
    injection H as _ <-.
    eexists. split; [assumption|]. split; [assumption|]. split; [reflexivity|].
    left. split; [now apply Hb|].
    unfold charfix. rewrite H5, H6. reflexivity.
  - injection H as _ <-. exists e.
    split; [assumption|]. split; [assumption|].
    split; [now apply state_insert_same|]. right. split; [|reflexivity].
    intros Hm. apply Hb in Hm. discriminate.
Qed.

(** One iteration of the loop over the members. *)
Lemma shift_member_rule (coll : dict oid) (target charcount : Z) (key : string)
    (st : State) u st' :
  shift_member coll target charcount key st = Ok (u, st') ->
  exists o e e',
    dict_get key coll = Some o /\ heap st !! o = Some e /\
    st' = mkState (this st) (<[o := e']> (heap st)) /\
    (start e > target ->
     e' = mkElement (start e + charcount) (end_ e + charcount) (docstart e) (docend e)
            (parent e) (types e) (executables e)) /\
    (start e <= target -> e' = e).
Proof.
  unfold shift_member. intros H.
  apply bind_Ok in H as (o & st1 & H1 & H).
  apply lift_Ok in H1 as [H1 ->]. apply dict_item_Ok in H1.
  apply bind_Ok in H as (e & st1 & H2 & H).
  apply read_Ok in H2 as [H2 ->].
  exists o, e. destruct (Z.gtb_spec (start e) target).
  - injection H as _ <-. eexists.
    split; [assumption|]. split; [assumption|]. split; [reflexivity|].
    split; [reflexivity | lia].
  - injection H as _ <-. exists e.
    split; [assumption|]. split; [assumption|].
    split; [now apply state_insert_same|]. split; [lia | reflexivity].
Qed.

(** A loop whose body writes only the object found under its key leaves the
    module and every object outside the dictionary as they are. *)
Lemma for_each_touch (coll : dict oid) (body : string -> M unit) (keys : list string) :
  (forall key st u st', body key st = Ok (u, st') ->
     exists o e', dict_get key coll = Some o /\
                  st' = mkState (this st) (<[o := e']> (heap st))) ->
  forall st u st', for_each keys body st = Ok (u, st') ->
    this st' = this st /\
    forall o, o ∉ dict_values coll -> heap st' !! o = heap st !! o.
Proof.
  intros Hbody. induction keys as [|k keys IH]; intros st u st' H; simpl in H.
  - injection H as _ <-. auto.
  - apply bind_Ok in H as (u1 & st1 & H1 & H).
    apply Hbody in H1 as (o & e' & Hget & ->).
    apply IH in H as [Hm Hf]. simpl in *. split; [assumption|].
    intros o' Ho'. rewrite (Hf o' Ho'). apply list_lookup_insert_ne.
    intros ->. apply Ho'. eapply dict_get_values, Hget.
Qed.

(** A loop whose body leaves the state as it is leaves the state as it is. *)
Lemma for_each_same (body : string -> M unit) (keys : list string) :
  (forall key st u st', body key st = Ok (u, st') -> st' = st) ->
  forall st u st', for_each keys body st = Ok (u, st') -> st' = st.
Proof.
  intros Hbody. induction keys as [|k keys IH]; intros st u st' H; simpl in H.
  - now injection H as _ <-.
  - apply bind_Ok in H as (u1 & st1 & H1 & H).
    apply Hbody in H1 as ->. now apply IH in H.
Qed.

Lemma shift_decorated_zero (coll : dict oid) (target docdelta : Z) (key : string)
    (st : State) u st' :
  shift_decorated coll target 0 docdelta key st = Ok (u, st') -> st' = st.
Proof.
  intros H.
  apply shift_decorated_rule in H as (o & e & e' & _ & He & -> & [[_ ->]|[_ ->]]);
    rewrite ?charfix_zero; symmetry; now apply state_insert_same.
Qed.

Lemma shift_member_zero (coll : dict oid) (target : Z) (key : string)
    (st : State) u st' :
  shift_member coll target 0 key st = Ok (u, st') -> st' = st.
Proof.
  intros H. apply shift_member_rule in H as (o & e & e' & _ & He & -> & H1 & H2).
  assert (e' = e) as ->.
  { destruct (Z.le_gt_cases (start e) target) as [Hle|Hgt]; [auto|].
    rewrite H1 by lia. destruct e. simpl. now rewrite !Z.add_0_r. }
  symmetry. now apply state_insert_same.
Qed.

Lemma contains_index_cached (st : State) ci st1 :
  contains_index st = Ok (ci, st1) -> _contains_index (this st1) = Some ci.
Proof.
  unfold contains_index. intros H.
  apply bind_Ok in H as (m & st0 & [= <- <-] & H).
  destruct (_contains_index (this st)) as [c0|] eqn:E.
  - injection H as <- <-. assumption.
  - apply bind_Ok in H as (max_t & st2 & H2 & H).
    apply bind_Ok in H as (r & st3 & H3 & H).
    destruct r as [start_ b|n]; [|discriminate].
    apply bind_Ok in H as (m1 & st4 & [= <- <-] & H).
    apply bind_Ok in H as (found & st5 & H5 & H).
    apply bind_Ok in H as (u & st6 & [= _ <-] & [= <- <-]).
    reflexivity.
Qed.

Lemma shift_decorated_touch (coll : dict oid) (target charcount docdelta : Z) :
  forall key st u st',
    shift_decorated coll target charcount docdelta key st = Ok (u, st') ->
    exists o e', dict_get key coll = Some o /\
                 st' = mkState (this st) (<[o := e']> (heap st)).
Proof.
  intros key st u st' H.
  apply shift_decorated_rule in H as (o & e & e' & H1 & _ & H2 & _). eauto.
Qed.

Lemma shift_member_touch (coll : dict oid) (target charcount : Z) :
  forall key st u st',
    shift_member coll target charcount key st = Ok (u, st') ->
    exists o e', dict_get key coll = Some o /\
                 st' = mkState (this st) (<[o := e']> (heap st)).
Proof.
  intros key st u st' H.
  apply shift_member_rule in H as (o & e & e' & H1 & _ & H2 & _). eauto.
Qed.

End UpdateEngine.

(** X1. An edit of length zero moves nothing: when
    [update_elements(line, column, 0, docdelta)] returns, every object and
    every top-level dictionary is as before, whatever [docdelta] is. *)
Theorem update_elements_zero_charcount (st st' : Layout.State) (line column docdelta : Z) :
  Layout.update_elements line column 0 docdelta st = Ok (tt, st') ->
  Layout.same_elements st st'.
Proof.
  unfold Layout.update_elements. intros H.
  apply bind_Ok in H as (c & st1 & Hc & H).
  apply bind_Ok in H as (ci & st2 & Hci & H).
  apply bind_Ok in H as (m & st2' & [= <- <-] & H).
  pose proof (same_elements_trans _ _ _ (charindex_frame _ _ _ _ _ Hc)
                (contains_index_frame _ _ _ Hci)) as Hsame.
  eapply same_elements_trans; [exact Hsame|].
  destruct (line <? ci).
  - apply bind_Ok in H as (u1 & st3 & H3 & H).
    apply bind_Ok in H as (u2 & st4 & H4 & H).
    apply bind_Ok in H as (m' & st5 & [= <- <-] & [= <-]).
    apply for_each_same in H3; [|intros ? ? ? ?; apply shift_decorated_zero].
    apply for_each_same in H4; [|intros ? ? ? ?; apply shift_member_zero].
    subst. repeat split.
  - apply for_each_same in H; [|intros ? ? ? ?; apply shift_decorated_zero].
    subst. apply same_elements_refl.
Qed.

Lemma update_elements_zero_charcount_witness :
  Layout.same_elements Layout.ex_state
    (Layout.state_after (Layout.update_elements 6 0 0 5) Layout.ex_state).
Proof.
  apply (update_elements_zero_charcount _ _ 6 0 5). vm_compute. reflexivity.
Defined.

(** X2. An edit moves only the objects of its own section: when
    [update_elements] returns, the three top-level dictionaries are as
    before, and so is every object that is not a type or member (edit before
    the boundary line [ci]), or not an executable (edit at or after it). *)
Theorem update_elements_frame (st st' : Layout.State)
    (line column charcount docdelta : Z) :
  Layout.update_elements line column charcount docdelta st = Ok (tt, st') ->
  exists (c ci : Z) (st1 st2 : Layout.State),
    Layout.charindex line column st = Ok (c, st1) /\
    Layout.contains_index st1 = Ok (ci, st2) /\
    Layout.m_types (Layout.this st') = Layout.m_types (Layout.this st) /\
    Layout.m_members (Layout.this st') = Layout.m_members (Layout.this st) /\
    Layout.m_executables (Layout.this st') = Layout.m_executables (Layout.this st) /\
    forall o : Layout.oid,
      o ∉ Layout.affected_objects (Layout.this st) line ci ->
      Layout.heap st' !! o = Layout.heap st !! o.
Proof.
  unfold Layout.update_elements, Layout.affected_objects. intros H.
  apply bind_Ok in H as (c & st1 & Hc & H).
  apply bind_Ok in H as (ci & st2 & Hci & H).
  apply bind_Ok in H as (m & st2' & [= <- <-] & H).
  exists c, ci, st1, st2. split; [assumption|]. split; [assumption|].
  pose proof (same_elements_trans _ _ _ (charindex_frame _ _ _ _ _ Hc)
                (contains_index_frame _ _ _ Hci)) as (Hh & Ht & Hm & Hx).
  destruct (line <? ci).
  - apply bind_Ok in H as (u1 & st3 & H3 & H).
    apply bind_Ok in H as (u2 & st4 & H4 & H).
    apply bind_Ok in H as (m' & st5 & [= <- <-] & [= <-]). simpl.
    eapply for_each_touch in H3 as [Hm3 Hf3]; [|apply shift_decorated_touch].
    eapply for_each_touch in H4 as [Hm4 Hf4]; [|apply shift_member_touch].
    rewrite Hm4, Hm3. repeat split; try assumption.
    intros o Ho. rewrite not_elem_of_app in Ho. destruct Ho as [Ho1 Ho2].
    rewrite Hf4, Hf3, Hh by (rewrite ?Hm, ?Ht; assumption). reflexivity.
  - eapply for_each_touch in H as [Hm3 Hf3]; [|apply shift_decorated_touch].
    rewrite Hm3. repeat split; try assumption.
    intros o Ho. rewrite Hf3, Hh by (rewrite Hx; assumption). reflexivity.
Qed.

Lemma update_elements_frame_witness :
  let st' := Layout.state_after (Layout.update_elements 2 0 3 0) Layout.ex_state in
  exists (c ci : Z) (st1 st2 : Layout.State),
    Layout.charindex 2 0 Layout.ex_state = Ok (c, st1) /\
    Layout.contains_index st1 = Ok (ci, st2) /\
    Layout.m_types (Layout.this st') = Layout.m_types (Layout.this Layout.ex_state) /\
    Layout.m_members (Layout.this st') = Layout.m_members (Layout.this Layout.ex_state) /\
    Layout.m_executables (Layout.this st')
    = Layout.m_executables (Layout.this Layout.ex_state) /\
    forall o : Layout.oid,
      o ∉ Layout.affected_objects (Layout.this Layout.ex_state) 2 ci ->
      Layout.heap st' !! o = Layout.heap Layout.ex_state !! o.
Proof.
  intros st'. apply (update_elements_frame _ st' 2 0 3 0). vm_compute. reflexivity.
Defined.

(** X3. The boundary cache after an edit: when [update_elements] returns, the
    cached boundary line is discarded if the edit lies before the boundary
    line [ci], and is [ci] otherwise. *)
Theorem update_elements_boundary_cache (st st' : Layout.State)
    (line column charcount docdelta : Z) :
  Layout.update_elements line column charcount docdelta st = Ok (tt, st') ->
  exists (c ci : Z) (st1 st2 : Layout.State),
    Layout.charindex line column st = Ok (c, st1) /\
    Layout.contains_index st1 = Ok (ci, st2) /\
    Layout._contains_index (Layout.this st')
    = if line <? ci then None else Some ci.
Proof.
  unfold Layout.update_elements. intros H.
  apply bind_Ok in H as (c & st1 & Hc & H).
  apply bind_Ok in H as (ci & st2 & Hci & H).
  apply bind_Ok in H as (m & st2' & [= <- <-] & H).
  exists c, ci, st1, st2. split; [assumption|]. split; [assumption|].
  destruct (line <? ci).
  - apply bind_Ok in H as (u1 & st3 & H3 & H).
    apply bind_Ok in H as (u2 & st4 & H4 & H).
    apply bind_Ok in H as (m' & st5 & [= <- <-] & [= <-]). reflexivity.
  - eapply for_each_touch in H as [Hm3 _]; [|apply shift_decorated_touch].
    rewrite Hm3. eapply contains_index_cached, Hci.
Qed.

Lemma update_elements_boundary_cache_witness :
  let st' := Layout.state_after (Layout.update_elements 6 0 3 0) Layout.ex_state in
  exists (c ci : Z) (st1 st2 : Layout.State),
    Layout.charindex 6 0 Layout.ex_state = Ok (c, st1) /\
    Layout.contains_index st1 = Ok (ci, st2) /\
    Layout._contains_index (Layout.this st') = if 6 <? ci then None else Some ci.
Proof.
  intros st'. apply (update_elements_boundary_cache _ st' 6 0 3 0).
  vm_compute. reflexivity.
Defined.

(** X4. The rule with [docdelta]: when [update_elements] returns on a
    well-formed module, a type (edit before the boundary) or an executable
    (edit at or after it) has its four offsets [start], [end], [docstart],
    [docend] moved by [charcount] exactly when its docstring overlaps the
    edit ([docdelta] not zero, [docstart <= target] and
    [docend >= target - docdelta]) or its effective start is after the
    target, and is unchanged otherwise; a member is moved exactly when its
    [start] is after the target, whatever [docdelta] is. *)
Theorem update_elements_docdelta_rule (st st' : Layout.State)
    (line column charcount docdelta : Z) :
  Layout.wf_state st = true ->
  Layout.update_elements line column charcount docdelta st = Ok (tt, st') ->
  exists (c ci : Z) (st1 st2 : Layout.State),
    Layout.charindex line column st = Ok (c, st1) /\
    Layout.contains_index st1 = Ok (ci, st2) /\
    let target := c + charcount in
    (forall (k : string) (o : Layout.oid) (e : Layout.Element),
       (k, o) ∈ (if line <? ci then Layout.m_types (Layout.this st)
                 else Layout.m_executables (Layout.this st)) ->
       Layout.heap st !! o = Some e ->
       exists e', Layout.heap st' !! o = Some e' /\
         ((Layout.must_shift target docdelta e /\ e' = Layout.charfix e charcount) \/
          (~ Layout.must_shift target docdelta e /\ e' = e))) /\
    (line < ci ->
     forall (k : string) (o : Layout.oid) (e : Layout.Element),
       (k, o) ∈ Layout.m_members (Layout.this st) ->
       Layout.heap st !! o = Some e ->
       exists e', Layout.heap st' !! o = Some e' /\
         ((Layout.start e > target /\
           Layout.start e' = Layout.start e + charcount /\
           Layout.end_ e' = Layout.end_ e + charcount) \/
          (Layout.start e <= target /\ e' = e))).
Proof.
  intros Hwf H.
  apply wf_state_spec in Hwf as (Hkt & Hkm & Hkx & Hvals & Hmem).
  unfold Layout.update_elements in H.
  apply bind_Ok in H as (c & st1 & Hc & H).
  apply bind_Ok in H as (ci & st2 & Hci & H).
  apply bind_Ok in H as (m & st2' & [= <- <-] & H).
  exists c, ci, st1, st2. split; [assumption|]. split; [assumption|].
  pose proof (same_elements_trans _ _ _ (charindex_frame _ _ _ _ _ Hc)
                (contains_index_frame _ _ _ Hci)) as (Hh & Ht & Hm & Hx).
  apply NoDup_app in Hvals as (Hvt & Htm & Hvals).
  apply NoDup_app in Hvals as (Hvm & Hmx & Hvx).
  intros target. destruct (Z.ltb_spec line ci) as [Hlt|Hge].
  - apply bind_Ok in H as (u1 & st3 & H3 & H).
    apply bind_Ok in H as (u2 & st4 & H4 & H).
    apply bind_Ok in H as (m' & st5 & [= <- <-] & [= <-]). simpl.
    eapply for_each_local with (pairs := Layout.m_types (Layout.this st2)) in H3
      as (Hm3 & Hf3 & Hall3);
      [|apply shift_decorated_rule
       |intros; apply dict_get_NoDup; [rewrite Ht|]; assumption
       |rewrite Ht; exact Hvt].
    eapply for_each_local with
      (pairs := Layout.m_members (Layout.this st2))
      (P := fun e e' =>
              (Layout.start e > target ->
               e' = Layout.mkElement (Layout.start e + charcount)
                      (Layout.end_ e + charcount) (Layout.docstart e) (Layout.docend e)
                      (Layout.parent e) (Layout.types e) (Layout.executables e)) /\
              (Layout.start e <= target -> e' = e)) in H4
      as (Hm4 & Hf4 & Hall4);
      [|apply shift_member_rule
       |intros; apply dict_get_NoDup; [rewrite Hm|]; assumption
       |rewrite Hm; exact Hvm].
    split.
    + intros k o e Hin He.
      destruct (Hall3 k o e) as (e' & He' & HP); [rewrite Ht; assumption|congruence|].
      exists e'. split; [|assumption].
      rewrite Hf4; [assumption|]. rewrite Hm.
      intros Hom. apply (Htm o); [|apply elem_of_app; left; exact Hom].
      apply list_elem_of_fmap. exists (k, o). auto.
    + intros _ k o e Hin He.
      assert (Hov : o ∈ dict_values (Layout.m_members (Layout.this st))).
      { apply list_elem_of_fmap. exists (k, o). auto. }
      destruct (Hall4 k o e) as (e' & He' & HP1 & HP2); [rewrite Hm; assumption| |].
      { rewrite Hf3; [congruence|]. rewrite Ht. intros Hot.
        apply (Htm o Hot), elem_of_app. left. exact Hov. }
      exists e'. split; [assumption|].
      destruct (Z.le_gt_cases (Layout.start e) target) as [Hle|Hgt].
      * right. auto.
      * left. rewrite HP1 by lia. simpl. repeat split; lia.
  - split; [|lia].
    eapply for_each_local with (pairs := Layout.m_executables (Layout.this st2)) in H
      as (Hm3 & Hf3 & Hall3);
      [|apply shift_decorated_rule
       |intros; apply dict_get_NoDup; [rewrite Hx|]; assumption
       |rewrite Hx; exact Hvx].
    intros k o e Hin He.
    destruct (Hall3 k o e) as (e' & He' & HP); [rewrite Hx; assumption|congruence|].
    eauto.
Qed.

Lemma update_elements_docdelta_rule_witness :
  let st := Layout.ex_documented in
  let st' := Layout.state_after (Layout.update_elements 2 5 2 2) st in
  exists (c ci : Z) (st1 st2 : Layout.State),
    Layout.charindex 2 5 st = Ok (c, st1) /\
    Layout.contains_index st1 = Ok (ci, st2) /\
    let target := c + 2 in
    (forall (k : string) (o : Layout.oid) (e : Layout.Element),
       (k, o) ∈ (if 2 <? ci then Layout.m_types (Layout.this st)
                 else Layout.m_executables (Layout.this st)) ->
       Layout.heap st !! o = Some e ->
       exists e', Layout.heap st' !! o = Some e' /\
         ((Layout.must_shift target 2 e /\ e' = Layout.charfix e 2) \/
          (~ Layout.must_shift target 2 e /\ e' = e))) /\
    (2 < ci ->
     forall (k : string) (o : Layout.oid) (e : Layout.Element),
       (k, o) ∈ Layout.m_members (Layout.this st) ->
       Layout.heap st !! o = Some e ->
       exists e', Layout.heap st' !! o = Some e' /\
         ((Layout.start e > target /\
           Layout.start e' = Layout.start e + 2 /\
           Layout.end_ e' = Layout.end_ e + 2) \/
          (Layout.start e <= target /\ e' = e))).
Proof.
  intros st st'. apply (update_elements_docdelta_rule st st' 2 5 2 2).
  - reflexivity.
  - vm_compute. reflexivity.
Defined.

(** ** The line index and the boundary *)

Section LineIndexMore.

Import Layout.

Lemma running_length (t : Z) (l : list Z) : length (running t l) = length l.
Proof. revert t. induction l as [|x l IH]; intros t; simpl; [|rewrite IH]; reflexivity. Qed.

Lemma dec_last_length (l : list Z) : length (dec_last l) = length l.
Proof.
  induction l as [|x l IH]; [reflexivity|].
  destruct l as [|y l]; [reflexivity|]. simpl in *. now rewrite IH.
Qed.

Lemma running_lookup (l : list Z) (t : Z) (i : nat) :
  (i < length l)%nat -> running t l !! i = Some (t + total (take (S i) l)).
Proof.
  revert t i. induction l as [|x l IH]; intros t i Hi; simpl in Hi; [lia|].
  destruct i as [|i]; simpl.
  - f_equal. unfold total. simpl. lia.
  - rewrite IH by lia. f_equal. unfold total. simpl. lia.
Qed.

Lemma total_take_le (l : list Z) (i j : nat) :
  Forall (fun x => 0 <= x) l -> (i <= j)%nat -> total (take i l) <= total (take j l).
Proof.
  intros Hl. revert i j. induction Hl as [|x l Hx Hl IH]; intros i j Hij.
  - rewrite !take_nil. lia.
  - destruct i as [|i], j as [|j]; unfold total in *; simpl; try lia.
    + specialize (IH 0%nat j ltac:(lia)). simpl in IH. lia.
    + specialize (IH i j ltac:(lia)). lia.
Qed.

Lemma total_take_lt (l : list Z) (i j : nat) (x : Z) :
  Forall (fun x => 0 <= x) l -> (i <= j)%nat -> l !! j = Some x -> 1 <= x ->
  total (take i l) < total (take (S j) l).
Proof.
  intros Hl Hij Hj Hx.
  rewrite (take_S_r l j x Hj).
  unfold total. rewrite foldr_app. simpl.
  assert (Hsum : forall (a : Z) (k : list Z), foldr Z.add a k = a + foldr Z.add 0 k).
  { intros a k. induction k as [|y k IHk]; simpl; lia. }
  rewrite (Hsum (x + 0)). pose proof (total_take_le l i j Hl Hij). unfold total in *. lia.
Qed.

Lemma total_cons (x : Z) (l : list Z) : total (x :: l) = x + total l.
Proof. reflexivity. Qed.

Lemma total_snoc (l : list Z) (x : Z) : total (l ++ [x]) = total l + x.
Proof.
  induction l as [|y l IH]; [unfold total; simpl; lia|].
  rewrite <- app_comm_cons, !total_cons, IH. lia.
Qed.

Lemma dec_last_snoc (l : list Z) (x : Z) : dec_last (l ++ [x]) = l ++ [x - 1].
Proof.
  induction l as [|y l IH]; [reflexivity|].
  rewrite <- !app_comm_cons, <- IH.
  destruct (l ++ [x]) eqn:E; [|reflexivity].
  destruct l; discriminate.
Qed.

Lemma dec_last_lookup (l : list Z) (i : nat) :
  dec_last l !! i
  = (fun x => if bool_decide (S i = length l) then x - 1 else x) <$> l !! i.
Proof.
  destruct l as [|x l _] using rev_ind; [reflexivity|].
  rewrite dec_last_snoc, length_app. simpl.
  destruct (Nat.lt_trichotomy i (length l)) as [Hlt|[->|Hgt]].
  - rewrite !lookup_app_l by assumption.
    destruct (l !! i); simpl; [|reflexivity].
    rewrite bool_decide_eq_false_2 by lia. reflexivity.
  - rewrite !list_lookup_middle by reflexivity. simpl.
    rewrite bool_decide_eq_true_2 by lia. reflexivity.
  - rewrite !lookup_ge_None_2; [reflexivity| |]; rewrite length_app; simpl; lia.
Qed.

Lemma dec_last_total (l : list Z) : l <> [] -> total (dec_last l) = total l - 1.
Proof.
  induction l as [|x l IH]; [congruence|]. intros _.
  destruct l as [|y l]; [unfold total; simpl; lia|].
  change (dec_last (x :: y :: l)) with (x :: dec_last (y :: l)).
  rewrite (total_cons x), IH by discriminate. rewrite (total_cons x). lia.
Qed.

Lemma slen_String (a : ascii) (s : string) : slen (String a s) = slen s + 1.
Proof. unfold slen. simpl. lia. Qed.

Lemma split_total (c : ascii) (s : string) :
  total (map (fun x => slen x + 1) (split c s)) = slen s + 1.
Proof.
  unfold total. induction s as [|a s IH]; [reflexivity|]. simpl.
  destruct (decide (a = c)).
  - simpl. rewrite IH, slen_String. unfold slen. simpl. lia.
  - destruct (split c s) as [|h t] eqn:E.
    + exfalso. eapply split_nonempty, E.
    + simpl in *. rewrite !slen_String. lia.
Qed.

(** Splitting a text at its line breaks and joining the lines again gives the
    text back. *)
Lemma join_split (c : ascii) (s : string) :
  join (String c EmptyString) (split c s) = s.
Proof.
  induction s as [|a s IH]; [reflexivity|]. simpl.
  destruct (decide (a = c)) as [->|Hne].
  - destruct (split c s) as [|h t] eqn:E; [exfalso; eapply split_nonempty, E|].
    simpl in *. now rewrite IH.
  - destruct (split c s) as [|h t] eqn:E; [exfalso; eapply split_nonempty, E|].
    destruct t as [|h' t]; simpl in *; now rewrite <- IH.
Qed.

Lemma contributions_nonneg (lines : list string) :
  Forall (fun x => 0 <= x) (contributions lines).
Proof.
  apply Forall_lookup. intros i x Hx. unfold contributions in Hx.
  rewrite dec_last_lookup, list_lookup_fmap in Hx.
  destruct (lines !! i) as [line|]; [|discriminate]. simpl in Hx.
  injection Hx as <-. unfold slen. case_bool_decide; lia.
Qed.

Lemma contributions_lookup (lines : list string) (i : nat) (line : string) :
  lines !! i = Some line ->
  contributions lines !! i
  = Some (slen line + if bool_decide (S i = length lines) then 0 else 1).
Proof.
  intros Hl. unfold contributions.
  rewrite dec_last_lookup, list_lookup_fmap, Hl, length_map. simpl.
  case_bool_decide; f_equal; lia.
Qed.

Lemma contributions_length (lines : list string) :
  length (contributions lines) = length lines.
Proof. unfold contributions. now rewrite dec_last_length, length_map. Qed.

Lemma index_text_fresh (m : ModuleEl) :
  _lines m = [] -> refstring m <> "" ->
  index_text m
  = mkModule (refstring m) (split newline (refstring m))
      (running 0 (contributions (split newline (refstring m))))
      (_contains_index m) (m_types m) (m_members m) (m_executables m).
Proof.
  intros Hl Hr. unfold index_text. rewrite Hl. simpl.
  rewrite bool_decide_eq_false_2 by assumption. reflexivity.
Qed.

Lemma index_text_indexed (m : ModuleEl) : _lines m <> [] -> index_text m = m.
Proof.
  intros Hl. unfold index_text.
  destruct (len (_lines m) =? 0) eqn:E; [|reflexivity].
  apply len_nil_iff in E. contradiction.
Qed.

(** The entries of the index of a list of lines. *)
Lemma chars_lookup (lines : list string) (i : nat) :
  (i < length lines)%nat ->
  running 0 (contributions lines) !! i
  = Some (total (take (S i) (contributions lines))).
Proof.
  intros Hi. rewrite running_lookup by now rewrite contributions_length.
  reflexivity.
Qed.

Lemma chars_step (lines : list string) (i : nat) (line : string) :
  lines !! i = Some line ->
  total (take (S i) (contributions lines))
  = total (take i (contributions lines))
    + slen line + if bool_decide (S i = length lines) then 0 else 1.
Proof.
  intros Hl. rewrite (take_S_r _ _ _ (contributions_lookup lines i line Hl)).
  rewrite total_snoc. lia.
Qed.

Lemma find_line_at (index : Z) (chars : list Z) (k : Z) (i : nat) (c : Z) :
  chars !! i = Some c -> index <= c ->
  (forall j c', (j < i)%nat -> chars !! j = Some c' -> c' < index) ->
  find_line index chars k = LList (k + Z.of_nat i) (c - index).
Proof.
  revert k i. induction chars as [|x chars IH]; intros k i Hi Hc Hfirst; [discriminate|].
  simpl. destruct i as [|i]; simpl in Hi.
  - injection Hi as ->. destruct (Z.leb_spec index c); [|lia].
    f_equal. lia.
  - specialize (Hfirst 0%nat x ltac:(lia) eq_refl) as Hx.
    destruct (Z.leb_spec index x); [lia|].
    rewrite (IH (k + 1) i Hi Hc).
    + f_equal. lia.
    + intros j c' Hj Hl. apply (Hfirst (S j) c'); [lia | exact Hl].
Qed.

Lemma find_line_beyond (index : Z) (chars : list Z) (k : Z) :
  Forall (fun c => c < index) chars -> find_line index chars k = LInt (-1).
Proof.
  intros Hall. revert k. induction Hall as [|x chars Hx Hall IH]; intros k; [reflexivity|].
  simpl. destruct (Z.leb_spec index x); [lia | apply IH].
Qed.

Lemma find_line_int (index : Z) (chars : list Z) (k n : Z) :
  find_line index chars k = LInt n -> n = -1 /\ Forall (fun c => c < index) chars.
Proof.
  revert k. induction chars as [|x chars IH]; intros k; simpl.
  - intros [= <-]. split; [reflexivity | constructor].
  - destruct (Z.leb_spec index x); [discriminate|].
    intros Hf. apply IH in Hf as [-> Hf]. split; [reflexivity|]. constructor; [lia | assumption].
Qed.

(** [charindex], in one step: the line index is the one [linenum] builds. *)
Lemma charindex_eq (line column : Z) (st : State) :
  charindex line column st
  = let st1 := mkState (index_text (this st)) (heap st) in
    match py_index (_chars (this st1)) (line - 1) with
    | Ok a => Ok (a + column, st1)
    | Raise e => Raise e
    end.
Proof.
  unfold charindex, bind, get_module, lift, ret. simpl.
  destruct (len (_lines (this st)) =? 0) eqn:E.
  - rewrite linenum_eq. simpl.
    destruct (py_index _ _); reflexivity.
  - assert (Hl : _lines (this st) <> []).
    { intros Hl. rewrite Hl in E. discriminate. }
    rewrite (index_text_indexed _ Hl). destruct st as [m h]. simpl.
    destruct (py_index _ _); reflexivity.
Qed.

Lemma chars_last (s : string) :
  last (running 0 (contributions (split newline s))) = Some (slen s).
Proof.
  set (lines := split newline s).
  assert (Hne : lines <> []) by apply split_nonempty.
  assert (Hlen : (0 < length lines)%nat) by (destruct lines; [congruence | simpl; lia]).
  rewrite last_lookup, running_length, contributions_length.
  rewrite chars_lookup by lia.
  f_equal. rewrite take_ge by (rewrite contributions_length; lia).
  unfold contributions. rewrite dec_last_total.
  - unfold lines. rewrite split_total. lia.
  - destruct lines; [congruence | discriminate].
Qed.

Lemma chars_mono (lines : list string) (i j : nat) (x y : Z) :
  (i <= j)%nat ->
  running 0 (contributions lines) !! i = Some x ->
  running 0 (contributions lines) !! j = Some y ->
  x <= y.
Proof.
  intros Hij Hi Hj.
  assert (Hj' : (j < length lines)%nat).
  { apply lookup_lt_Some in Hj. now rewrite running_length, contributions_length in Hj. }
  rewrite chars_lookup in Hi, Hj by lia.
  injection Hi as <-. injection Hj as <-.
  apply total_take_le; [apply contributions_nonneg | lia].
Qed.

Lemma chars_strict (lines : list string) (i j : nat) (x y : Z) :
  (i < j)%nat -> (S j < length lines)%nat ->
  running 0 (contributions lines) !! i = Some x ->
  running 0 (contributions lines) !! j = Some y ->
  x < y.
Proof.
  intros Hij Hj' Hi Hj.
  rewrite chars_lookup in Hi, Hj by lia.
  injection Hi as <-. injection Hj as <-.
  destruct (lookup_lt_is_Some_2 lines j ltac:(lia)) as [line Hline].
  eapply total_take_lt; [apply contributions_nonneg | lia | |].
  - apply (contributions_lookup lines j line Hline).
  - rewrite bool_decide_eq_false_2 by lia. unfold slen. lia.
Qed.

Lemma py_index_bounds {A} (l : list A) (i : Z) :
  (- len l <= i < len l -> exists x, py_index l i = Ok x) /\
  (i < - len l \/ len l <= i -> py_index l i = Raise IndexError).
Proof.
  unfold py_index, len. split.
  - intros Hi. destruct (Z.ltb_spec i 0).
    + destruct (Z.ltb_spec (i + Z.of_nat (length l)) 0); [lia|].
      destruct (lookup_lt_is_Some_2 l (Z.to_nat (i + Z.of_nat (length l)))) as [x ->];
        [lia | eauto].
    + destruct (Z.ltb_spec i 0); [lia|].
      destruct (lookup_lt_is_Some_2 l (Z.to_nat i)) as [x ->]; [lia | eauto].
  - intros Hi. destruct (Z.ltb_spec i 0).
    + destruct (Z.ltb_spec (i + Z.of_nat (length l)) 0); [reflexivity | lia].
    + destruct (Z.ltb_spec i 0); [lia|].
      rewrite lookup_ge_None_2 by lia. reflexivity.
Qed.

End LineIndexMore.

(** X5. [linenum] never raises.  Its result is the bare integer [-1], not a
    pair, exactly when there is a line index and the offset lies beyond the
    cumulative end offset of every line. *)
Theorem linenum_beyond_text (st : Layout.State) (index : Z) :
  let m' := Layout.index_text (Layout.this st) in
  exists r,
    Layout.linenum index st = Ok (r, Layout.mkState m' (Layout.heap st)) /\
    (forall n, r = Layout.LInt n ->
       n = -1 /\ Layout._lines m' <> [] /\
       Forall (fun c => c < index) (Layout._chars m')) /\
    (Layout._lines m' <> [] -> Forall (fun c => c < index) (Layout._chars m') ->
     r = Layout.LInt (-1)).
Proof.
  intros m'. rewrite linenum_eq. fold m'. eexists. split; [reflexivity|].
  destruct (Layout._lines m') as [|l ls] eqn:E; simpl.
  - split; [discriminate | congruence].
  - split.
    + intros n H. apply find_line_int in H as [-> H]. repeat split; auto.
    + intros _ H. now apply find_line_beyond.
Qed.

Lemma linenum_beyond_text_witness :
  exists r,
    Layout.linenum 6 Layout.ex_two_lines
    = Ok (r, Layout.mkState (Layout.index_text (Layout.this Layout.ex_two_lines)) []) /\
    r = Layout.LInt (-1).
Proof.
  destruct (linenum_beyond_text Layout.ex_two_lines 6) as (r & Hr & _ & Hint).
  exists r. split; [exact Hr|]. apply Hint.
  - discriminate.
  - repeat constructor.
Defined.

(** X6. The line index covers the text.  When [linenum] builds the index of
    a text that is not empty: joining the lines with line breaks gives the
    text back; there is one cumulative offset per line; each offset is the
    one before plus the length of the line, plus one for its line break
    unless the line is the last; and the last offset is the length of the
    text. *)
Theorem line_index_covers_text (st : Layout.State) (index : Z) :
  Layout.fresh_text st ->
  exists r st',
    Layout.linenum index st = Ok (r, st') /\
    let lines := Layout._lines (Layout.this st') in
    let chars := Layout._chars (Layout.this st') in
    Layout.lines_text lines = Layout.refstring (Layout.this st) /\
    length chars = length lines /\
    last chars = Some (slen (Layout.refstring (Layout.this st))) /\
    forall (i : nat) (line : string),
      lines !! i = Some line ->
      chars !! i
      = Some (match i with
              | O => 0
              | S j => match chars !! j with Some c => c | None => 0 end
              end
              + slen line + if bool_decide (S i = length lines) then 0 else 1).
Proof.
  intros [Hl Hr]. rewrite linenum_eq, (index_text_fresh _ Hl Hr).
  eexists _, _. split; [reflexivity|]. simpl.
  set (lines := split newline (Layout.refstring (Layout.this st))).
  assert (Hne : lines <> []) by apply split_nonempty.
  split; [apply join_split|].
  split; [now rewrite running_length, contributions_length|].
  split.
  - rewrite last_lookup, running_length, contributions_length.
    rewrite chars_lookup by (destruct lines; [congruence | simpl; lia]).
    f_equal. rewrite take_ge.
    + unfold Layout.contributions. rewrite dec_last_total.
      * unfold lines. rewrite split_total. lia.
      * destruct lines; [congruence | discriminate].
    + rewrite contributions_length. destruct lines; [congruence | simpl; lia].
  - intros i line Hi.
    assert (Hlt : (i < length lines)%nat) by (eapply lookup_lt_Some, Hi).
    rewrite chars_lookup by assumption. f_equal.
    rewrite (chars_step lines i line Hi).
    destruct i as [|i].
    + rewrite take_0. reflexivity.
    + rewrite chars_lookup by lia. reflexivity.
Qed.

Lemma line_index_covers_text_witness :
  exists r st',
    Layout.linenum 0 Layout.ex_two_lines = Ok (r, st') /\
    let lines := Layout._lines (Layout.this st') in
    let chars := Layout._chars (Layout.this st') in
    Layout.lines_text lines = Layout.refstring (Layout.this Layout.ex_two_lines) /\
    length chars = length lines /\
    last chars = Some (slen (Layout.refstring (Layout.this Layout.ex_two_lines))) /\
    forall (i : nat) (line : string),
      lines !! i = Some line ->
      chars !! i
      = Some (match i with
              | O => 0
              | S j => match chars !! j with Some c => c | None => 0 end
              end
              + slen line + if bool_decide (S i = length lines) then 0 else 1).
Proof.
  apply (line_index_covers_text Layout.ex_two_lines 0).
  split; [reflexivity | discriminate].
Defined.

(** X7. From a position to an offset and back.  On a text that is not empty,
    let [a] and [b] be the cumulative end offsets of the lines [line - 1] and
    [line], for [line >= 1].  Then [charindex(line, column)] is [a + column];
    for a column from 1 to [b - a], [linenum] of that offset is
    [[line, b - offset]]; for column 0 it is [[line - 1, 0]], the line
    before. *)
Theorem charindex_linenum_round_trip (st st1 : Layout.State) (line column c a b : Z) :
  Layout.fresh_text st -> 1 <= line ->
  Layout.charindex line column st = Ok (c, st1) ->
  Layout._chars (Layout.this st1) !! Z.to_nat (line - 1) = Some a ->
  Layout._chars (Layout.this st1) !! Z.to_nat line = Some b ->
  c = a + column /\
  (1 <= column <= b - a ->
   Layout.linenum c st1 = Ok (Layout.LList line (b - c), st1)) /\
  (column = 0 -> Layout.linenum c st1 = Ok (Layout.LList (line - 1) 0, st1)).
Proof.
  intros [Hl Hr] Hline H Ha Hb.
  rewrite charindex_eq, (index_text_fresh _ Hl Hr) in H. simpl in H.
  set (lines := split newline (Layout.refstring (Layout.this st))) in *.
  destruct (py_index _ (line - 1)) as [a'|] eqn:E; [|discriminate].
  injection H as <- <-. simpl in Ha, Hb.
  apply py_index_nonneg in E; [|lia].
  assert (a' = a) by congruence. subst a'.
  assert (Hlen : (S (Z.to_nat (line - 1)) < length lines)%nat).
  { apply lookup_lt_Some in Hb. rewrite running_length, contributions_length in Hb. lia. }
  assert (Hne : lines <> []) by apply split_nonempty.
  split; [reflexivity|].
  assert (Hlin : forall index i x,
            Layout.running 0 (Layout.contributions lines) !! i = Some x ->
            index <= x ->
            (forall j c', (j < i)%nat ->
               Layout.running 0 (Layout.contributions lines) !! j = Some c' -> c' < index) ->
            Layout.linenum index
              (Layout.mkState
                 (Layout.mkModule (Layout.refstring (Layout.this st)) lines
                    (Layout.running 0 (Layout.contributions lines))
                    (Layout._contains_index (Layout.this st))
                    (Layout.m_types (Layout.this st)) (Layout.m_members (Layout.this st))
                    (Layout.m_executables (Layout.this st))) (Layout.heap st))
            = Ok (Layout.LList (Z.of_nat i) (x - index),
                  Layout.mkState
                    (Layout.mkModule (Layout.refstring (Layout.this st)) lines
                       (Layout.running 0 (Layout.contributions lines))
                       (Layout._contains_index (Layout.this st))
                       (Layout.m_types (Layout.this st)) (Layout.m_members (Layout.this st))
                       (Layout.m_executables (Layout.this st))) (Layout.heap st))).
  { intros index i x Hi Hx Hfirst. rewrite linenum_eq. simpl.
    rewrite index_text_indexed by (simpl; assumption). simpl.
    destruct lines as [|l0 ls] eqn:El; [congruence|]. rewrite <- El in *.
    replace (len lines >? 0) with true
      by (unfold len; rewrite El; simpl; symmetry; apply Z.gtb_gt; lia).
    now rewrite (find_line_at index _ 0 i x Hi Hx Hfirst). }
  split.
  - intros Hcol. rewrite (Hlin (a + column) (Z.to_nat line) b Hb ltac:(lia)).
    + rewrite Z2Nat.id by lia. reflexivity.
    + intros j c' Hj Hc'.
      pose proof (chars_mono lines j (Z.to_nat (line - 1)) c' a ltac:(lia) Hc' Ha). lia.
  - intros ->. rewrite Z.add_0_r.
    rewrite (Hlin a (Z.to_nat (line - 1)) a Ha ltac:(lia)).
    + rewrite Z2Nat.id by lia. rewrite Z.sub_diag. reflexivity.
    + intros j c' Hj Hc'.
      apply (chars_strict lines j (Z.to_nat (line - 1)) c' a Hj Hlen Hc' Ha).
Qed.

Lemma charindex_linenum_round_trip_witness :
  let st1 := Layout.mkState (Layout.index_text (Layout.this Layout.ex_state))
               (Layout.heap Layout.ex_state) in
  63 = 57 + 6 /\
  (1 <= 6 <= 72 - 57 -> Layout.linenum 63 st1 = Ok (Layout.LList 6 (72 - 63), st1)) /\
  (6 = 0 -> Layout.linenum 63 st1 = Ok (Layout.LList (6 - 1) 0, st1)).
Proof.
  intros st1.
  apply (charindex_linenum_round_trip Layout.ex_state st1 6 6 63 57 72).
  - split; [reflexivity | discriminate].
  - lia.
  - vm_compute. reflexivity.
  - reflexivity.
  - reflexivity.
Defined.

(** X8. The bounds of [charindex].  On a text of [n] lines that is not
    empty, [charindex(line, column)] returns when [-n <= line - 1 < n] and
    raises [IndexError] otherwise; line 0 wraps around to the last entry of
    the index, so [charindex(0, column)] is the length of the text plus
    [column].  On a module with no text and no index, [charindex] raises
    [IndexError] for every line. *)
Theorem charindex_bounds (st : Layout.State) (line column : Z) :
  (Layout.fresh_text st ->
   let n := len (split newline (Layout.refstring (Layout.this st))) in
   (- n <= line - 1 < n -> exists c st1, Layout.charindex line column st = Ok (c, st1)) /\
   (line - 1 < - n \/ n <= line - 1 ->
    Layout.charindex line column st = Raise IndexError) /\
   exists st1,
     Layout.charindex 0 column st
     = Ok (slen (Layout.refstring (Layout.this st)) + column, st1)) /\
  (Layout._lines (Layout.this st) = [] -> Layout.refstring (Layout.this st) = "" ->
   Layout._chars (Layout.this st) = [] ->
   Layout.charindex line column st = Raise IndexError).
Proof.
  split.
  - intros [Hl Hr] n. rewrite !charindex_eq, (index_text_fresh _ Hl Hr). simpl.
    set (lines := split newline (Layout.refstring (Layout.this st))) in *.
    set (chars := Layout.running 0 (Layout.contributions lines)).
    assert (Hn : len chars = n).
    { unfold len, chars, n. now rewrite running_length, contributions_length. }
    destruct (py_index_bounds chars (line - 1)) as [Hin Hout]. rewrite Hn in Hin, Hout.
    split; [|split].
    + intros Hi. destruct (Hin Hi) as [x ->]. eauto.
    + intros Hi. now rewrite (Hout Hi).
    + pose proof (chars_last (Layout.refstring (Layout.this st))) as Hlast.
      fold lines in Hlast. fold chars in Hlast. rewrite last_lookup in Hlast.
      assert (Hpos : 0 < n).
      { unfold n, len. pose proof (split_nonempty newline (Layout.refstring (Layout.this st))).
        fold lines in H |- *. destruct lines; [congruence | simpl; lia]. }
      unfold py_index. simpl. rewrite Hn. change (0 - 1 + n) with (-1 + n).
      destruct (Z.ltb_spec (-1 + n) 0); [lia|].
      replace (Z.to_nat (-1 + n)) with (Nat.pred (length chars))
        by (unfold len in Hn; lia).
      rewrite Hlast. eauto.
  - intros Hl Hr Hc. rewrite charindex_eq. unfold Layout.index_text.
    rewrite Hl, Hr. simpl. rewrite Hc.
    destruct (py_index_bounds (@nil Z) (line - 1)) as [_ Hout].
    rewrite Hout; [reflexivity|]. unfold len. simpl. lia.
Qed.

Lemma charindex_bounds_witness :
  exists st1, Layout.charindex 0 2 Layout.ex_two_lines = Ok (5 + 2, st1).
Proof.
  destruct (proj1 (charindex_bounds Layout.ex_two_lines 0 2)) as (_ & _ & st1 & H).
  - split; [reflexivity | discriminate].
  - exists st1. exact H.
Defined.

Section Boundary.

Import Layout.

Lemma scan_contains_spec (lines : list string) (s : Z) (n : nat) :
  forall i : Z,
    0 <= s + i -> (Z.to_nat (s + i) + n <= length lines)%nat ->
    exists r, scan_contains lines s i n = Ok r /\
      match r with
      | Some ci =>
          exists line, s + i <= ci < s + i + Z.of_nat n /\
            lines !! Z.to_nat ci = Some line /\ has_contains line = true /\
            forall j l, (Z.to_nat (s + i) <= j < Z.to_nat ci)%nat ->
                        lines !! j = Some l -> has_contains l = false
      | None =>
          forall j l, (Z.to_nat (s + i) <= j < Z.to_nat (s + i) + n)%nat ->
                      lines !! j = Some l -> has_contains l = false
      end.
Proof.
  induction n as [|n IH]; intros i Hi Hlen; simpl.
  - eexists. split; [reflexivity|]. intros j l Hj. lia.
  - destruct (lookup_lt_is_Some_2 lines (Z.to_nat (s + i)) ltac:(lia)) as [line Hline].
    unfold py_index. destruct (Z.ltb_spec (s + i) 0); [lia|].
    destruct (Z.ltb_spec (s + i) 0); [lia|]. rewrite Hline. simpl.
    fold (has_contains line). destruct (has_contains line) eqn:Hc.
    + eexists. split; [reflexivity|]. exists line.
      split; [lia|]. split; [assumption|]. split; [assumption|]. intros j l Hj. lia.
    + destruct (IH (i + 1)) as (r & Hr & Hspec); [lia | lia |].
      exists r. split; [assumption|].
      replace (s + (i + 1)) with (s + i + 1) in Hspec by lia.
      destruct r as [ci|].
      * destruct Hspec as (line' & Hci & Hl' & Hc' & Hfirst).
        exists line'. split; [lia|]. split; [assumption|]. split; [assumption|].
        intros j l Hj Hl.
        destruct (decide (j = Z.to_nat (s + i))) as [->|Hne]; [congruence|].
        apply (Hfirst j l); [lia | assumption].
      * intros j l Hj Hl.
        destruct (decide (j = Z.to_nat (s + i))) as [->|Hne]; [congruence|].
        apply (Hspec j l); [lia | assumption].
Qed.

Lemma scan_contains_overrun (lines : list string) (s : Z) (n : nat) :
  forall i : Z,
    (1 <= n)%nat -> (length lines < Z.to_nat (s + i) + n)%nat ->
    (s + i < 0 -> lines = []) ->
    (forall j l, (Z.to_nat (s + i) <= j)%nat -> lines !! j = Some l ->
                 has_contains l = false) ->
    scan_contains lines s i n = Raise IndexError.
Proof.
  induction n as [|n IH]; intros i Hn Hlen Hneg Hno; [lia|]. simpl.
  destruct (py_index lines (s + i)) as [line|e] eqn:E.
  - simpl. destruct (Z.ltb_spec (s + i) 0) as [Hlt|Hge].
    { rewrite (Hneg Hlt) in E. unfold py_index in E. simpl in E.
      destruct (s + i <? 0), (_ <? 0); discriminate. }
    apply py_index_nonneg in E; [|assumption].
    fold (has_contains line). rewrite (Hno _ _ (Nat.le_refl _) E).
    pose proof (lookup_lt_Some _ _ _ E) as Hlt.
    apply IH; [lia | lia | lia |].
    intros j l Hj. apply Hno. lia.
  - simpl. unfold py_index in E.
    destruct (s + i <? 0); destruct (_ <? 0); try (injection E as <-; reflexivity);
      destruct (lines !! _); try discriminate; injection E as <-; reflexivity.
Qed.

Lemma find_line_nonneg (index : Z) (chars : list Z) (k a b : Z) :
  find_line index chars k = LList a b -> k <= a.
Proof.
  revert k. induction chars as [|x chars IH]; intros k; simpl; [discriminate|].
  destruct (index <=? x).
  - intros [= <- _]. lia.
  - intros H. apply IH in H. lia.
Qed.

End Boundary.

(** X9. The boundary is cached: when [contains_index] returns [ci], the cache
    holds [ci], and reading the property again returns [ci] and leaves the
    state as it is. *)
Theorem contains_index_is_cached (st st1 : Layout.State) (ci : Z) :
  Layout.contains_index st = Ok (ci, st1) ->
  Layout._contains_index (Layout.this st1) = Some ci /\
  Layout.contains_index st1 = Ok (ci, st1).
Proof.
  intros H. pose proof (contains_index_cached _ _ _ H) as Hc.
  split; [assumption|].
  unfold Layout.contains_index, Layout.bind, Layout.get_module. rewrite Hc. reflexivity.
Qed.

Lemma contains_index_is_cached_witness :
  let st1 := Layout.state_after (fun st => match Layout.contains_index st with
                                           | Ok (_, s) => Ok (tt, s)
                                           | Raise e => Raise e
                                           end) Layout.ex_state in
  Layout._contains_index (Layout.this st1) = Some 4 /\
  Layout.contains_index st1 = Ok (4, st1).
Proof.
  intros st1. apply (contains_index_is_cached Layout.ex_state st1 4).
  vm_compute. reflexivity.
Defined.

(** X10. The boundary of a module without types.  With no cached value, no
    types and a text that is not empty, [contains_index] returns: the index
    of the first line that holds ["contains"] in any case, anywhere in the
    line; the index of the last line when no line does. *)
Theorem contains_index_without_types (st : Layout.State) :
  Layout.fresh_text st ->
  Layout.m_types (Layout.this st) = [] ->
  Layout._contains_index (Layout.this st) = None ->
  exists (ci : Z) (st1 : Layout.State),
    Layout.contains_index st = Ok (ci, st1) /\
    let lines := split newline (Layout.refstring (Layout.this st)) in
    ((exists line, 0 <= ci /\ lines !! Z.to_nat ci = Some line /\
                   Layout.has_contains line = true /\
                   forall j l, (j < Z.to_nat ci)%nat -> lines !! j = Some l ->
                               Layout.has_contains l = false) \/
     (ci = len lines - 1 /\ Forall (fun l => Layout.has_contains l = false) lines)).
Proof.
  intros [Hl Hr] Ht Hc.
  unfold Layout.contains_index, Layout.bind, Layout.get_module. rewrite Hc, Ht. simpl.
  rewrite linenum_eq, (index_text_fresh _ Hl Hr). simpl.
  set (lines := split newline (Layout.refstring (Layout.this st))).
  assert (Hne : lines <> []) by apply split_nonempty.
  destruct lines as [|l0 ls] eqn:El; [congruence|]. rewrite <- El.
  assert (Hlen : (len lines >? 0) = true).
  { unfold len. rewrite El. simpl. apply Z.gtb_gt. lia. }
  rewrite Hlen.
  destruct (Layout.running 0 (Layout.contributions lines)) as [|x chars] eqn:Ec.
  { apply (f_equal length) in Ec.
    rewrite running_length, contributions_length, El in Ec. discriminate. }
  assert (Hx : 0 <= x).
  { pose proof (chars_lookup lines 0 ltac:(rewrite El; simpl; lia)) as H0.
    rewrite Ec in H0. injection H0 as ->.
    pose proof (total_take_le (Layout.contributions lines) 0 1
                  (contributions_nonneg lines) ltac:(lia)) as Hle.
    rewrite take_0 in Hle. exact Hle. }
  simpl. destruct (Z.leb_spec 0 x); [|lia]. simpl.
  destruct (scan_contains_spec lines 0 (Z.to_nat (len lines)) 0) as (r & Hr' & Hspec);
    [lia | unfold len; simpl; lia |].
  unfold Layout.lift. rewrite Hr'. simpl.
  eexists _, _. split; [reflexivity|].
  destruct r as [ci|].
  - left. destruct Hspec as (line & Hci & Hline & Hcl & Hfirst).
    exists line. split; [lia|]. split; [assumption|]. split; [assumption|].
    intros j l Hj. apply Hfirst. simpl. lia.
  - right. split; [reflexivity|].
    apply Forall_lookup. intros j l Hj. apply (Hspec j l); [|assumption].
    apply lookup_lt_Some in Hj. unfold len. simpl. lia.
Qed.

Lemma contains_index_without_types_witness :
  exists (ci : Z) (st1 : Layout.State),
    Layout.contains_index Layout.ex_upper_boundary = Ok (ci, st1) /\
    let lines := split newline (Layout.refstring (Layout.this Layout.ex_upper_boundary)) in
    ((exists line, 0 <= ci /\ lines !! Z.to_nat ci = Some line /\
                   Layout.has_contains line = true /\
                   forall j l, (j < Z.to_nat ci)%nat -> lines !! j = Some l ->
                               Layout.has_contains l = false) \/
     (ci = len lines - 1 /\ Forall (fun l => Layout.has_contains l = false) lines)).
Proof.
  apply (contains_index_without_types Layout.ex_upper_boundary).
  - split; [reflexivity | discriminate].
  - reflexivity.
  - reflexivity.
Defined.

(** X11. The boundary scan can run past the end of the text.  Let no value
    be cached, let the greatest end offset [max_t] of the top-level types be
    positive, and let [linenum(max_t)] be [[s, b]].  When no line from [s]
    on holds ["contains"] and the text has fewer than [s + 10] lines,
    [contains_index] raises [IndexError]: the fallback to the last line is
    not reached. *)
Theorem contains_index_overruns_text (st st0 st1 : Layout.State) (max_t s b : Z) :
  Layout._contains_index (Layout.this st) = None ->
  Layout.last_type_end (dict_keys (Layout.m_types (Layout.this st))) 0 st = Ok (max_t, st0) ->
  max_t > 0 ->
  Layout.linenum max_t st0 = Ok (Layout.LList s b, st1) ->
  (forall j l, (Z.to_nat s <= j)%nat -> Layout._lines (Layout.this st1) !! j = Some l ->
               Layout.has_contains l = false) ->
  len (Layout._lines (Layout.this st1)) < s + 10 ->
  Layout.contains_index st = Raise IndexError.
Proof.
  intros Hc Hmax Hpos Hln Hno Hshort.
  unfold Layout.contains_index, Layout.bind, Layout.get_module. rewrite Hc, Hmax, Hln.
  destruct (Z.gtb_spec max_t 0); [|lia].
  unfold Layout.lift. rewrite (scan_contains_overrun _ s 10 0); [reflexivity|lia| | |].
  - unfold len in Hshort. rewrite Z.add_0_r. lia.
  - rewrite Z.add_0_r. intros Hneg.
    rewrite linenum_eq in Hln. injection Hln as Hres <-. simpl in *.
    destruct (Layout._lines (Layout.index_text (Layout.this st0))); [reflexivity|].
    simpl in Hres. apply find_line_nonneg in Hres. lia.
  - rewrite Z.add_0_r. exact Hno.
Qed.

Lemma contains_index_overruns_text_witness :
  Layout.contains_index Layout.ex_no_boundary = Raise IndexError.
Proof.
  apply (contains_index_overruns_text Layout.ex_no_boundary Layout.ex_no_boundary
           (Layout.mkState (Layout.index_text (Layout.this Layout.ex_no_boundary))
              (Layout.heap Layout.ex_no_boundary)) 24 2 1).
  - reflexivity.
  - reflexivity.
  - lia.
  - vm_compute. reflexivity.
  - intros j l Hj Hl. simpl in Hj.
    do 2 (destruct j as [|j]; [lia|]).
    do 2 (destruct j as [|j]; [injection Hl as <-; reflexivity|]).
    discriminate.
  - vm_compute. reflexivity.
Defined.

(** ** Re-parenting, continued *)

Section EmbeddingMore.

Import Layout.

Lemma for_each_embed_keeps (attribute k : string) (o : oid) (ks : list string) :
  forall (st : State) u (st' : State) (e : Element),
    for_each ks (embed attribute) st = Ok (u, st') ->
    dict_get k (top_level attribute (this st)) = Some o ->
    heap st !! o = Some e ->
    ~ has_container st o ->
    (forall k2, dict_get k2 (top_level attribute (this st)) = Some o -> k2 = k) ->
    dict_get k (top_level attribute (this st')) = Some o /\
    exists e', heap st' !! o = Some e' /\ parent e' = parent e /\ same_span e e'.
Proof.
  induction ks as [|k1 ks IH]; intros st u st' e H Hk He Hno Huniq.
  - injection H as _ <-. split; [assumption|]. exists e. repeat split; auto.
  - simpl in H. apply bind_Ok in H as (u1 & st1 & H1 & H).
    pose proof (embed_rel_step _ _ _ _ _ H1) as Hrel.
    apply embed_inv in H1 as (o1 & el & Hk1 & Hel & [[-> _]|Hmove]).
    { eapply IH; eassumption. }
    destruct Hmove as (np & t & pe & d & Ht & Hpe & Hin & Hne & Hd & Hheap & Htop & _).
    assert (Ho1 : o1 <> o).
    { intros ->. apply Hno. assert (el = e) by congruence. subst el.
      exists t, np, pe, e. auto. }
    assert (Hk1k : k1 <> k) by (intros ->; congruence).
    assert (Hk' : dict_get k (top_level attribute (this st1)) = Some o).
    { rewrite Htop, dict_get_del. destruct (decide (k1 = k)); [contradiction | assumption]. }
    assert (He1 : exists e1, heap st1 !! o = Some e1 /\ parent e1 = parent e /\
                             same_span e e1).
    { rewrite Hheap. destruct (decide (o = np)) as [->|Hnp].
      - assert (pe = e) by congruence. subst pe.
        eexists. split; [apply list_lookup_insert_eq; rewrite length_insert;
                         eapply lookup_lt_Some, He|].
        unfold receive. case_bool_decide; repeat split; reflexivity.
      - rewrite !list_lookup_insert_ne by congruence.
        exists e. repeat split; auto. }
    destruct He1 as (e1 & He1 & Hp1 & Hs1).
    destruct (IH st1 u st' e1 H Hk' He1) as (Hfin & e' & He' & Hp' & Hs').
    + intros Hc. apply Hno. eapply has_container_back; eassumption.
    + intros k2 Hk2. apply Huniq. rewrite Htop, dict_get_del in Hk2.
      destruct (decide (k1 = k2)); [discriminate | assumption].
    + split; [assumption|]. exists e'. split; [assumption|].
      split; [congruence | eapply same_span_trans; eassumption].
Qed.

End EmbeddingMore.

(** X12. Elements that nothing holds stay where they are: when
    [update_embedded(attribute)] returns on a well-formed module, an element
    of that top-level dictionary whose span lies strictly inside the span of
    no top-level type or executable is still in the dictionary under its
    key, with the same parent and the same span. *)
Theorem update_embedded_keeps_outer (st st' : Layout.State) (attribute k : string)
    (o : Layout.oid) (e : Layout.Element) :
  Layout.wf_state st = true ->
  Layout.update_embedded attribute st = Ok (tt, st') ->
  dict_get k (Layout.top_level attribute (Layout.this st)) = Some o ->
  Layout.heap st !! o = Some e ->
  (forall t p pe, Layout.top_has (Layout.this st) t p -> Layout.heap st !! p = Some pe ->
                  ~ (Layout.start pe < Layout.start e /\ Layout.end_ e < Layout.end_ pe)) ->
  dict_get k (Layout.top_level attribute (Layout.this st')) = Some o /\
  exists e', Layout.heap st' !! o = Some e' /\
             Layout.parent e' = Layout.parent e /\
             Layout.start e' = Layout.start e /\ Layout.end_ e' = Layout.end_ e.
Proof.
  intros Hwf H Hk He Hno.
  destruct (top_level_NoDup attribute st Hwf) as [_ Hvals].
  unfold Layout.update_embedded in H.
  apply bind_Ok in H as (coll & st0 & H0 & H).
  apply collection_Ok in H0 as [-> ->].
  destruct (for_each_embed_keeps attribute k o _ st tt st' e H Hk He)
    as (Hfin & e' & He' & Hp & Hs1 & Hs2).
  - intros (t & p & pe & ve & Ht & Hp & Hv & Hin).
    assert (ve = e) by congruence. subst ve.
    apply inside_spec in Hin. exact (Hno t p pe Ht Hp Hin).
  - intros k2 Hk2. eapply NoDup_values_key; [exact Hvals | |];
      apply dict_get_elem; eassumption.
  - split; [assumption|]. exists e'. auto.
Qed.

Lemma update_embedded_keeps_outer_witness :
  let st := Layout.ex_embedded in
  let st' := Layout.state_after (Layout.update_embedded "executables") st in
  let e := Layout.new_Executable 10 200 0 0 Layout.TheModule in
  dict_get "outer" (Layout.top_level "executables" (Layout.this st')) = Some 0%nat /\
  exists e', Layout.heap st' !! 0%nat = Some e' /\
             Layout.parent e' = Layout.parent e /\
             Layout.start e' = Layout.start e /\ Layout.end_ e' = Layout.end_ e.
Proof.
  intros st st' e.
  apply (update_embedded_keeps_outer st st' "executables" "outer" 0 e);
    try reflexivity.
  intros t p pe [Ht|Ht] Hp; simpl in Ht.
  - destruct (decide ("u" = t)); [|discriminate].
    injection Ht as <-. injection Hp as <-. simpl. lia.
  - destruct (decide ("outer" = t)).
    + injection Ht as <-. injection Hp as <-. simpl. lia.
    + destruct (decide ("inner" = t)); [|discriminate].
      injection Ht as <-. injection Hp as <-. simpl. lia.
Defined.

(** X13. What [find_embedded_parent] finds: it never changes the state; a
    result is a top-level type or executable whose span strictly holds the
    span of the element; the result is a type whenever some type holds the
    element, an executable being looked for only when no type does; and the
    result is [None] only when no top-level type or executable holds the
    element. *)
Theorem find_embedded_parent_first_container (el : Layout.Element) (st st' : Layout.State)
    (r : option Layout.oid) :
  Layout.find_embedded_parent el st = Ok (r, st') ->
  st' = st /\
  (forall o, r = Some o ->
     exists t pe, Layout.top_has (Layout.this st) t o /\
                  Layout.heap st !! o = Some pe /\
                  Layout.start pe < Layout.start el /\ Layout.end_ el < Layout.end_ pe) /\
  (forall o t' o' pe',
     r = Some o ->
     dict_get t' (Layout.m_types (Layout.this st)) = Some o' ->
     Layout.heap st !! o' = Some pe' ->
     Layout.start pe' < Layout.start el -> Layout.end_ el < Layout.end_ pe' ->
     exists t, dict_get t (Layout.m_types (Layout.this st)) = Some o) /\
  (r = None ->
   forall t o pe, Layout.top_has (Layout.this st) t o -> Layout.heap st !! o = Some pe ->
                  ~ (Layout.start pe < Layout.start el /\ Layout.end_ el < Layout.end_ pe)).
Proof.
  intros H. pose proof (find_embedded_parent_spec _ _ _ _ H) as [-> Hspec].
  split; [reflexivity|]. split; [|split].
  - intros o ->. destruct Hspec as (t & pe & Ht & Hpe & Hin).
    apply inside_spec in Hin. exists t, pe. tauto.
  - intros o t' o' pe' -> Ht' Hpe' Hs He.
    unfold Layout.find_embedded_parent in H.
    apply bind_Ok in H as (m & st1 & [= <- <-] & H).
    apply bind_Ok in H as (r1 & st1 & H1 & H).
    apply first_container_spec in H1 as [-> H1].
    destruct r1 as [o1|].
    + injection H as <-. destruct H1 as (t & pe & Hget & _). eauto.
    + exfalso. specialize (H1 t' o' pe' (dict_get_key _ _ _ Ht') Ht' Hpe').
      assert (Layout.inside el pe' = true) by (apply inside_spec; auto). congruence.
  - intros -> t o pe Ht Hpe Hin. apply inside_spec in Hin.
    rewrite (Hspec t o pe Ht Hpe) in Hin. discriminate.
Qed.

Lemma find_embedded_parent_first_container_witness :
  exists t pe,
    Layout.top_has (Layout.this Layout.ex_embedded) t 0%nat /\
    Layout.heap Layout.ex_embedded !! 0%nat = Some pe /\
    Layout.start pe < 50 /\ 90 < Layout.end_ pe.
Proof.
  destruct (find_embedded_parent_first_container
              (Layout.new_Executable 50 90 0 0 Layout.TheModule)
              Layout.ex_embedded Layout.ex_embedded (Some 0%nat) eq_refl)
    as (_ & Hsome & _).
  exact (Hsome 0%nat eq_refl).
Defined.

(** ** Parameters, assignments and dependencies, continued *)

Section Bookkeeping.

Import Calls.

Lemma lower_ascii_idemp (c : ascii) : lower_ascii (lower_ascii c) = lower_ascii c.
Proof.
  destruct c as [[] [] [] [] [] [] [] []]; reflexivity.
Qed.

Lemma lower_idemp (s : string) : lower (lower s) = lower s.
Proof.
  induction s as [|c s IH]; [reflexivity|].
  simpl. now rewrite lower_ascii_idemp, IH.
Qed.

Lemma dict_mem_get {V} (k : string) (d : dict V) :
  dict_mem k d = true <-> exists v, dict_get k d = Some v.
Proof.
  unfold dict_mem. destruct (dict_get k d) as [v|]; split.
  - intros _. eauto.
  - reflexivity.
  - discriminate.
  - intros [v [=]].
Qed.

Lemma dict_mem_false {V} (k : string) (d : dict V) :
  dict_mem k d = false <-> dict_get k d = None.
Proof.
  unfold dict_mem. destruct (dict_get k d); split; congruence.
Qed.

Lemma remove_first_notin (k : string) (l : list string) :
  k ∉ l -> remove_first k l = l.
Proof.
  induction l as [|y l IH]; intros Hk; [reflexivity|].
  simpl. apply not_elem_of_cons in Hk as [Hne Hk].
  destruct (decide (y = k)); [congruence|]. now rewrite IH.
Qed.

Lemma remove_first_snoc (k : string) (l : list string) :
  k ∉ l -> remove_first k (l ++ [k]) = l.
Proof.
  induction l as [|y l IH]; intros Hk; simpl.
  - destruct (decide (k = k)); [reflexivity | contradiction].
  - apply not_elem_of_cons in Hk as [Hne Hk].
    destruct (decide (y = k)); [congruence|]. now rewrite IH.
Qed.

Lemma remove_first_elem (k x : string) (l : list string) :
  NoDup l -> x ∈ remove_first k l <-> x ∈ l /\ x <> k.
Proof.
  induction l as [|y l IH]; intros Hnd; simpl.
  - split; [intros H; inversion H | intros [H _]; inversion H].
  - apply NoDup_cons in Hnd as [Hy Hnd].
    destruct (decide (y = k)) as [->|Hne].
    + rewrite elem_of_cons. split.
      * intros Hx. split; [auto|]. intros ->. contradiction.
      * intros [[->|Hx] Hxk]; [contradiction | assumption].
    + rewrite !elem_of_cons, IH by assumption. split.
      * intros [->|[Hx Hxk]]; auto.
      * intros [[->|Hx] Hxk]; auto.
Qed.

Lemma remove_first_NoDup (k : string) (l : list string) :
  NoDup l -> NoDup (remove_first k l).
Proof.
  induction l as [|y l IH]; intros Hnd; simpl; [constructor|].
  apply NoDup_cons in Hnd as [Hy Hnd].
  destruct (decide (y = k)); [assumption|].
  apply NoDup_cons. split; [|auto].
  rewrite remove_first_elem by assumption. tauto.
Qed.

Lemma dict_del_fresh {V} (k : string) (d : dict V) :
  dict_get k d = None -> dict_del k d = d.
Proof.
  induction d as [|[k0 v0] d IH]; simpl; [reflexivity|].
  destruct (decide (k0 = k)); [discriminate|].
  intros H. now rewrite IH.
Qed.

Lemma dict_set_fresh {V} (k : string) (v : V) (d : dict V) :
  dict_get k d = None -> dict_set k v d = d ++ [(k, v)].
Proof.
  induction d as [|[k0 v0] d IH]; simpl; [reflexivity|].
  destruct (decide (k0 = k)); [discriminate|].
  intros H. now rewrite IH.
Qed.

Lemma dict_del_set_fresh {V} (k : string) (v : V) (d : dict V) :
  dict_get k d = None -> dict_del k (dict_set k v d) = d.
Proof.
  induction d as [|[k0 v0] d IH]; simpl.
  - destruct (decide (k = k)); [reflexivity | contradiction].
  - destruct (decide (k0 = k)) as [|Hne]; [discriminate|].
    intros H. simpl. destruct (decide (k0 = k)); [contradiction|]. now rewrite IH.
Qed.

Lemma remove_parameter_consistent (nm : string) (x : Executable) :
  parameters_consistent x -> parameters_consistent (remove_parameter nm x).
Proof.
  intros [[Hnd Hname] Hsame]. unfold parameters_consistent, parameters_ok. simpl.
  assert (Hdel : forall k,
    dict_get k (if dict_mem nm (_parameters x) then dict_del nm (_parameters x)
                else _parameters x)
    = if decide (nm = k) then None else dict_get k (_parameters x)).
  { intros k. destruct (dict_mem nm (_parameters x)) eqn:E.
    - apply dict_get_del.
    - apply dict_mem_false in E. destruct (decide (nm = k)); congruence. }
  assert (Hrem : forall k,
    k ∈ (if bool_decide (nm ∈ paramorder x) then remove_first nm (paramorder x)
         else paramorder x) <-> k ∈ paramorder x /\ k <> nm).
  { intros k. case_bool_decide as E.
    - now apply remove_first_elem.
    - split; [|tauto]. intros Hk. split; [assumption|]. intros ->. contradiction. }
  repeat split.
  - case_bool_decide; [now apply remove_first_NoDup | assumption].
  - intros k p. rewrite Hdel. destruct (decide (nm = k)); [discriminate | apply Hname].
  - intros Hk. apply Hrem in Hk as [Hk Hne]. apply dict_mem_get.
    rewrite Hdel. destruct (decide (nm = k)); [congruence|].
    apply dict_mem_get, Hsame, Hk.
  - intros Hk. apply dict_mem_get in Hk as [v Hv]. rewrite Hdel in Hv.
    destruct (decide (nm = k)); [discriminate|].
    apply Hrem. split; [|congruence]. apply Hsame, dict_mem_get. eauto.
Qed.

Lemma add_parameter_consistent (p : ValueElement) (x : Executable) :
  parameters_consistent x -> parameters_consistent (add_parameter p x).
Proof.
  intros [Hok Hsame]. split; [now apply add_parameter_ok|].
  intros k. simpl. rewrite dict_mem_get.
  setoid_rewrite dict_get_set.
  assert (Hin : k ∈ (if bool_decide (lower (name p) ∈ paramorder x) then paramorder x
                     else paramorder x ++ [lower (name p)])
                <-> k ∈ paramorder x \/ k = lower (name p)).
  { case_bool_decide as E.
    - split; [auto|]. intros [H| ->]; assumption.
    - rewrite elem_of_app, list_elem_of_singleton. tauto. }
  rewrite Hin. destruct (decide (lower (name p) = k)) as [<-|Hne].
  - split; eauto.
  - rewrite Hsame, dict_mem_get. split.
    + intros [H|H]; [assumption | congruence].
    + auto.
Qed.

Lemma after_calls_consistent (cs : list parameter_call) :
  forall x, parameters_consistent x -> parameters_consistent (after_calls cs x).
Proof.
  induction cs as [|c cs IH]; intros x Hx; [assumption|].
  simpl. apply IH. destruct c; simpl.
  - now apply add_parameter_consistent.
  - now apply remove_parameter_consistent.
Qed.

Lemma new_executable_consistent (nm : string) (m : option ModuleRef) :
  parameters_consistent (new_executable nm m).
Proof.
  split; [split|]; simpl.
  - constructor.
  - intros k p. discriminate.
  - intros k. split; [intros H; inversion H | discriminate].
Qed.

Lemma parameters_in_order_Ok (parameters : dict ValueElement) (order : list string) :
  (forall k, k ∈ order -> dict_mem k parameters = true) ->
  (forall k p, dict_get k parameters = Some p -> lower (name p) = k) ->
  exists ps, parameters_in_order parameters order = Ok ps /\
             map (fun p => lower (name p)) ps = order.
Proof.
  intros Hmem Hname. induction order as [|k order IH]; simpl.
  - exists []. auto.
  - destruct (dict_get k parameters) as [p|] eqn:G.
    + destruct IH as (ps & -> & Hps).
      { intros k' Hk'. apply Hmem, list_elem_of_further, Hk'. }
      unfold dict_item. rewrite G. simpl. exists (p :: ps). split; [reflexivity|].
      simpl. now rewrite (Hname _ _ G), Hps.
    + specialize (Hmem k (list_elem_of_here _ _)). apply dict_mem_get in Hmem as [v Hv].
      congruence.
Qed.

Lemma parameters_in_order_set (parameters : dict ValueElement) (p : ValueElement)
    (order : list string) (ps : list ValueElement) :
  (forall k q, dict_get k parameters = Some q -> lower (name q) = k) ->
  parameters_in_order parameters order = Ok ps ->
  parameters_in_order (dict_set (lower (name p)) p parameters) order
  = Ok (map (fun q => if bool_decide (lower (name q) = lower (name p)) then p else q) ps).
Proof.
  intros Hname. revert ps. induction order as [|k order IH]; intros ps; simpl.
  - intros [= <-]. reflexivity.
  - unfold dict_item at 1 2. rewrite dict_get_set.
    destruct (dict_get k parameters) as [q|] eqn:G; [|discriminate]. simpl.
    destruct (parameters_in_order parameters order) as [qs|] eqn:E; [|discriminate].
    simpl. intros [= <-]. rewrite (IH qs eq_refl). simpl.
    rewrite (Hname _ _ G).
    destruct (decide (lower (name p) = k)) as [<-|Hne]; simpl.
    + now rewrite bool_decide_eq_true_2.
    + rewrite bool_decide_eq_false_2 by congruence. reflexivity.
Qed.

Lemma parameters_in_order_app (parameters : dict ValueElement) (o1 o2 : list string)
    (ps1 ps2 : list ValueElement) :
  parameters_in_order parameters o1 = Ok ps1 ->
  parameters_in_order parameters o2 = Ok ps2 ->
  parameters_in_order parameters (o1 ++ o2) = Ok (ps1 ++ ps2).
Proof.
  revert ps1. induction o1 as [|k o1 IH]; intros ps1; simpl.
  - intros [= <-]. auto.
  - destruct (dict_item k parameters) as [q|]; [|discriminate]. simpl.
    destruct (parameters_in_order parameters o1) as [qs|]; [|discriminate].
    simpl. intros [= <-] H2. now rewrite (IH qs eq_refl H2).
Qed.

Lemma parameters_in_order_names (parameters : dict ValueElement) (order : list string)
    (ps : list ValueElement) :
  (forall k q, dict_get k parameters = Some q -> lower (name q) = k) ->
  parameters_in_order parameters order = Ok ps ->
  map (fun p => lower (name p)) ps = order.
Proof.
  intros Hname. revert ps. induction order as [|k order IH]; intros ps; simpl.
  - intros [= <-]. reflexivity.
  - unfold dict_item. destruct (dict_get k parameters) as [q|] eqn:G; [|discriminate].
    simpl. destruct (parameters_in_order parameters order) as [qs|]; [|discriminate].
    simpl. intros [= <-]. simpl. now rewrite (Hname _ _ G), (IH qs eq_refl).
Qed.

End Bookkeeping.

(** X14. The bookkeeping of parameters stays consistent: after any sequence
    of [add_parameter] and [remove_parameter] calls on a new executable, no
    name occurs twice in [paramorder], a name is in [paramorder] exactly when
    it is a key of [_parameters], and [ordered_parameters] raises no
    [KeyError]: it returns one parameter per entry of [paramorder], in that
    order, each filed under its lower-cased name. *)
Theorem parameters_stay_consistent (cs : list Calls.parameter_call) (nm : string)
    (m : option Calls.ModuleRef) :
  let x := Calls.after_calls cs (Calls.new_executable nm m) in
  NoDup (Calls.paramorder x) /\
  (forall k, k ∈ Calls.paramorder x <-> dict_mem k (Calls._parameters x) = true) /\
  exists ps, Calls.ordered_parameters x = Ok ps /\
             map (fun p => lower (Calls.name p)) ps = Calls.paramorder x.
Proof.
  intros x.
  destruct (after_calls_consistent cs _ (new_executable_consistent nm m))
    as [[Hnd Hname] Hsame].
  fold x in Hnd, Hname, Hsame.
  split; [assumption|]. split; [assumption|].
  apply parameters_in_order_Ok; [|assumption].
  intros k Hk. now apply Hsame.
Qed.

(** X15. [remove_parameter] undoes [add_parameter] only under the
    lower-cased name: on an executable with consistent bookkeeping,
    removing [lower(p.name)] after adding a new parameter [p] gives back the
    executable as it was, while removing [p.name] itself changes nothing
    when the name has an upper-case letter. *)
Theorem remove_parameter_undoes_add (p : Calls.ValueElement) (x : Calls.Executable) :
  Calls.parameters_consistent x ->
  lower (Calls.name p) ∉ Calls.paramorder x ->
  Calls.remove_parameter (lower (Calls.name p)) (Calls.add_parameter p x) = x /\
  (Calls.name p <> lower (Calls.name p) ->
   Calls.remove_parameter (Calls.name p) (Calls.add_parameter p x)
   = Calls.add_parameter p x).
Proof.
  intros [[Hnd Hname] Hsame] Hnew.
  assert (Hnone : dict_get (lower (Calls.name p)) (Calls._parameters x) = None).
  { apply dict_mem_false.
    destruct (dict_mem (lower (Calls.name p)) (Calls._parameters x)) eqn:E;
      [|reflexivity].
    apply Hsame in E. contradiction. }
  split.
  - destruct x as [xn xm deps po ps asg]. simpl in *.
    unfold Calls.remove_parameter, Calls.add_parameter. simpl.
    rewrite (bool_decide_eq_false_2 _ Hnew).
    rewrite bool_decide_eq_true_2
      by (apply elem_of_app; right; apply list_elem_of_here).
    rewrite remove_first_snoc by assumption.
    assert (Hm : dict_mem (lower (Calls.name p))
                   (dict_set (lower (Calls.name p)) p ps) = true).
    { apply dict_mem_get. exists p. rewrite dict_get_set.
      destruct (decide (lower (Calls.name p) = lower (Calls.name p)));
        [reflexivity | contradiction]. }
    rewrite Hm, dict_del_set_fresh by assumption. reflexivity.
  - intros Hcase.
    assert (Hget : dict_get (Calls.name p) (Calls._parameters x) = None).
    { destruct (dict_get (Calls.name p) (Calls._parameters x)) as [q|] eqn:G;
        [|reflexivity].
      apply Hname in G. exfalso. apply Hcase.
      rewrite <- G at 2. now rewrite lower_idemp. }
    assert (Hord : Calls.name p ∉ Calls.paramorder x).
    { intros Hin. apply Hsame, dict_mem_get in Hin as [q Hq]. congruence. }
    destruct x as [xn xm deps po ps asg]. simpl in *.
    unfold Calls.remove_parameter, Calls.add_parameter. simpl.
    rewrite (bool_decide_eq_false_2 _ Hnew).
    rewrite bool_decide_eq_false_2.
    2:{ rewrite elem_of_app, list_elem_of_singleton. tauto. }
    assert (Hm : dict_mem (Calls.name p) (dict_set (lower (Calls.name p)) p ps) = false).
    { apply dict_mem_false. rewrite dict_get_set.
      destruct (decide (lower (Calls.name p) = Calls.name p)); [congruence|assumption]. }
    rewrite Hm. reflexivity.
Qed.

Lemma remove_parameter_undoes_add_witness :
  let p := Calls.mkValueElement "Tol" (Some "real") None None None in
  Calls.remove_parameter "tol" (Calls.add_parameter p Calls.ex_two_parameters)
  = Calls.ex_two_parameters /\
  (Calls.name p <> lower (Calls.name p) ->
   Calls.remove_parameter "Tol" (Calls.add_parameter p Calls.ex_two_parameters)
   = Calls.add_parameter p Calls.ex_two_parameters).
Proof.
  intros p.
  apply (remove_parameter_undoes_add p Calls.ex_two_parameters).
  - apply add_parameter_consistent, add_parameter_consistent,
      new_executable_consistent.
  - vm_compute. intros H. repeat (apply elem_of_cons in H as [H|H]; [discriminate|]).
    inversion H.
Defined.

(** X16. Declaration order is kept: on an executable with consistent
    bookkeeping on which [ordered_parameters] gives [ps], after
    [add_parameter(p)] it gives [ps] followed by [p] when the lower-cased name
    of [p] is new, and otherwise [ps] with [p] in the place of the parameter
    of that name. *)
Theorem add_parameter_keeps_order (p : Calls.ValueElement) (x : Calls.Executable)
    (ps : list Calls.ValueElement) :
  Calls.parameters_consistent x ->
  Calls.ordered_parameters x = Ok ps ->
  Calls.ordered_parameters (Calls.add_parameter p x)
  = Ok (if bool_decide (lower (Calls.name p) ∈ Calls.paramorder x)
        then map (fun q => if bool_decide (lower (Calls.name q) = lower (Calls.name p))
                           then p else q) ps
        else ps ++ [p]).
Proof.
  intros [[Hnd Hname] Hsame] Hps. unfold Calls.ordered_parameters in *. simpl.
  pose proof (parameters_in_order_set _ p _ _ Hname Hps) as Hset.
  case_bool_decide as Hin; [exact Hset|].
  assert (Hmap : map (fun q => if bool_decide (lower (Calls.name q) = lower (Calls.name p))
                               then p else q) ps = ps).
  { pose proof (parameters_in_order_names _ _ _ Hname Hps) as Hn.
    rewrite <- Hn in Hin. clear -Hin.
    induction ps as [|q ps IH]; [reflexivity|]. simpl in *.
    apply not_elem_of_cons in Hin as [Hne Hin].
    rewrite bool_decide_eq_false_2 by congruence. now rewrite IH. }
  rewrite Hmap in Hset.
  apply parameters_in_order_app; [exact Hset|].
  simpl. unfold dict_item. rewrite dict_get_set.
  destruct (decide (lower (Calls.name p) = lower (Calls.name p))); [reflexivity|contradiction].
Qed.

Lemma add_parameter_keeps_order_witness :
  let n := Calls.mkValueElement "n" (Some "integer") None None None in
  let x := Calls.mkValueElement "x" (Some "real") None None None in
  let p := Calls.mkValueElement "N" (Some "real") (Some "8") None None in
  Calls.ordered_parameters (Calls.add_parameter p Calls.ex_two_parameters) = Ok [p; x].
Proof.
  intros n x p.
  apply (add_parameter_keeps_order p Calls.ex_two_parameters [n; x]).
  - apply add_parameter_consistent, add_parameter_consistent,
      new_executable_consistent.
  - reflexivity.
Defined.

Section Grouping.

Import Calls.

Lemma filter_notin_nil (l : list string) : filter (fun y => y ∉ @nil string) l = l.
Proof.
  induction l as [|y l IH]; [reflexivity|].
  rewrite filter_cons_True by (intros H; inversion H). now rewrite IH.
Qed.

Lemma filter_notin_snoc (a : list string) (v : string) (l : list string) :
  filter (fun y => y ∉ a ++ [v]) l
  = filter (fun y => y ∉ a) (filter (fun y => y <> v) l).
Proof.
  induction l as [|y l IH]; [reflexivity|].
  destruct (decide (y = v)) as [->|Hne].
  - rewrite filter_cons_False.
    2:{ intros H. apply H, elem_of_app. right. apply list_elem_of_here. }
    rewrite (filter_cons_False (fun y => y <> v)) by (intros H; now apply H).
    exact IH.
  - rewrite (filter_cons_True (fun y => y <> v)) by assumption.
    destruct (decide (y ∈ a)) as [Hin|Hout].
    + rewrite !filter_cons_False; [exact IH | intros H; now apply H |].
      intros H. apply H, elem_of_app. now left.
    + rewrite !filter_cons_True; [now rewrite IH | assumption |].
      rewrite elem_of_app, list_elem_of_singleton. tauto.
Qed.

Lemma filter_notin_absorb (a : list string) (v : string) (l : list string) :
  v ∈ a ->
  filter (fun y => y ∉ a) (filter (fun y => y <> v) l) = filter (fun y => y ∉ a) l.
Proof.
  intros Hv. induction l as [|y l IH]; [reflexivity|].
  destruct (decide (y = v)) as [->|Hne].
  - rewrite (filter_cons_False (fun y => y <> v)) by (intros H; now apply H).
    rewrite (filter_cons_False (fun y => y ∉ a)) by (intros H; now apply H).
    exact IH.
  - rewrite (filter_cons_True (fun y => y <> v)) by assumption.
    destruct (decide (y ∈ a)) as [Hin|Hout].
    + rewrite !filter_cons_False by (intros H; now apply H). exact IH.
    + rewrite !filter_cons_True by assumption. now rewrite IH.
Qed.

(** A loop that appends each value it has not recorded yet ends with the
    values recorded before, followed by the new values in the order of
    their first occurrence. *)
Lemma with_assignments_order (vs : list string) :
  forall x,
    _assignments (with_assignments vs x)
    = _assignments x ++ filter (fun y => y ∉ _assignments x) (first_occurrences vs).
Proof.
  induction vs as [|v vs IH]; intros x.
  - simpl. now rewrite app_nil_r.
  - cbn [with_assignments fold_left first_occurrences].
    fold (with_assignments vs (add_assignment v x)). rewrite IH. simpl.
    case_bool_decide as E.
    + rewrite (filter_cons_False (fun y => y ∉ _assignments x))
        by (intros H; now apply H).
      now rewrite filter_notin_absorb.
    + rewrite (filter_cons_True (fun y => y ∉ _assignments x)) by assumption.
      rewrite filter_notin_snoc, <- app_assoc. reflexivity.
Qed.

Lemma with_assignments_spec (vs : list string) :
  forall x, NoDup (_assignments x) ->
    NoDup (_assignments (with_assignments vs x)) /\
    (forall v, v ∈ _assignments (with_assignments vs x) <-> v ∈ _assignments x \/ v ∈ vs) /\
    exists r, _assignments (with_assignments vs x) = _assignments x ++ r /\ sublist r vs.
Proof.
  induction vs as [|v vs IH]; intros x Hnd; simpl.
  - split; [assumption|]. split.
    + intros v. split; [auto|]. intros [H|H]; [assumption | inversion H].
    + exists []. split; [now rewrite app_nil_r | constructor].
  - destruct (IH (add_assignment v x)) as (Hnd' & Hin & r & Hr & Hsub).
    { simpl. case_bool_decide as E; [assumption|].
      apply NoDup_app. split; [assumption|]. split; [|apply NoDup_singleton].
      intros y Hy Hy'. apply list_elem_of_singleton in Hy'. subst. contradiction. }
    split; [assumption|]. split.
    + intros y. rewrite Hin. simpl. rewrite elem_of_cons.
      case_bool_decide as E.
      * split; [tauto|]. intros [H|[->|H]]; auto.
      * rewrite elem_of_app, list_elem_of_singleton. tauto.
    + rewrite Hr. simpl. case_bool_decide as E.
      * exists r. split; [reflexivity|]. now apply sublist_cons.
      * exists (v :: r). split; [now rewrite <- app_assoc|]. now apply sublist_skip.
Qed.

Lemma dname_lower (d : Dependency) : lower (dname d) = dname d.
Proof. apply lower_idemp. Qed.

Lemma dict_keys_set {V} (k : string) (v : V) (d : dict V) :
  dict_keys (dict_set k v d)
  = if dict_mem k d then dict_keys d else dict_keys d ++ [k].
Proof.
  unfold dict_mem, dict_keys. induction d as [|[k0 v0] d IH]; [reflexivity|].
  cbn [dict_set dict_get]. destruct (decide (k0 = k)); [reflexivity|].
  rewrite !fmap_cons, IH. destruct (dict_get k d); reflexivity.
Qed.

Lemma dict_keys_set_NoDup {V} (k : string) (v : V) (d : dict V) :
  NoDup (dict_keys d) -> NoDup (dict_keys (dict_set k v d)).
Proof.
  intros Hnd. rewrite dict_keys_set. destruct (dict_mem k d) eqn:E; [assumption|].
  apply NoDup_app. split; [assumption|]. split; [|apply NoDup_singleton].
  intros y Hy Hy'. apply list_elem_of_singleton in Hy'. subst y.
  apply dict_key_get in Hy as [w Hw]. apply dict_mem_false in E. congruence.
Qed.

Lemma concat_values_set {V} (k : string) (l : list V) (v : V) (d : dict (list V)) :
  dict_get k d = Some l ->
  concat (dict_values (dict_set k (l ++ [v]) d)) ≡ₚ concat (dict_values d) ++ [v].
Proof.
  unfold dict_values. induction d as [|[k0 l0] d IH]; [discriminate|].
  cbn [dict_set dict_get]. destruct (decide (k0 = k)) as [->|Hne].
  - intros [= ->]. rewrite !fmap_cons. cbn [concat snd]. rewrite <- !app_assoc.
    apply Permutation_app_head, Permutation_app_comm.
  - intros H. rewrite !fmap_cons. cbn [concat snd]. rewrite (IH H), app_assoc.
    reflexivity.
Qed.

Lemma dependency_list_concat (x : Executable) :
  NoDup (dict_keys (dependencies x)) ->
  dependency_list x = concat (dict_values (dependencies x)).
Proof.
  unfold dependency_list. generalize (dependencies x) as d.
  unfold dict_keys, dict_values.
  induction d as [|[k0 l0] d IH]; intros Hnd; [reflexivity|].
  rewrite fmap_cons in Hnd. cbn [fst] in Hnd. apply NoDup_cons in Hnd as [Hk0 Hnd].
  rewrite !fmap_cons. cbn [fst snd flat_map concat dict_get].
  destruct (decide (k0 = k0)); [|contradiction]. f_equal.
  rewrite <- (IH Hnd). clear IH.
  assert (Hall : forall k, k ∈ d.*1 -> k0 <> k) by (intros k Hk ->; contradiction).
  revert Hall. generalize (d.*1) as ks.
  induction ks as [|k ks IH]; intros Hall; [reflexivity|].
  cbn [flat_map]. destruct (decide (k0 = k)) as [->|Hne].
  - exfalso. apply (Hall k); [apply list_elem_of_here | reflexivity].
  - f_equal. apply IH. intros k' Hk'. apply Hall, list_elem_of_further, Hk'.
Qed.

(** What [add_dependency] maintains, [seen] being the dependencies added so
    far. *)
Lemma add_dependency_step (d : Dependency) (x : Executable) (seen : list Dependency) :
  NoDup (dict_keys (dependencies x)) ->
  (forall k l, dict_get k (dependencies x) = Some l ->
               l <> [] /\ l = filter (fun d => dname d = k) seen) ->
  (forall d', d' ∈ seen -> dict_mem (dname d') (dependencies x) = true) ->
  concat (dict_values (dependencies x)) ≡ₚ seen ->
  exists x', add_dependency d x = Ok x' /\
    NoDup (dict_keys (dependencies x')) /\
    (forall k l, dict_get k (dependencies x') = Some l ->
                 l <> [] /\ l = filter (fun d => dname d = k) (seen ++ [d])) /\
    (forall d', d' ∈ seen ++ [d] -> dict_mem (dname d') (dependencies x') = true) /\
    concat (dict_values (dependencies x')) ≡ₚ seen ++ [d].
Proof.
  intros Hnd Hgrp Hmem Hperm. unfold add_dependency. rewrite dname_lower.
  assert (Hfilter : forall k,
    filter (fun d' => dname d' = k) (seen ++ [d])
    = filter (fun d' => dname d' = k) seen ++ (if decide (dname d = k) then [d] else [])).
  { intros k. rewrite filter_app. f_equal. }
  destruct (dict_get (dname d) (dependencies x)) as [l|] eqn:G.
  - rewrite (proj2 (dict_mem_get _ _) (ex_intro _ l G)).
    unfold dict_item. rewrite G. simpl.
    eexists. split; [reflexivity|]. simpl.
    split; [now apply dict_keys_set_NoDup|]. split; [|split].
    + intros k l'. rewrite dict_get_set, Hfilter.
      destruct (decide (dname d = k)) as [<-|Hne].
      * intros [= <-]. split; [now destruct l|].
        f_equal. apply (Hgrp _ _ G).
      * intros H. rewrite app_nil_r. now apply Hgrp.
    + intros d' Hd'. apply dict_mem_get. rewrite dict_get_set.
      destruct (decide (dname d = dname d')); [eauto|].
      apply dict_mem_get, Hmem.
      apply elem_of_app in Hd' as [H|H]; [assumption|].
      apply list_elem_of_singleton in H. congruence.
    + rewrite (concat_values_set _ _ _ _ G). now rewrite Hperm.
  - rewrite (proj2 (dict_mem_false _ _) G).
    eexists. split; [reflexivity|]. simpl.
    split; [now apply dict_keys_set_NoDup|]. split; [|split].
    + intros k l'. rewrite dict_get_set, Hfilter.
      destruct (decide (dname d = k)) as [<-|Hne].
      * intros [= <-]. split; [discriminate|].
        assert (Hnone : filter (fun d' => dname d' = dname d) seen = []).
        { destruct (filter (fun d' => dname d' = dname d) seen) as [|d0 r] eqn:F;
            [reflexivity|].
          assert (Hd0 : d0 ∈ filter (fun d' => dname d' = dname d) seen)
            by (rewrite F; apply list_elem_of_here).
          apply list_elem_of_filter in Hd0 as [Hn Hd0].
          apply Hmem, dict_mem_get in Hd0 as [w Hw]. congruence. }
        now rewrite Hnone.
      * intros H. rewrite app_nil_r. now apply Hgrp.
    + intros d' Hd'. apply dict_mem_get. rewrite dict_get_set.
      destruct (decide (dname d = dname d')); [eauto|].
      apply dict_mem_get, Hmem.
      apply elem_of_app in Hd' as [H|H]; [assumption|].
      apply list_elem_of_singleton in H. congruence.
    + rewrite dict_set_fresh by assumption.
      unfold dict_values. rewrite fmap_app, concat_app. simpl.
      now rewrite Hperm.
Qed.

Lemma with_dependencies_spec (ds : list Dependency) :
  forall (x : Executable) (seen : list Dependency),
    NoDup (dict_keys (dependencies x)) ->
    (forall k l, dict_get k (dependencies x) = Some l ->
                 l <> [] /\ l = filter (fun d => dname d = k) seen) ->
    (forall d', d' ∈ seen -> dict_mem (dname d') (dependencies x) = true) ->
    concat (dict_values (dependencies x)) ≡ₚ seen ->
    exists x', with_dependencies ds x = Ok x' /\
      NoDup (dict_keys (dependencies x')) /\
      (forall k l, dict_get k (dependencies x') = Some l ->
                   l <> [] /\ l = filter (fun d => dname d = k) (seen ++ ds)) /\
      concat (dict_values (dependencies x')) ≡ₚ seen ++ ds.
Proof.
  induction ds as [|d ds IH]; intros x seen Hnd Hgrp Hmem Hperm; simpl.
  - exists x. rewrite app_nil_r. auto.
  - destruct (add_dependency_step d x seen Hnd Hgrp Hmem Hperm)
      as (x1 & -> & Hnd1 & Hgrp1 & Hmem1 & Hperm1).
    simpl. destruct (IH x1 (seen ++ [d]) Hnd1 Hgrp1 Hmem1 Hperm1)
      as (x' & Hx' & H1 & H2 & H3).
    exists x'. rewrite <- app_assoc in H2, H3. auto.
Qed.

End Grouping.

(** X17. Assignments are recorded once: after [add_assignment(v)] for the
    values of [vs], in order, on a new executable, [_assignments] holds no
    value twice, holds exactly the values of [vs], and is the list of the
    values of [vs] in the order of their first occurrence: each value once,
    at the place where it occurs first in [vs]. *)
Theorem add_assignment_records_once (vs : list string) (nm : string)
    (m : option Calls.ModuleRef) :
  let x := Calls.with_assignments vs (Calls.new_executable nm m) in
  NoDup (Calls._assignments x) /\
  (forall v, v ∈ Calls._assignments x <-> v ∈ vs) /\
  sublist (Calls._assignments x) vs /\
  Calls._assignments x = first_occurrences vs.
Proof.
  intros x.
  destruct (with_assignments_spec vs (Calls.new_executable nm m))
    as (Hnd & Hin & r & Hr & Hsub); [constructor|].
  fold x in Hnd, Hin, Hr. split; [assumption|]. split; [|split].
  - intros v. rewrite Hin. simpl. split; [|auto].
    intros [H|H]; [inversion H | assumption].
  - rewrite Hr. exact Hsub.
  - unfold x. rewrite with_assignments_order. simpl. apply filter_notin_nil.
Qed.

(** X18. Calls are grouped by lower-cased name: [add_dependency(d)] for the
    dependencies of [ds], in order, on a new executable raises no
    [KeyError]; afterwards each key of [dependencies] holds the non-empty
    list of the dependencies of [ds] with that lower-cased name, in the
    order they were added, and the dependencies visited by [changed] are
    those of [ds], each as often as it was added. *)
Theorem add_dependency_groups_by_name (ds : list Calls.Dependency) (nm : string)
    (m : option Calls.ModuleRef) :
  exists x, Calls.with_dependencies ds (Calls.new_executable nm m) = Ok x /\
    (forall k l, dict_get k (Calls.dependencies x) = Some l ->
                 l <> [] /\ l = filter (fun d => Calls.dname d = k) ds) /\
    Calls.dependency_list x ≡ₚ ds.
Proof.
  destruct (with_dependencies_spec ds (Calls.new_executable nm m) [])
    as (x & Hx & Hnd & Hgrp & Hperm); simpl.
  - constructor.
  - intros k l. discriminate.
  - intros d Hd. inversion Hd.
  - reflexivity.
  - exists x. split; [assumption|]. split; [exact Hgrp|].
    now rewrite dependency_list_concat.
Qed.

Section Blame.

Import Calls.

Variable reg : registry.

Lemma lower_empty (s : string) : lower s = "" -> s = "".
Proof. destruct s; [reflexivity | discriminate]. Qed.

Lemma dotted_nonempty (a b : string) : a +:+ "." +:+ b <> "".
Proof. destruct a; discriminate. Qed.

Lemma external_name_nonempty (d : Dependency) (ename : string) :
  external_name d = Ok ename -> ename <> "".
Proof.
  unfold external_name. destruct (dmodule d); [|discriminate].
  intros [= <-]. apply dotted_nonempty.
Qed.

Lemma myname_nonempty (x : Executable) (me : string) :
  myname x = Ok me -> me <> "".
Proof.
  unfold myname. destruct (xmodule x); [|discriminate].
  intros [= <-] H. apply lower_empty in H. now apply dotted_nonempty in H.
Qed.

Lemma changed_loop_inl rec (att : bool) (deps : list Dependency) :
  forall c v c',
    changed_loop rec reg att deps c = Some (Ok (inl (v, c'))) ->
    exists d ename, d ∈ deps /\ external_name d = Ok ename /\ v = PStr ename.
Proof.
  induction deps as [|d deps IH]; intros c v c'; simpl; [discriminate|].
  destruct (external_name d) as [ename|e] eqn:E; [|discriminate].
  destruct att; simpl; [|discriminate].
  assert (Hrest : forall c0,
    changed_loop rec reg true deps c0 = Some (Ok (inl (v, c'))) ->
    exists d0 ename0, d0 ∈ d :: deps /\ external_name d0 = Ok ename0 /\ v = PStr ename0).
  { intros c0 H. apply IH in H as (d0 & e0 & Hd0 & He0 & Hv).
    exists d0, e0. split; [now apply list_elem_of_further | auto]. }
  destruct (get_executable reg ename) as [iexec|]; [|apply Hrest].
  destruct (rec iexec c) as [[[v1 c1]|e]|]; try discriminate.
  case_bool_decide; [|apply Hrest].
  intros [= <- <-]. exists d, ename. split; [apply list_elem_of_here | auto].
Qed.

Lemma changed_never_empty (symbol : string) (fuel : nat) (self : Executable)
    (checked : list string) (v : pyval) (checked' : list string) :
  changed fuel reg self symbol checked = Some (Ok (v, checked')) -> v <> PStr "".
Proof.
  destruct fuel as [|fuel]; [discriminate|]. simpl.
  destruct (myname self) as [me|e] eqn:Hme; [|discriminate].
  case_bool_decide; [intros [= <- <-]; discriminate|].
  assert (Hloop :
    match changed_loop (fun iexec c => changed fuel reg iexec symbol c) reg
            (attached self) (dependency_list self) (checked ++ [me]) with
    | Some (Ok (inl r)) => Some (Ok r)
    | Some (Ok (inr checked'0)) => Some (Ok (PNone, checked'0))
    | Some (Raise e) => Some (Raise e)
    | None => None
    end = Some (Ok (v, checked')) -> v <> PStr "").
  { destruct (changed_loop _ reg _ _ _) as [[[[v1 c1]|c1]|e]|] eqn:L; try discriminate.
    - intros [= <- <-]. apply changed_loop_inl in L as (d & ename & _ & He & ->).
      intros [= ->]. now apply external_name_nonempty in He.
    - intros [= <- <-]. discriminate. }
  destruct (_get_assignments_in self (_parameters self) symbol); [|exact Hloop..].
  intros [= <- <-] [= Hempty]. now apply myname_nonempty in Hme.
Qed.

Lemma changed_loop_first rec (att : bool) (pre : list Dependency) (d : Dependency)
    (post : list Dependency) (ename : string) :
  (forall x c v c', rec x c = Some (Ok (v, c')) -> v <> PStr "") ->
  (forall d' e', d' ∈ pre -> external_name d' = Ok e' -> get_executable reg e' = None) ->
  external_name d = Ok ename -> get_executable reg ename <> None ->
  forall c r, changed_loop rec reg att (pre ++ d :: post) c = Some (Ok r) ->
              exists c', r = inl (PStr ename, c').
Proof.
  intros Hrec Hpre Hd Hknown. induction pre as [|d0 pre IH]; intros c r; simpl.
  - rewrite Hd. destruct att; simpl; [|discriminate].
    destruct (get_executable reg ename) as [iexec|]; [|contradiction].
    destruct (rec iexec c) as [[[v1 c1]|e]|] eqn:R; try discriminate.
    rewrite bool_decide_eq_true_2 by (eapply Hrec; exact R).
    intros [= <-]. eauto.
  - destruct (external_name d0) as [e0|e] eqn:E0; [|discriminate].
    destruct att; simpl; [|discriminate].
    rewrite (Hpre d0 e0 (list_elem_of_here _ _) E0).
    apply IH. intros d' e' Hd'. apply Hpre, list_elem_of_further, Hd'.
Qed.

Lemma changed_loop_unknown rec (att : bool) (deps : list Dependency) :
  (forall d e, d ∈ deps -> external_name d = Ok e -> get_executable reg e = None) ->
  forall c r, changed_loop rec reg att deps c = Some (Ok r) ->
              exists enames, r = inr (c ++ enames) /\
                             Forall2 (fun d e => external_name d = Ok e) deps enames.
Proof.
  induction deps as [|d deps IH]; intros Hnone c r; simpl.
  - intros [= <-]. exists []. split; [now rewrite app_nil_r | constructor].
  - destruct (external_name d) as [e0|e] eqn:E0; [|discriminate].
    destruct att; simpl; [|discriminate].
    rewrite (Hnone d e0 (list_elem_of_here _ _) E0).
    intros H. apply IH in H as (enames & -> & Hall).
    + exists (e0 :: enames). split; [now rewrite <- app_assoc | now constructor].
    + intros d' e' Hd'. apply Hnone, list_elem_of_further, Hd'.
Qed.

End Blame.

(** X19. Whom [changed] names: it never returns the empty string, so the
    test on the result of a recursive call never fails.  When a call on an
    executable that is not in [checked] returns a value and has not found
    the symbol among the assignments of the executable itself, the value is
    the external name of the first dependency that the registry knows,
    whatever the symbol and whatever that dependency assigns; it is [None],
    with the executable and all its dependencies recorded in [checked], when
    the registry knows none of them. *)
Theorem changed_names_first_known_dependency (fuel : nat) (reg : Calls.registry)
    (self : Calls.Executable) (symbol : string) (checked : list string)
    (v : Calls.pyval) (checked' : list string) (me : string) :
  Calls.myname self = Ok me -> me ∉ checked ->
  Calls._get_assignments_in self (Calls._parameters self) symbol <> Calls.ATrue ->
  Calls.changed fuel reg self symbol checked = Some (Ok (v, checked')) ->
  v <> Calls.PStr "" /\
  ((forall d e, d ∈ Calls.dependency_list self -> Calls.external_name d = Ok e ->
                Calls.get_executable reg e = None) ->
   v = Calls.PNone /\
   exists enames, checked' = checked ++ me :: enames /\
     Forall2 (fun d e => Calls.external_name d = Ok e)
       (Calls.dependency_list self) enames) /\
  (forall pre d post ename,
     Calls.dependency_list self = pre ++ d :: post ->
     (forall d' e', d' ∈ pre -> Calls.external_name d' = Ok e' ->
                    Calls.get_executable reg e' = None) ->
     Calls.external_name d = Ok ename ->
     Calls.get_executable reg ename <> None ->
     v = Calls.PStr ename).
Proof.
  intros Hme Hnot Hassign H.
  split; [eapply changed_never_empty; exact H|].
  destruct fuel as [|fuel]; [discriminate|]. simpl in H.
  rewrite Hme, (bool_decide_eq_false_2 _ Hnot) in H.
  assert (Hloop :
    match Calls.changed_loop (fun iexec c => Calls.changed fuel reg iexec symbol c) reg
            (Calls.attached self) (Calls.dependency_list self) (checked ++ [me]) with
    | Some (Ok (inl r)) => Some (Ok r)
    | Some (Ok (inr checked'0)) => Some (Ok (Calls.PNone, checked'0))
    | Some (Raise e) => Some (Raise e)
    | None => None
    end = Some (Ok (v, checked'))).
  { destruct (Calls._get_assignments_in self (Calls._parameters self) symbol);
      [contradiction | exact H | exact H]. }
  clear H.
  destruct (Calls.changed_loop _ reg _ _ _) as [[r|e]|] eqn:L; try discriminate.
  split.
  - intros Hnone.
    apply changed_loop_unknown in L as (enames & Hr & Hall); [|exact Hnone].
    subst r. injection Hloop as <- <-. split; [reflexivity|].
    exists enames. split; [now rewrite <- app_assoc | assumption].
  - intros pre d post ename Hsplit Hpre Hd Hknown. rewrite Hsplit in L.
    eapply changed_loop_first in L as [c' Hr]; try eassumption.
    + subst r. injection Hloop as <- <-. reflexivity.
    + intros x c v0 c0. apply changed_never_empty.
Qed.

Lemma changed_names_first_known_dependency_witness :
  Calls.PStr "m.b" <> Calls.PStr "" /\
  ((forall d e, d ∈ Calls.dependency_list Calls.ex_a -> Calls.external_name d = Ok e ->
                Calls.get_executable Calls.ex_registry e = None) ->
   Calls.PStr "m.b" = Calls.PNone /\
   exists enames, ["m.a"; "m.b"] = [] ++ "m.a" :: enames /\
     Forall2 (fun d e => Calls.external_name d = Ok e)
       (Calls.dependency_list Calls.ex_a) enames) /\
  (forall pre d post ename,
     Calls.dependency_list Calls.ex_a = pre ++ d :: post ->
     (forall d' e', d' ∈ pre -> Calls.external_name d' = Ok e' ->
                    Calls.get_executable Calls.ex_registry e' = None) ->
     Calls.external_name d = Ok ename ->
     Calls.get_executable Calls.ex_registry ename <> None ->
     Calls.PStr "m.b" = Calls.PStr ename).
Proof.
  apply (changed_names_first_known_dependency 3 Calls.ex_registry Calls.ex_a "x" []
           (Calls.PStr "m.b") ["m.a"; "m.b"] "m.a").
  - reflexivity.
  - intros H. inversion H.
  - vm_compute. discriminate.
  - reflexivity.
Defined.

(** ** The owner of a position *)

Section Owner.

Import Layout.

Lemma bind_eq {A B} (c : M A) (k : A -> M B) (st st1 : State) (a : A) :
  c st = Ok (a, st1) -> bind c k st = k a st1.
Proof. intros H. unfold bind. now rewrite H. Qed.

Lemma scan_latest_spec (d : dict oid) (ichar : Z) (st : State) (keys : list string) :
  (forall k, k ∈ keys -> exists o e, dict_get k d = Some o /\ heap st !! o = Some e) ->
  forall maxstart tempresult,
  exists r, scan_latest d ichar keys maxstart tempresult st = Ok (r, st) /\
    ((r = tempresult /\
      forall k a, k ∈ keys -> starts_by st d ichar k a -> a <= maxstart) \/
     exists k o e keys1 keys2,
       keys = keys1 ++ k :: keys2 /\ r = Some o /\
       dict_get k d = Some o /\ heap st !! o = Some e /\
       maxstart < absstart e <= ichar /\
       (forall k' a, k' ∈ keys1 -> starts_by st d ichar k' a ->
                     a < absstart e) /\
       (forall k' a, k' ∈ keys2 -> starts_by st d ichar k' a ->
                     a <= absstart e)).
Proof.
  induction keys as [|t keys IH]; intros Hres maxstart tempresult.
  - exists tempresult. split; [reflexivity|]. left. split; [reflexivity|].
    intros k a Hk. inversion Hk.
  - destruct (Hres t (list_elem_of_here _ _)) as (o & e & Hget & Hheap).
    assert (Hres' : forall k, k ∈ keys ->
                      exists o e, dict_get k d = Some o /\ heap st !! o = Some e).
    { intros k Hk. apply Hres, list_elem_of_further, Hk. }
    specialize (IH Hres').
    assert (Ht : forall a, starts_by st d ichar t a -> a = absstart e /\ a <= ichar).
    { intros a (o' & e' & Hg & Hh & Ha & Hle).
      assert (o' = o) by congruence. subst o'.
      assert (e' = e) by congruence. subst e'. auto. }
    cbn [scan_latest].
    rewrite (bind_eq _ _ st st o) by (unfold lift, dict_item; now rewrite Hget).
    rewrite (bind_eq _ _ st st e) by (unfold read; now rewrite Hheap).
    destruct ((ichar >=? absstart e) && (absstart e >? maxstart)) eqn:C.
    + apply andb_true_iff in C as [C1 C2].
      apply Z.geb_le in C1. apply Z.gtb_lt in C2.
      destruct (IH (absstart e) (Some o)) as (r & Hr & [[-> Hnone]|Hlater]).
      * exists (Some o). split; [assumption|]. right.
        exists t, o, e, [], keys. repeat split; auto; try lia.
        intros k' a Hk'. inversion Hk'.
      * destruct Hlater as (k & o1 & e1 & keys1 & keys2 & -> & -> & Hg1 & Hh1 & Hrange
                            & Hbefore & Hafter).
        exists (Some o1). split; [assumption|]. right.
        exists k, o1, e1, (t :: keys1), keys2. repeat split; auto; try lia.
        intros k' a Hk' Hs. apply elem_of_cons in Hk' as [->|Hk'].
        -- apply Ht in Hs as [-> _]. lia.
        -- eapply Hbefore; eassumption.
    + destruct (IH maxstart tempresult) as (r & Hr & [[-> Hnone]|Hlater]).
      * exists tempresult. split; [assumption|]. left. split; [reflexivity|].
        intros k a Hk Hs. apply elem_of_cons in Hk as [->|Hk].
        -- apply Ht in Hs as [-> Hle].
           apply andb_false_iff in C as [C|C].
           ++ destruct (Z.geb_spec ichar (absstart e)); [discriminate | lia].
           ++ destruct (Z.gtb_spec (absstart e) maxstart); [discriminate | lia].
        -- eapply Hnone; eassumption.
      * destruct Hlater as (k & o1 & e1 & keys1 & keys2 & -> & -> & Hg1 & Hh1 & Hrange
                            & Hbefore & Hafter).
        exists (Some o1). split; [assumption|]. right.
        exists k, o1, e1, (t :: keys1), keys2. repeat split; auto; try lia.
        intros k' a Hk' Hs. apply elem_of_cons in Hk' as [->|Hk'].
        -- apply Ht in Hs as [-> Hle].
           apply andb_false_iff in C as [C|C].
           ++ destruct (Z.geb_spec ichar (absstart e)); [discriminate | lia].
           ++ destruct (Z.gtb_spec (absstart e) maxstart); [discriminate | lia].
        -- eapply Hbefore; eassumption.
Qed.

Lemma scan_members_spec (d : dict oid) (ichar : Z) (st : State) (keys : list string) :
  (forall k, k ∈ keys -> exists o e, dict_get k d = Some o /\ heap st !! o = Some e) ->
  exists r, scan_members d ichar keys st = Ok (r, st) /\
    match r with
    | Some o => exists k e, dict_get k d = Some o /\ heap st !! o = Some e /\
                            start e <= ichar <= end_ e
    | None => forall k o e, k ∈ keys -> dict_get k d = Some o -> heap st !! o = Some e ->
                            ~ (start e <= ichar <= end_ e)
    end.
Proof.
  induction keys as [|m keys IH]; intros Hres.
  - exists None. split; [reflexivity|]. intros k o e Hk. inversion Hk.
  - destruct (Hres m (list_elem_of_here _ _)) as (o & e & Hget & Hheap).
    cbn [scan_members].
    rewrite (bind_eq _ _ st st o) by (unfold lift, dict_item; now rewrite Hget).
    rewrite (bind_eq _ _ st st e) by (unfold read; now rewrite Hheap).
    destruct ((ichar >=? start e) && (ichar <=? end_ e)) eqn:C.
    + apply andb_true_iff in C as [C1 C2].
      apply Z.geb_le in C1. apply Z.leb_le in C2.
      exists (Some o). split; [reflexivity|]. exists m, e. repeat split; auto.
    + destruct IH as (r & Hr & Hspec).
      { intros k Hk. apply Hres, list_elem_of_further, Hk. }
      exists r. split; [assumption|]. destruct r as [o1|]; [assumption|].
      intros k o' e' Hk Hg Hh. apply elem_of_cons in Hk as [->|Hk].
      * assert (o' = o) by congruence. subst o'.
        assert (e' = e) by congruence. subst e'.
        apply andb_false_iff in C as [C|C].
        -- destruct (Z.geb_spec ichar (start e)); [discriminate | lia].
        -- destruct (Z.leb_spec ichar (end_ e)); [discriminate | lia].
      * eapply Hspec; eassumption.
Qed.

Lemma resolved_keys (st : State) (d : dict oid) :
  resolved st = true ->
  d = m_types (this st) \/ d = m_members (this st) \/ d = m_executables (this st) ->
  forall k, k ∈ dict_keys d -> exists o e, dict_get k d = Some o /\ heap st !! o = Some e.
Proof.
  unfold resolved. rewrite forallb_forall. intros Hres Hd k Hk.
  apply dict_key_get in Hk as [o Ho]. exists o.
  assert (Hin : o ∈ dict_values (m_types (this st)) ++ dict_values (m_members (this st))
                  ++ dict_values (m_executables (this st))).
  { apply dict_get_values in Ho. rewrite !elem_of_app.
    destruct Hd as [->|[->| ->]]; auto. }
  apply list_elem_of_In, Hres, bool_decide_eq_true in Hin as [e He]. eauto.
Qed.

Lemma decorated_search (incomplete : oid -> bool) (st : State) (d : dict oid) (ichar : Z) :
  (forall k, k ∈ dict_keys d -> exists o e, dict_get k d = Some o /\ heap st !! o = Some e) ->
  exists r,
    bind (scan_latest d ichar (dict_keys d) 0 None) (accept incomplete ichar) st
    = Ok (r, st) /\
    decorated_owner incomplete st d ichar r.
Proof.
  intros Hres.
  destruct (scan_latest_spec d ichar st (dict_keys d) Hres 0 None)
    as (t & Ht & [[-> Hnone]|Hlatest]).
  - exists None. rewrite (bind_eq _ _ _ _ _ Ht). split; [reflexivity|]. now left.
  - destruct Hlatest as (k & o & e & keys1 & keys2 & Hk & -> & Hg & Hh & Hrange & Hb & Ha).
    rewrite (bind_eq _ _ _ _ _ Ht). unfold accept.
    rewrite (bind_eq _ _ st st e) by (unfold read; now rewrite Hh).
    assert (Hlatest : latest_of st d ichar o e).
    { exists k, keys1, keys2. repeat split; auto; lia. }
    destruct ((ichar <=? end_ e) || incomplete o) eqn:C.
    + exists (Some o). split; [reflexivity|]. exists e. split; [assumption|].
      apply orb_true_iff in C as [C|C]; [left; now apply Z.leb_le | now right].
    + exists None. split; [reflexivity|]. right. exists o, e. split; [assumption|].
      apply orb_false_iff in C as [C1 C2]. apply Z.leb_gt in C1.
      intros [H|H]; [lia | congruence].
Qed.

End Owner.

(** X20. Whom [get_element] finds.  When every reference of the module
    resolves and [charindex(line, column)] and [contains_index] return the
    offset [ichar] and the boundary [icontains], [get_element] returns, and
    leaves the state those two calls leave.  On a line before the boundary it
    answers with the type that starts last at or before [ichar] (by
    [absstart], the first such type in dictionary order), when that type
    starts after offset 0 and reaches [ichar] or is incomplete; otherwise
    with a member whose span holds [ichar]; otherwise with the module.  From
    the boundary on it answers with the executable found in the same way, or
    with the module.  A type or executable that starts at offset 0 is never
    the answer. *)
Theorem get_element_owner (incomplete : Layout.oid -> bool) (line column : Z)
    (st st1 st2 : Layout.State) (ichar icontains : Z) :
  Layout.resolved st = true ->
  Layout.charindex line column st = Ok (ichar, st1) ->
  Layout.contains_index st1 = Ok (icontains, st2) ->
  exists r, Layout.get_element incomplete line column st = Ok (r, st2) /\
            Layout.owner_of incomplete st (line <? icontains) ichar r.
Proof.
  intros Hres Hc Hci.
  pose proof (charindex_frame _ _ _ _ _ Hc) as (Hh1 & Ht1 & Hm1 & Hx1).
  pose proof (contains_index_frame _ _ _ Hci) as (Hh2 & Ht2 & Hm2 & Hx2).
  assert (Hheap : Layout.heap st2 = Layout.heap st) by congruence.
  assert (Htypes : Layout.m_types (Layout.this st2) = Layout.m_types (Layout.this st))
    by congruence.
  assert (Hmembers : Layout.m_members (Layout.this st2) = Layout.m_members (Layout.this st))
    by congruence.
  assert (Hexecs : Layout.m_executables (Layout.this st2)
                   = Layout.m_executables (Layout.this st)) by congruence.
  assert (Hkeys : forall d,
    d = Layout.m_types (Layout.this st) \/ d = Layout.m_members (Layout.this st) \/
    d = Layout.m_executables (Layout.this st) ->
    forall k, k ∈ dict_keys d ->
      exists o e, dict_get k d = Some o /\ Layout.heap st2 !! o = Some e).
  { intros d Hd k Hk. rewrite Hheap. eapply resolved_keys; eassumption. }
  assert (Hsame : forall d r, Layout.decorated_owner incomplete st2 d ichar r ->
                              Layout.decorated_owner incomplete st d ichar r).
  { unfold Layout.decorated_owner, Layout.latest_of, Layout.starts_by.
    rewrite Hheap. auto. }
  unfold Layout.get_element.
  rewrite (bind_eq _ _ _ _ _ Hc), (bind_eq _ _ _ _ _ Hci).
  rewrite (bind_eq _ _ st2 st2 (Layout.this st2)) by reflexivity.
  rewrite Htypes, Hmembers, Hexecs. unfold Layout.owner_of.
  destruct (line <? icontains).
  - destruct (decorated_search incomplete st2 (Layout.m_types (Layout.this st)) ichar)
      as (r & Hr & Hspec); [apply Hkeys; auto|].
    apply Hsame in Hspec. unfold Layout.bind in Hr |- *.
    destruct (Layout.scan_latest _ _ _ _ _ st2) as [[t st3]|]; [|discriminate].
    rewrite Hr. destruct r as [o|].
    + exists (Layout.FoundElement o). split; [reflexivity|]. now left.
    + destruct (scan_members_spec (Layout.m_members (Layout.this st)) ichar st2
                  (dict_keys (Layout.m_members (Layout.this st))))
        as (r & -> & Hmem); [apply Hkeys; auto|].
      rewrite Hheap in Hmem. destruct r as [o|].
      * exists (Layout.FoundElement o). split; [reflexivity|]. right.
        split; [assumption|]. exact Hmem.
      * exists Layout.FoundModule. split; [reflexivity|]. split; [assumption|].
        intros o (k & e & Hg & Hh & Hspan).
        exact (Hmem k o e (dict_get_key _ _ _ Hg) Hg Hh Hspan).
  - destruct (decorated_search incomplete st2 (Layout.m_executables (Layout.this st)) ichar)
      as (r & Hr & Hspec); [apply Hkeys; auto|].
    apply Hsame in Hspec. unfold Layout.bind in Hr |- *.
    destruct (Layout.scan_latest _ _ _ _ _ st2) as [[t st3]|]; [|discriminate].
    rewrite Hr. destruct r as [o|].
    + exists (Layout.FoundElement o). split; [reflexivity|]. assumption.
    + exists Layout.FoundModule. split; [reflexivity|]. assumption.
Qed.

Lemma get_element_owner_witness :
  let st1 := Layout.state_after (Layout.bind (Layout.charindex 6 6) (fun _ => Layout.ret tt))
               Layout.ex_state in
  let st2 := Layout.state_after (Layout.bind Layout.contains_index (fun _ => Layout.ret tt))
               st1 in
  exists r, Layout.get_element (fun _ => false) 6 6 Layout.ex_state = Ok (r, st2) /\
            Layout.owner_of (fun _ => false) Layout.ex_state (6 <? 4) 63 r.
Proof.
  intros st1 st2.
  apply (get_element_owner (fun _ => false) 6 6 Layout.ex_state st1 st2 63 4);
    reflexivity.
Defined.

(** ** Modifiers, needed modules and docstrings *)

Lemma remove_first_filter_ne (x : string) (l : list string) :
  filter (fun y => y <> x) (Calls.remove_first x l) = filter (fun y => y <> x) l.
Proof.
  induction l as [|y l IH]; [reflexivity|].
  simpl. destruct (decide (y = x)) as [->|Hne].
  - rewrite filter_cons_False by (intros H; now apply H). reflexivity.
  - rewrite !filter_cons_True by assumption. now rewrite IH.
Qed.

Lemma remove_first_filter_eq (x : string) (l : list string) :
  x ∈ l ->
  S (length (filter (fun y => y = x) (Calls.remove_first x l)))
  = length (filter (fun y => y = x) l).
Proof.
  induction l as [|y l IH]; intros Hx; [inversion Hx|].
  simpl. destruct (decide (y = x)) as [->|Hne].
  - rewrite filter_cons_True by reflexivity. reflexivity.
  - rewrite !filter_cons_False by assumption.
    apply elem_of_cons in Hx as [->|Hx]; [contradiction | auto].
Qed.

Lemma filter_eq_nil_notin (x : string) (l : list string) :
  x ∉ l -> filter (fun y => y = x) l = [].
Proof.
  induction l as [|y l IH]; intros Hx; [reflexivity|].
  apply not_elem_of_cons in Hx as [Hne Hx].
  rewrite filter_cons_False by congruence. auto.
Qed.

Lemma remove_first_split (x : string) (l : list string) :
  x ∈ l ->
  exists l1 l2, l = l1 ++ x :: l2 /\ (x ∉ l1) /\ Calls.remove_first x l = l1 ++ l2.
Proof.
  induction l as [|y l IH]; intros Hx; [inversion Hx|].
  simpl. destruct (decide (y = x)) as [->|Hne].
  - exists [], l. split; [reflexivity|]. split; [intros H; inversion H | reflexivity].
  - apply elem_of_cons in Hx as [->|Hx]; [contradiction|].
    destruct (IH Hx) as (l1 & l2 & -> & Hl1 & ->).
    exists (y :: l1), l2. split; [reflexivity|]. split; [|reflexivity].
    apply not_elem_of_cons. split; [congruence | assumption].
Qed.

(** X21. [clean_mods] removes one empty modifier, the first, not all of
    them.  When the list holds an empty entry, the result is the list
    without its first empty entry: the entries before it and the entries
    after it, in order; otherwise the result is the list itself.  So the
    modifiers that are not empty are kept, in order, the number of empty
    entries goes down by one, or stays zero, and an empty entry is left
    exactly when the list held two or more. *)
Theorem clean_mods_removes_first_only (modifiers : list string) :
  ("" ∈ modifiers ->
   exists l1 l2, modifiers = l1 ++ "" :: l2 /\ ("" ∉ l1) /\
                 clean_mods modifiers = l1 ++ l2) /\
  ("" ∉ modifiers -> clean_mods modifiers = modifiers) /\
  filter (fun m => m <> "") (clean_mods modifiers) = filter (fun m => m <> "") modifiers /\
  length (filter (fun m => m = "") (clean_mods modifiers))
  = Nat.pred (length (filter (fun m => m = "") modifiers)) /\
  ("" ∈ clean_mods modifiers <->
   (2 <= length (filter (fun m => m = "") modifiers))%nat).
Proof.
  split.
  { intros Hin. unfold clean_mods. rewrite (bool_decide_eq_true_2 _ Hin).
    now apply remove_first_split. }
  split.
  { intros Hout. unfold clean_mods. now rewrite (bool_decide_eq_false_2 _ Hout). }
  unfold clean_mods. case_bool_decide as Hin.
  - pose proof (remove_first_filter_eq "" modifiers Hin) as Hlen.
    split; [apply remove_first_filter_ne|]. split; [lia|].
    split.
    + intros H.
      assert (Hf : "" ∈ filter (fun m => m = "") (Calls.remove_first "" modifiers))
        by (apply list_elem_of_filter; auto).
      destruct (filter (fun m => m = "") (Calls.remove_first "" modifiers));
        [inversion Hf | simpl in Hlen; lia].
    + intros H.
      destruct (filter (fun m => m = "") (Calls.remove_first "" modifiers))
        as [|y r] eqn:F; [simpl in Hlen; lia|].
      assert (Hy : y ∈ filter (fun m => m = "") (Calls.remove_first "" modifiers))
        by (rewrite F; apply list_elem_of_here).
      apply list_elem_of_filter in Hy as [-> Hy]. exact Hy.
  - rewrite (filter_eq_nil_notin _ _ Hin). simpl.
    split; [reflexivity|]. split; [reflexivity|].
    split; [contradiction | lia].
Qed.

Lemma needs_loop_spec (dependencies : list string) :
  forall result, NoDup result ->
    NoDup (needs_loop dependencies result) /\
    (forall m, m ∈ needs_loop dependencies result <->
               m ∈ result \/ m ∈ map module_of dependencies) /\
    exists r, needs_loop dependencies result = result ++ r /\
              sublist r (map module_of dependencies).
Proof.
  induction dependencies as [|dep deps IH]; intros result Hnd; simpl.
  - split; [assumption|]. split.
    + intros m. split; [auto|]. intros [H|H]; [assumption | inversion H].
    + exists []. split; [now rewrite app_nil_r | constructor].
  - destruct (IH (if bool_decide (module_of dep ∈ result) then result
                  else result ++ [module_of dep])) as (Hnd' & Hin & r & Hr & Hsub).
    { case_bool_decide as E; [assumption|].
      apply NoDup_app. split; [assumption|]. split; [|apply NoDup_singleton].
      intros y Hy Hy'. apply list_elem_of_singleton in Hy'. subst. contradiction. }
    split; [assumption|]. split.
    + intros y. rewrite Hin, elem_of_cons.
      case_bool_decide as E.
      * split; [tauto|]. intros [H|[->|H]]; auto.
      * rewrite elem_of_app, list_elem_of_singleton. tauto.
    + rewrite Hr. case_bool_decide as E.
      * exists r. split; [reflexivity|]. now apply sublist_cons.
      * exists (module_of dep :: r). split; [now rewrite <- app_assoc|].
        now apply sublist_skip.
Qed.

Lemma needs_loop_order (dependencies : list string) :
  forall result,
    needs_loop dependencies result
    = result ++ filter (fun y => y ∉ result)
                  (first_occurrences (map module_of dependencies)).
Proof.
  induction dependencies as [|dep deps IH]; intros result.
  - simpl. now rewrite app_nil_r.
  - cbn [needs_loop map first_occurrences]. rewrite IH.
    case_bool_decide as E.
    + rewrite (filter_cons_False (fun y => y ∉ result)) by (intros H; now apply H).
      now rewrite filter_notin_absorb.
    + rewrite (filter_cons_True (fun y => y ∉ result)) by assumption.
      rewrite filter_notin_snoc, <- app_assoc. reflexivity.
Qed.

(** X22. [needs] lists each needed module once: the result holds no name
    twice; it holds exactly the lower-cased module parts (the text before
    the first [.]) of the entries of [dependencies]; it is the list of
    these module parts in the order of their first occurrence, each once, at
    the place where it occurs first; and each name is in lower case. *)
Theorem needs_lists_each_module_once (dependencies : list string) :
  NoDup (needs dependencies) /\
  (forall m, m ∈ needs dependencies <->
             exists dep, dep ∈ dependencies /\ module_of dep = m) /\
  sublist (needs dependencies) (map module_of dependencies) /\
  (forall m, m ∈ needs dependencies -> lower m = m) /\
  needs dependencies = first_occurrences (map module_of dependencies).
Proof.
  assert (Horder : needs dependencies
                   = first_occurrences (map module_of dependencies)).
  { unfold needs. rewrite needs_loop_order. apply filter_notin_nil. }
  destruct (needs_loop_spec dependencies [] (NoDup_nil_2))
    as (Hnd & Hin & r & Hr & Hsub).
  fold (needs dependencies) in Hnd, Hin, Hr.
  assert (Hiff : forall m, m ∈ needs dependencies <->
                           exists dep, dep ∈ dependencies /\ module_of dep = m).
  { intros m. rewrite Hin. split.
    - intros [H|H]; [inversion H|].
      apply list_elem_of_In, in_map_iff in H as (dep & <- & Hdep).
      exists dep. split; [now apply list_elem_of_In | reflexivity].
    - intros (dep & Hdep & <-). right.
      apply list_elem_of_In, in_map_iff. exists dep.
      split; [reflexivity | now apply list_elem_of_In]. }
  split; [assumption|]. split; [assumption|]. split; [|split].
  - rewrite Hr. exact Hsub.
  - intros m Hm. apply Hiff in Hm as (dep & _ & <-).
    unfold module_of. destruct (split dot dep); [reflexivity | apply lower_idemp].
  - exact Horder.
Qed.

Lemma del_first_doc_others (doc : DocElement) (docstring : list DocElement) :
  filter (fun d => doc_key d <> doc_key doc) (del_first_doc doc docstring)
  = filter (fun d => doc_key d <> doc_key doc) docstring.
Proof.
  induction docstring as [|d rest IH]; [reflexivity|].
  simpl. destruct (same_doc d doc) eqn:E.
  - apply same_doc_key in E.
    rewrite filter_cons_False by (intros H; now apply H). reflexivity.
  - destruct (decide (doc_key d = doc_key doc)) as [Heq|Hne].
    + rewrite !filter_cons_False by (intros H; now apply H). exact IH.
    + rewrite !filter_cons_True by assumption. now rewrite IH.
Qed.

Lemma del_first_doc_length (doc : DocElement) (docstring : list DocElement) :
  length (del_first_doc doc docstring)
  = if bool_decide (doc_key doc ∈ doc_key <$> docstring)
    then Nat.pred (length docstring) else length docstring.
Proof.
  induction docstring as [|d rest IH]; [reflexivity|].
  simpl. destruct (same_doc d doc) eqn:E.
  - apply same_doc_key in E. rewrite bool_decide_eq_true_2; [reflexivity|].
    rewrite E. apply list_elem_of_here.
  - assert (Hne : doc_key d <> doc_key doc).
    { intros Heq. apply same_doc_key in Heq. congruence. }
    simpl. rewrite IH. case_bool_decide as E1; case_bool_decide as E2.
    + destruct rest; [inversion E1 | reflexivity].
    + exfalso. apply E2. now apply list_elem_of_further.
    + exfalso. apply elem_of_cons in E2 as [E2|E2]; [congruence | contradiction].
    + reflexivity.
Qed.

Lemma del_first_doc_split (doc : DocElement) (docstring : list DocElement) :
  (doc_key doc ∈ (doc_key <$> docstring) ->
   exists l1 d l2, docstring = l1 ++ d :: l2 /\ doc_key d = doc_key doc /\
                   (forall d', d' ∈ l1 -> doc_key d' <> doc_key doc) /\
                   del_first_doc doc docstring = l1 ++ l2) /\
  (doc_key doc ∉ (doc_key <$> docstring) -> del_first_doc doc docstring = docstring).
Proof.
  induction docstring as [|d rest [IH1 IH2]].
  - split; [intros H; inversion H | reflexivity].
  - cbn [del_first_doc]. rewrite fmap_cons. destruct (same_doc d doc) eqn:E.
    + apply same_doc_key in E. split.
      * intros _. exists [], d, rest. split; [reflexivity|]. split; [assumption|].
        split; [intros d' H; inversion H | reflexivity].
      * intros H. exfalso. apply H. rewrite E. apply list_elem_of_here.
    + assert (Hne : doc_key d <> doc_key doc).
      { intros Heq. apply same_doc_key in Heq. congruence. }
      split.
      * intros H. apply elem_of_cons in H as [H|H]; [congruence|].
        destruct (IH1 H) as (l1 & d0 & l2 & -> & Hd0 & Hl1 & ->).
        exists (d :: l1), d0, l2. split; [reflexivity|]. split; [assumption|].
        split; [|reflexivity].
        intros d' Hd'. apply elem_of_cons in Hd' as [->|Hd']; [assumption | auto].
      * intros H. apply not_elem_of_cons in H as [_ H]. now rewrite IH2.
Qed.

(** X23. [overwrite_docs] touches one entry only.  When an entry of the
    list has the (doctype, pointsto) pair of the new docstring, the result
    is the list without the first such entry, followed by the new
    docstring: the entries before it, the entries after it (further entries
    with the pair included, which a list that was not built by
    [overwrite_docs] can hold), then the new one.  When no entry has the
    pair, the result is the list followed by the new docstring.  So the
    entries with another pair are kept, in order; the new docstring is the
    last entry; and the list grows by one entry when no entry had the pair,
    and keeps its length otherwise. *)
Theorem overwrite_docs_keeps_others (doc : DocElement) (docstring : list DocElement) :
  (doc_key doc ∈ (doc_key <$> docstring) ->
   exists l1 d l2, docstring = l1 ++ d :: l2 /\ doc_key d = doc_key doc /\
                   (forall d', d' ∈ l1 -> doc_key d' <> doc_key doc) /\
                   overwrite_docs doc docstring = l1 ++ l2 ++ [doc]) /\
  (doc_key doc ∉ (doc_key <$> docstring) ->
   overwrite_docs doc docstring = docstring ++ [doc]) /\
  filter (fun d => doc_key d <> doc_key doc) (overwrite_docs doc docstring)
  = filter (fun d => doc_key d <> doc_key doc) docstring /\
  last (overwrite_docs doc docstring) = Some doc /\
  length (overwrite_docs doc docstring)
  = if bool_decide (doc_key doc ∈ doc_key <$> docstring)
    then length docstring else S (length docstring).
Proof.
  destruct (del_first_doc_split doc docstring) as [Hsome Hnone].
  split.
  { intros H. destruct (Hsome H) as (l1 & d & l2 & Hd & Hk & Hl1 & Hdel).
    exists l1, d, l2. unfold overwrite_docs. rewrite Hdel, <- app_assoc. auto. }
  split.
  { intros H. unfold overwrite_docs. now rewrite (Hnone H). }
  unfold overwrite_docs. split; [|split].
  - rewrite filter_app, del_first_doc_others.
    rewrite filter_cons_False by (intros H; now apply H).
    rewrite filter_nil. apply app_nil_r.
  - apply last_snoc.
  - rewrite length_app, del_first_doc_length. simpl.
    case_bool_decide as E; [|lia].
    destruct docstring; [inversion E | simpl; lia].
Qed.

(** ** Renaming *)



(** ** The arguments of a call *)

Section CleanArgs.

Import CallArgs.

Lemma str_app_nil_r (s : string) : s +:+ "" = s.
Proof.
  induction s as [|c s IH]; [reflexivity|].
  change (String c (s +:+ "") = String c s). now rewrite IH.
Qed.

Lemma str_app_assoc (a b c : string) : (a +:+ b) +:+ c = a +:+ (b +:+ c).
Proof.
  induction a as [|x a IH]; [reflexivity|].
  change (String x ((a +:+ b) +:+ c) = String x (a +:+ (b +:+ c))). now rewrite IH.
Qed.

Lemma str_app_nonempty (a b : string) : a <> "" -> a +:+ b <> "".
Proof. destruct a; [contradiction | discriminate]. Qed.

Lemma slen_pos (s : string) : (slen s >? 0) = true <-> s <> "".
Proof.
  unfold slen. destruct s; simpl; split; try discriminate; try reflexivity.
  intros H. now contradiction H.
Qed.

Lemma arg_nested_ind (P : arg -> Prop) :
  (forall s, P (Str s)) -> (forall l, Forall P l -> P (Lst l)) -> forall a, P a.
Proof.
  intros Hs Hl. fix IH 1. intros [s|l]; [apply Hs|].
  apply Hl. induction l as [|x l IHl]; constructor; [apply IH | exact IHl].
Qed.

(** A token starts with the cleaned string it was made from. *)
Lemma extend_last_tokens (suffix : string) (result base : list string) :
  Forall2 (fun t c => c <> "" /\ exists sfx, t = c +:+ sfx) result base ->
  Forall2 (fun t c => c <> "" /\ exists sfx, t = c +:+ sfx)
    (extend_last result suffix) base.
Proof.
  induction 1 as [|t c result base [Hc [sfx ->]] Hrest IH]; [constructor|].
  cbn [extend_last]. destruct result as [|t' result].
  - inversion Hrest; subst. constructor; [|constructor].
    split; [assumption|]. exists (sfx +:+ suffix). apply str_app_assoc.
  - constructor; [|exact IH]. split; [assumption|]. eauto.
Qed.

Lemma clean_loop_tokens rec (argslist : list arg) :
  forall result printed r p base,
    Forall2 (fun t c => c <> "" /\ exists sfx, t = c +:+ sfx) result base ->
    clean_loop rec argslist result printed = Ok (r, p) ->
    Forall2 (fun t c => c <> "" /\ exists sfx, t = c +:+ sfx) r
      (base ++ filter (fun c => c <> "") (map cleaner (strings_of argslist))).
Proof.
  induction argslist as [|a rest IH]; intros result printed r p base Hbase.
  - intros [= <- <-]. simpl. now rewrite app_nil_r.
  - destruct a as [s|l]; cbn [clean_loop strings_of map].
    + destruct (slen (cleaner s) >? 0) eqn:E.
      * apply slen_pos in E. intros H.
        rewrite filter_cons_True by assumption.
        change (base ++ cleaner s :: ?x) with (base ++ [cleaner s] ++ x).
        rewrite app_assoc. eapply IH; [|exact H].
        apply Forall2_app; [assumption|]. constructor; [|constructor].
        split; [assumption|]. exists "". now rewrite str_app_nil_r.
      * assert (Hempty : cleaner s = "").
        { destruct (decide (cleaner s = "")) as [|Hne]; [assumption|].
          apply slen_pos in Hne. congruence. }
        rewrite filter_cons_False by (intros Hne; now apply Hne).
        now apply IH.
    + destruct (len result >? 0).
      * destruct (rec (Lst l) printed) as [[inner printed']|e]; [|discriminate].
        apply IH. now apply extend_last_tokens.
      * destruct l as [|a0 l]; [discriminate|]. now apply IH.
Qed.

Lemma extend_last_empty (result : list string) : extend_last result "" = result.
Proof.
  induction result as [|x result IH]; [reflexivity|].
  cbn [extend_last]. destruct result as [|y result].
  - now rewrite str_app_nil_r.
  - now rewrite IH.
Qed.

Lemma extend_last_snoc (result : list string) (c suffix : string) :
  extend_last (result ++ [c]) suffix = result ++ [c +:+ suffix].
Proof.
  induction result as [|x result IH]; [reflexivity|].
  rewrite <- !app_comm_cons. cbn [extend_last].
  destruct (result ++ [c]) as [|y r] eqn:E.
  - destruct result; discriminate.
  - now rewrite IH.
Qed.

Lemma extend_last_twice (result : list string) (a b : string) :
  extend_last (extend_last result a) b = extend_last result (a +:+ b).
Proof.
  induction result as [|x result IH]; [reflexivity|].
  cbn [extend_last]. destruct result as [|y result].
  - cbn [extend_last]. now rewrite str_app_assoc.
  - cbn [extend_last] in IH |- *.
    destruct result as [|z result]; cbn [extend_last] in *; now rewrite IH.
Qed.

Lemma extend_last_nil_iff (result : list string) (suffix : string) :
  extend_last result suffix = [] <-> result = [].
Proof.
  destruct result as [|x [|y r]]; simpl; split; congruence.
Qed.

(** The list that the loop ends with, for the tokens [result] collected so
    far. *)
Lemma clean_loop_exact rec (argslist : list arg) :
  Forall (fun x => match x with
                   | Lst l => forall p inner p', rec x p = Ok (inner, p') ->
                                                 length inner = token_count l
                   | Str _ => True
                   end) argslist ->
  forall result printed r p,
    clean_loop rec argslist result printed = Ok (r, p) ->
    r = match result with
        | [] => tokens argslist
        | _ => extend_last result (leading_suffixes argslist) ++ tokens argslist
        end.
Proof.
  induction 1 as [|a rest Ha Hrest IH]; intros result printed r p.
  - cbn [clean_loop tokens leading_suffixes]. intros [= <- <-].
    destruct result; [reflexivity|]. now rewrite extend_last_empty, app_nil_r.
  - destruct a as [s|l]; cbn [clean_loop tokens leading_suffixes].
    + destruct (slen (cleaner s) >? 0) eqn:E.
      * apply slen_pos in E. rewrite (bool_decide_eq_false_2 _ E).
        intros H. apply IH in H. rewrite H.
        destruct (result ++ [cleaner s]) as [|y r0] eqn:Er.
        { destruct result; discriminate. }
        rewrite <- Er, extend_last_snoc, <- app_assoc.
        destruct result as [|x result]; [reflexivity|].
        now rewrite extend_last_empty.
      * assert (Hempty : cleaner s = "").
        { destruct (decide (cleaner s = "")) as [|Hne]; [assumption|].
          apply slen_pos in Hne. congruence. }
        rewrite (bool_decide_eq_true_2 _ Hempty). apply IH.
    + destruct result as [|x result].
      * change (len (@nil string) >? 0) with false. cbv iota.
        destruct l as [|a0 l]; [discriminate|]. apply IH.
      * assert (Hlen : (len (x :: result) >? 0) = true)
          by (unfold len; simpl; apply Z.gtb_gt; lia).
        rewrite Hlen.
        destruct (rec (Lst l) printed) as [[inner printed']|e] eqn:R; [|discriminate].
        rewrite (Ha _ _ _ R). intros H. apply IH in H. rewrite H.
        destruct (extend_last (x :: result) (count_suffix (token_count l)))
          as [|y r0] eqn:Er.
        { apply extend_last_nil_iff in Er. discriminate. }
        rewrite <- Er, extend_last_twice. reflexivity.
Qed.

Lemma clean_loop_length rec (argslist : list arg) (printed : list arg)
    (r : list string) (p : list arg) :
  clean_loop rec argslist [] printed = Ok (r, p) -> length r = token_count argslist.
Proof.
  intros H. apply (clean_loop_tokens _ _ _ _ _ _ []) in H; [|constructor].
  simpl in H. apply Forall2_length in H. exact H.
Qed.

Lemma clean_loop_returns rec (argslist : list arg) :
  Forall (fun x => match x with
                   | Lst l => l <> [] /\ forall p, exists r, rec x p = Ok r
                   | Str _ => True
                   end) argslist ->
  forall result printed, exists r, clean_loop rec argslist result printed = Ok r.
Proof.
  induction 1 as [|a rest Ha Hrest IH]; intros result printed; simpl; [eauto|].
  destruct a as [s|l]; [apply IH|].
  destruct Ha as [Hne Hrec].
  destruct (len result >? 0).
  - destruct (Hrec printed) as [[inner printed'] ->]. apply IH.
  - destruct l as [|a0 l]; [contradiction | apply IH].
Qed.

Lemma clean_loop_raises rec (argslist : list arg) :
  Forall (fun x => match x with
                   | Lst l => forall p e, rec x p = Raise e -> e = IndexError
                   | Str _ => True
                   end) argslist ->
  forall result printed e,
    clean_loop rec argslist result printed = Raise e -> e = IndexError.
Proof.
  induction 1 as [|a rest Ha Hrest IH]; intros result printed e; simpl; [discriminate|].
  destruct a as [s|l]; [apply IH|].
  destruct (len result >? 0).
  - destruct (rec (Lst l) printed) as [[inner printed']|e'] eqn:R; [apply IH|].
    intros [= <-]. eapply Ha, R.
  - destruct l as [|a0 l]; [now intros [= <-] | apply IH].
Qed.

Lemma clean_arg_returns (a : arg) :
  no_empty_list a = true ->
  match a with
  | Lst _ => forall printed, exists r, clean_arg a printed = Ok r
  | Str _ => True
  end.
Proof.
  induction a as [s|l IH] using arg_nested_ind; [trivial|].
  cbn [no_empty_list]. rewrite andb_true_iff, negb_true_iff, bool_decide_eq_false.
  intros [_ Hall] printed. cbn [clean_arg].
  apply clean_loop_returns.
  rewrite forallb_forall in Hall. apply Forall_forall. rewrite Forall_forall in IH.
  intros x Hx. specialize (Hall x (proj1 (list_elem_of_In _ _) Hx)).
  specialize (IH x Hx Hall). destruct x as [s|l']; [trivial|].
  split; [|exact IH].
  cbn [no_empty_list] in Hall.
  rewrite andb_true_iff, negb_true_iff, bool_decide_eq_false in Hall. tauto.
Qed.

Lemma clean_arg_raises (a : arg) :
  match a with
  | Lst _ => forall printed e, clean_arg a printed = Raise e -> e = IndexError
  | Str _ => True
  end.
Proof.
  induction a as [s|l IH] using arg_nested_ind; [trivial|].
  intros printed e. cbn [clean_arg]. apply clean_loop_raises.
  eapply Forall_impl; [exact IH|]. intros [s|l']; auto.
Qed.

End CleanArgs.

(** X25. What [Dependency.clean] makes of an argument list.  When it
    returns, the result is exactly this list: one token for each string of
    the top level that is not empty once [:] and [,] are removed and white
    space is stripped, in order; the token is the cleaned string followed by
    one count suffix for each nested list that stands between it and the
    next token; the count of a nested list is the number of tokens of its
    own top level; nested lists before the first token add nothing.  So no
    token is empty.  The call returns whenever no nested list, at any depth,
    is empty; it raises no exception other than [IndexError]; and it raises
    [IndexError] on a list that starts with an empty nested list. *)
Theorem clean_tokens (argslist : list CallArgs.arg) :
  (forall result printed,
     CallArgs.clean argslist = Ok (result, printed) ->
     result = CallArgs.tokens argslist /\
     Forall (fun t => t <> "") result /\
     Forall2 (fun t c => exists suffix, t = c +:+ suffix) result
       (filter (fun c => c <> "")
          (map CallArgs.cleaner (CallArgs.strings_of argslist)))) /\
  (forallb CallArgs.no_empty_list argslist = true ->
   exists r, CallArgs.clean argslist = Ok r) /\
  (forall e, CallArgs.clean argslist = Raise e -> e = IndexError) /\
  (forall rest, argslist = CallArgs.Lst [] :: rest ->
                CallArgs.clean argslist = Raise IndexError).
Proof.
  unfold CallArgs.clean. cbn [CallArgs.clean_arg]. repeat split.
  - apply clean_loop_exact in H; [exact H|].
    apply Forall_forall. intros x _. destruct x as [s|l]; [trivial|].
    intros p inner p'. cbn [CallArgs.clean_arg]. apply clean_loop_length.
  - apply (clean_loop_tokens _ _ _ _ _ _ []) in H; [|constructor].
    simpl in H. clear -H.
    induction H as [|t c r cs [Hc [sfx ->]] _ IH]; constructor; [|exact IH].
    now apply str_app_nonempty.
  - apply (clean_loop_tokens _ _ _ _ _ _ []) in H; [|constructor].
    simpl in H. eapply Forall2_impl; [exact H|]. intros t c [_ Hs]. exact Hs.
  - intros Hall. apply clean_loop_returns.
    rewrite forallb_forall in Hall. apply Forall_forall. intros x Hx.
    specialize (Hall x (proj1 (list_elem_of_In _ _) Hx)).
    pose proof (clean_arg_returns x Hall) as Hx'.
    destruct x as [s|l]; [trivial|]. split; [|exact Hx'].
    cbn [CallArgs.no_empty_list] in Hall.
    rewrite andb_true_iff, negb_true_iff, bool_decide_eq_false in Hall. tauto.
  - intros e. apply clean_loop_raises. apply Forall_forall. intros x _.
    exact (clean_arg_raises x).
  - intros rest ->. reflexivity.
Qed.

Lemma clean_tokens_witness :
  let argslist := [CallArgs.Str "a,"; CallArgs.Lst [CallArgs.Str "i"; CallArgs.Str "j"];
                   CallArgs.Str " b :"] in
  let result := ["a" +:+ CallArgs.count_suffix 2; "b"] in
  result = CallArgs.tokens argslist /\
  Forall (fun t => t <> "") result /\
  Forall2 (fun t c => exists suffix, t = c +:+ suffix) result
    (filter (fun c => c <> "")
       (map CallArgs.cleaner (CallArgs.strings_of argslist))).
Proof.
  intros argslist result.
  apply (proj1 (clean_tokens argslist) result []).
  vm_compute. reflexivity.
Defined.

(** ** Replacing the text *)

Section Refresh.

Import Layout.

Lemma slen_app (a b : string) : slen (a +:+ b) = slen a + slen b.
Proof.
  induction a as [|c a IH]; [reflexivity|].
  change (slen (String c (a +:+ b)) = slen (String c a) + slen b).
  rewrite !slen_String, IH. lia.
Qed.

Lemma str_take_app (a b : string) : str_take (String.length a) (a +:+ b) = a.
Proof.
  induction a as [|c a IH]; [destruct b; reflexivity|].
  change (String c (str_take (String.length a) (a +:+ b)) = String c a).
  now rewrite IH.
Qed.

Lemma str_drop_app (a b : string) : str_drop (String.length a) (a +:+ b) = b.
Proof.
  induction a as [|c a IH]; [destruct b; reflexivity|].
  change (str_drop (String.length a) (a +:+ b) = b). exact IH.
Qed.

Lemma str_drop_add (n m : nat) (s : string) :
  str_drop (n + m) s = str_drop m (str_drop n s).
Proof.
  revert s. induction n as [|n IH]; intros s.
  - simpl. destruct s; reflexivity.
  - destruct s as [|c s]; simpl.
    + destruct m; reflexivity.
    + apply IH.
Qed.

Lemma str_take_all (n : nat) (s : string) :
  (String.length s <= n)%nat -> str_take n s = s.
Proof.
  revert n. induction s as [|c s IH]; intros n Hn.
  - destruct n; reflexivity.
  - destruct n as [|n]; simpl in Hn; [lia|]. simpl. rewrite IH by lia. reflexivity.
Qed.

Lemma str_drop_all (n : nat) (s : string) :
  (String.length s <= n)%nat -> str_drop n s = "".
Proof.
  revert n. induction s as [|c s IH]; intros n Hn.
  - destruct n; reflexivity.
  - destruct n as [|n]; simpl in Hn; [lia|]. simpl. apply IH. lia.
Qed.

Lemma join_breaks (l1 l2 : list string) :
  l2 <> [] ->
  join (String newline EmptyString) (l1 ++ l2)
  = with_breaks l1 +:+ join (String newline EmptyString) l2.
Proof.
  intros Hne. induction l1 as [|x l1 IH]; [reflexivity|].
  cbn [with_breaks]. rewrite <- app_comm_cons.
  destruct (l1 ++ l2) as [|y r] eqn:E.
  { apply app_eq_nil in E as [_ ->]. contradiction. }
  rewrite join_cons, IH, str_app_assoc. reflexivity.
Qed.

Lemma with_breaks_snoc (l : list string) (x : string) :
  with_breaks (l ++ [x]) = with_breaks l +:+ x +:+ String newline EmptyString.
Proof.
  induction l as [|y l IH]; [reflexivity|].
  rewrite <- app_comm_cons. cbn [with_breaks]. rewrite IH, str_app_assoc. reflexivity.
Qed.

Lemma with_breaks_length (lines : list string) (k : nat) :
  (k < length lines)%nat ->
  slen (with_breaks (take k lines)) = total (take k (contributions lines)).
Proof.
  induction k as [|k IH]; intros Hk; [reflexivity|].
  destruct (lookup_lt_is_Some_2 lines k ltac:(lia)) as [line Hline].
  rewrite (take_S_r _ _ _ Hline), with_breaks_snoc, !slen_app.
  rewrite (chars_step _ _ _ Hline), IH by lia.
  rewrite bool_decide_eq_false_2 by lia.
  change (slen (String newline "")) with 1. lia.
Qed.

Lemma scan_contains_range (lines : list string) (s : Z) (n : nat) :
  forall i ci, 0 <= s + i -> scan_contains lines s i n = Ok (Some ci) ->
               0 <= ci < len lines.
Proof.
  induction n as [|n IH]; intros i ci Hi; simpl; [discriminate|].
  destruct (py_index lines (s + i)) as [line|e] eqn:E; [|discriminate]. simpl.
  apply py_index_nonneg in E; [|assumption]. apply lookup_lt_Some in E.
  destruct (str_in "contains" (lower line)).
  - intros [= <-]. unfold len. lia.
  - intros H. apply IH in H; [assumption | lia].
Qed.

Lemma contains_index_fresh (st st1 : State) (ci : Z) :
  fresh_text st -> _contains_index (this st) = None ->
  contains_index st = Ok (ci, st1) ->
  let lines := split newline (refstring (this st)) in
  _lines (this st1) = lines /\
  _chars (this st1) = running 0 (contributions lines) /\
  0 <= ci < len lines.
Proof.
  intros [Hl Hr] Hc H lines.
  assert (Hne : lines <> []) by apply split_nonempty.
  assert (Hlen : 0 < len lines).
  { unfold len. destruct lines; [congruence | simpl; lia]. }
  unfold contains_index in H.
  apply bind_Ok in H as (m & st0 & [= <- <-] & H). rewrite Hc in H.
  apply bind_Ok in H as (max_t & st2 & H2 & H).
  apply last_type_end_state in H2 as ->.
  apply bind_Ok in H as (r & st3 & H3 & H).
  rewrite linenum_eq, (index_text_fresh _ Hl Hr) in H3. fold lines in H3. simpl in H3.
  injection H3 as <- <-.
  destruct (Z.gtb_spec (len lines) 0); [|lia].
  destruct (find_line max_t (running 0 (contributions lines)) 0) as [a b|x] eqn:F;
    [|discriminate].
  apply find_line_nonneg in F.
  apply bind_Ok in H as (m1 & st4 & [= <- <-] & H). simpl in H.
  apply bind_Ok in H as (found & st5 & H5 & H).
  apply lift_Ok in H5 as [H5 ->].
  apply bind_Ok in H as (u & st6 & [= _ <-] & [= <- <-]). simpl.
  split; [reflexivity|]. split; [reflexivity|].
  destruct found as [ci|]; [|lia].
  eapply scan_contains_range; [|exact H5]. lia.
Qed.

End Refresh.

(** X26. [update_refstring] cuts the text at the boundary line.  Let the
    new text be not empty and let the boundary be found on line [ci] of it.
    Then [ci] is a line of the text, the call returns with the line index
    rebuilt, and marks the module as changed.  For [ci >= 1], [preamble] is
    the text of the lines before line [ci], with their line breaks, and
    [contains] is the text from line [ci] on without its first 9
    characters: the text of the lines after line [ci] when that line is 8
    characters long and not the last.  For [ci = 0] the lookup of the offset
    of the line wraps around: [preamble] is the whole text and [contains] is
    empty. *)
Theorem update_refstring_cuts_at_boundary (text : string) (st st1 : Layout.State)
    (ci : Z) :
  text <> "" ->
  Layout.contains_index (Layout.reset_text text st) = Ok (ci, st1) ->
  let lines := split newline text in
  0 <= ci < len lines /\
  Layout._lines (Layout.this st1) = lines /\
  exists secs, Layout.update_refstring text st = Ok (secs, st1) /\
    Layout.changed secs = true /\
    (1 <= ci ->
     Layout.preamble secs = Layout.with_breaks (take (Z.to_nat ci) lines) /\
     Layout.contains secs
     = Layout.str_drop 9 (join (String newline EmptyString) (drop (Z.to_nat ci) lines)) /\
     forall line, lines !! Z.to_nat ci = Some line -> slen line = 8 ->
                  ci + 1 < len lines ->
                  Layout.contains secs
                  = join (String newline EmptyString) (drop (S (Z.to_nat ci)) lines)) /\
    (ci = 0 -> Layout.preamble secs = text /\ Layout.contains secs = "").
Proof.
  intros Htext Hci lines.
  destruct (contains_index_fresh (Layout.reset_text text st) st1 ci)
    as (Hlines & Hchars & Hrange); [split; [reflexivity | assumption] | reflexivity
                                   | assumption |].
  simpl in Hlines, Hchars. fold lines in Hlines, Hchars.
  change (0 <= ci < len lines) in Hrange.
  split; [assumption|]. split; [assumption|].
  assert (Hne : lines <> []) by apply split_nonempty.
  assert (Hidx : Layout.index_text (Layout.this st1) = Layout.this st1).
  { apply index_text_indexed. now rewrite Hlines. }
  assert (Hst1 : Layout.mkState (Layout.this st1) (Layout.heap st1) = st1)
    by (destruct st1; reflexivity).
  assert (Hjoin : join (String newline EmptyString) lines = text) by apply join_split.
  unfold Layout.update_refstring.
  rewrite (bind_eq _ _ st (Layout.reset_text text st) tt) by reflexivity.
  rewrite (bind_eq _ _ _ _ _ Hci).
  destruct (Z.eq_dec ci 0) as [->|Hnz].
  - assert (Hc : Layout.charindex 0 0 st1 = Ok (slen text + 0, st1)).
    { rewrite charindex_eq. simpl. rewrite Hidx, Hst1, Hchars.
      pose proof (chars_last text) as Hlast. fold lines in Hlast.
      unfold py_index. simpl.
      destruct (Layout.running 0 (Layout.contributions lines)) as [|x chars] eqn:Ec.
      { discriminate. }
      rewrite <- Ec in *. clear Ec.
      assert (Hlen : 0 < len (Layout.running 0 (Layout.contributions lines))).
      { unfold len. rewrite running_length, contributions_length.
        destruct lines; [congruence | simpl; lia]. }
      rewrite last_lookup in Hlast.
      replace (0 - 1 + len (Layout.running 0 (Layout.contributions lines)))
        with (len (Layout.running 0 (Layout.contributions lines)) - 1) by lia.
      destruct (Z.ltb_spec (len (Layout.running 0 (Layout.contributions lines)) - 1) 0);
        [lia|].
      replace (Z.to_nat (len (Layout.running 0 (Layout.contributions lines)) - 1))
        with (Nat.pred (length (Layout.running 0 (Layout.contributions lines))))
        by (unfold len; lia).
      now rewrite Hlast. }
    rewrite (bind_eq _ _ _ _ _ Hc). eexists. split; [reflexivity|]. simpl.
    split; [reflexivity|]. split; [lia|]. intros _.
    unfold Layout.slice_to, Layout.slice_from, slen.
    destruct (Z.ltb_spec (Z.of_nat (String.length text) + 0) 0); [lia|].
    destruct (Z.ltb_spec (Z.of_nat (String.length text) + 0 + 9) 0); [lia|].
    split; [apply str_take_all | apply str_drop_all]; lia.
  - set (k := Z.to_nat ci).
    assert (Hk : (1 <= k < length lines)%nat) by (unfold len in Hrange; lia).
    set (a := Layout.total (take k (Layout.contributions lines))).
    assert (Ha : a = slen (Layout.with_breaks (take k lines)))
      by (symmetry; apply with_breaks_length; lia).
    assert (Hc : Layout.charindex ci 0 st1 = Ok (a + 0, st1)).
    { rewrite charindex_eq. simpl. rewrite Hidx, Hst1, Hchars.
      unfold py_index.
      destruct (Z.ltb_spec (ci - 1) 0); [lia|].
      destruct (Z.ltb_spec (ci - 1) 0); [lia|].
      rewrite (chars_lookup lines (Z.to_nat (ci - 1))) by lia.
      replace (S (Z.to_nat (ci - 1))) with k by lia. reflexivity. }
    rewrite (bind_eq _ _ _ _ _ Hc). eexists. split; [reflexivity|]. simpl.
    split; [reflexivity|]. split; [|lia]. intros _.
    assert (Hdrop : drop k lines <> []).
    { intros E. apply (f_equal length) in E. rewrite length_drop in E. simpl in E. lia. }
    assert (Hsplit : text = Layout.with_breaks (take k lines)
                            +:+ join (String newline EmptyString) (drop k lines)).
    { rewrite <- Hjoin at 1. rewrite <- (take_drop k lines) at 1.
      now apply join_breaks. }
    assert (Hnat : Z.to_nat (a + 0) = String.length (Layout.with_breaks (take k lines))).
    { rewrite Ha. unfold slen. lia. }
    assert (Hpos : 0 <= a) by (rewrite Ha; unfold slen; lia).
    unfold Layout.slice_to, Layout.slice_from.
    destruct (Z.ltb_spec (a + 0) 0); [lia|].
    destruct (Z.ltb_spec (a + 0 + 9) 0); [lia|].
    replace (Z.to_nat (a + 0 + 9)) with (Z.to_nat (a + 0) + 9)%nat by lia.
    rewrite str_drop_add, Hnat.
    assert (Htake : Layout.str_take (String.length (Layout.with_breaks (take k lines))) text
                    = Layout.with_breaks (take k lines))
      by (rewrite Hsplit at 1; apply str_take_app).
    assert (Hrest : Layout.str_drop (String.length (Layout.with_breaks (take k lines))) text
                    = join (String newline EmptyString) (drop k lines))
      by (rewrite Hsplit at 1; apply str_drop_app).
    rewrite Htake, Hrest.
    split; [reflexivity|]. split; [reflexivity|].
    intros line Hline Hlen Hlast.
    rewrite (drop_S _ _ _ Hline).
    destruct (drop (S k) lines) as [|y r] eqn:E.
    { apply (f_equal length) in E. rewrite length_drop in E. simpl in E.
      unfold len in Hlast. lia. }
    rewrite join_cons.
    change 9%nat with (8 + 1)%nat. rewrite str_drop_add.
    assert (H8 : String.length line = 8%nat) by (unfold slen in Hlen; lia).
    rewrite <- H8 at 1. rewrite str_drop_app. reflexivity.
Qed.

Lemma update_refstring_cuts_at_boundary_witness :
  let text := Layout.lines_text ["module m"; "integer x"; "contains"; "subroutine s";
                                 "end subroutine"; "end module"] in
  let st1 := Layout.state_after
               (Layout.bind Layout.contains_index (fun _ => Layout.ret tt))
               (Layout.reset_text text Layout.ex_stale) in
  let lines := split newline text in
  0 <= 2 < len lines /\
  Layout._lines (Layout.this st1) = lines /\
  exists secs, Layout.update_refstring text Layout.ex_stale = Ok (secs, st1) /\
    Layout.changed secs = true /\
    (1 <= 2 ->
     Layout.preamble secs = Layout.with_breaks (take (Z.to_nat 2) lines) /\
     Layout.contains secs
     = Layout.str_drop 9 (join (String newline EmptyString) (drop (Z.to_nat 2) lines)) /\
     forall line, lines !! Z.to_nat 2 = Some line -> slen line = 8 ->
                  2 + 1 < len lines ->
                  Layout.contains secs
                  = join (String newline EmptyString) (drop (S (Z.to_nat 2)) lines)) /\
    (2 = 0 -> Layout.preamble secs = text /\ Layout.contains secs = "").
Proof.
  intros text st1 lines.
  apply (update_refstring_cuts_at_boundary text Layout.ex_stale st1 2).
  - discriminate.
  - reflexivity.
Defined.

(** ** Absolute offsets of a match *)

Section Absolute.

Import Layout.

Lemma is_prefix_take (needle s : string) :
  is_prefix needle s = true <-> str_take (String.length needle) s = needle.
Proof.
  revert s. induction needle as [|c needle IH]; intros s.
  - simpl. split; [intros _; now destruct s | reflexivity].
  - destruct s as [|b s]; simpl; [split; discriminate|].
    destruct (decide (c = b)) as [->|Hne].
    + rewrite IH. split; [now intros -> | now intros [= ->]].
    + split; [discriminate | intros [= Hb _]; congruence].
Qed.

Lemma is_prefix_length (needle s : string) :
  is_prefix needle s = true -> (String.length needle <= String.length s)%nat.
Proof.
  revert s. induction needle as [|c needle IH]; intros s; simpl; [lia|].
  destruct s as [|b s]; [discriminate|].
  destruct (decide (c = b)); [|discriminate].
  intros H. apply IH in H. simpl. lia.
Qed.

Lemma str_drop_length (n : nat) (s : string) :
  String.length (str_drop n s) = (String.length s - n)%nat.
Proof.
  revert s. induction n as [|n IH]; intros s.
  - destruct s; simpl; lia.
  - destruct s as [|c s]; simpl; [reflexivity | apply IH].
Qed.

Lemma str_index_spec (needle : string) :
  forall hay n, str_index needle hay = Some n ->
    is_prefix needle (str_drop n hay) = true /\
    (n <= String.length hay)%nat /\
    forall m, (m < n)%nat -> is_prefix needle (str_drop m hay) = false.
Proof.
  induction hay as [|c hay IH]; intros n; cbn [str_index].
  - destruct (is_prefix needle "") eqn:E; [|discriminate].
    intros [= <-]. split; [exact E|]. split; [simpl; lia | intros m Hm; lia].
  - destruct (is_prefix needle (String c hay)) eqn:E.
    + intros [= <-]. split; [exact E|]. split; [simpl; lia | intros m Hm; lia].
    + destruct (str_index needle hay) as [k|] eqn:K; [|discriminate].
      intros [= <-]. destruct (IH k eq_refl) as (Hk & Hle & Hmin).
      split; [exact Hk|]. split; [simpl; lia|].
      intros [|m] Hm; [exact E|]. apply Hmin. lia.
Qed.

Lemma str_index_None (needle : string) :
  forall hay, str_index needle hay = None ->
    forall m, is_prefix needle (str_drop m hay) = false.
Proof.
  induction hay as [|c hay IH]; cbn [str_index].
  - destruct (is_prefix needle "") eqn:E; [discriminate|].
    intros _ m. now destruct m.
  - destruct (is_prefix needle (String c hay)) eqn:E; [discriminate|].
    destruct (str_index needle hay) as [k|] eqn:K; [discriminate|].
    intros _ [|m]; [exact E | now apply IH].
Qed.

Lemma str_take_length (n : nat) (s : string) :
  String.length (str_take n s) = Nat.min n (String.length s).
Proof.
  revert s. induction n as [|n IH]; intros s; [reflexivity|].
  destruct s as [|c s]; simpl; [reflexivity | now rewrite IH].
Qed.

Lemma py_slice_at (s : string) (a : nat) (n : nat) :
  py_slice s (Z.of_nat a) (Z.of_nat a + Z.of_nat n) = str_take n (str_drop a s).
Proof.
  unfold py_slice.
  destruct (Z.ltb_spec (Z.of_nat a) 0); [lia|].
  destruct (Z.ltb_spec (Z.of_nat a + Z.of_nat n) 0); [lia|].
  f_equal; [lia|]. f_equal. lia.
Qed.

End Absolute.

(** X27. [absolute_charindex] finds the first copy of the matched text.  When
    the call returns [(a, b)] for the slice [search = string[start:end]], the
    text of the module from offset [a] on starts with [search], and no
    earlier offset has that property: a match whose text occurs earlier in
    the module is reported at the earlier place.  [b - a] is [end - start],
    which is the length of [search] when [0 <= start <= end <= len(string)].
    The call raises [ValueError] exactly when [search] occurs nowhere in the
    text of the module. *)
Theorem absolute_charindex_first_occurrence (self : Layout.ModuleEl) (text : string)
    (start stop : Z) :
  let search := Layout.py_slice text start stop in
  (forall a b, Layout.absolute_charindex self text start stop = Some (a, b) ->
     0 <= a /\ a + slen search <= slen (Layout.refstring self) /\
     Layout.py_slice (Layout.refstring self) a (a + slen search) = search /\
     (forall a', 0 <= a' < a ->
        Layout.py_slice (Layout.refstring self) a' (a' + slen search) <> search) /\
     b - a = stop - start /\
     (0 <= start <= stop -> stop <= slen text -> b = a + slen search)) /\
  (Layout.absolute_charindex self text start stop = None <->
   forall a', 0 <= a' ->
     Layout.py_slice (Layout.refstring self) a' (a' + slen search) <> search).
Proof.
  intros search. unfold Layout.absolute_charindex. fold search.
  assert (Hat : forall m : nat,
    Layout.py_slice (Layout.refstring self) (Z.of_nat m) (Z.of_nat m + slen search) = search
    <-> is_prefix search (Layout.str_drop m (Layout.refstring self)) = true).
  { intros m. unfold slen. rewrite py_slice_at. symmetry. apply is_prefix_take. }
  destruct (Layout.str_index search (Layout.refstring self)) as [n|] eqn:E.
  - split; [|split; [discriminate|]].
    + intros a b [= <- <-].
      destruct (str_index_spec _ _ _ E) as (Hn & Hle & Hmin).
      split; [lia|]. split; [|split; [|split; [|split]]].
      * pose proof (is_prefix_length _ _ Hn) as Hlen.
        rewrite str_drop_length in Hlen. unfold slen. lia.
      * now apply Hat.
      * intros a' Ha' Heq.
        replace a' with (Z.of_nat (Z.to_nat a')) in Heq by lia.
        apply Hat in Heq. rewrite Hmin in Heq by lia. discriminate.
      * lia.
      * intros Hs He. unfold search, Layout.py_slice, slen.
        destruct (Z.ltb_spec start 0); [lia|].
        destruct (Z.ltb_spec stop 0); [lia|].
        rewrite str_take_length, str_drop_length. unfold slen in He. lia.
    + intros Hall. exfalso. destruct (str_index_spec _ _ _ E) as (Hn & _ & _).
      apply (Hall (Z.of_nat n)); [lia|]. now apply Hat.
  - split; [discriminate|]. split; [|reflexivity].
    intros _ a' Ha' Heq.
    replace a' with (Z.of_nat (Z.to_nat a')) in Heq by lia.
    apply Hat in Heq. rewrite (str_index_None _ _ E) in Heq. discriminate.
Qed.

Lemma absolute_charindex_first_occurrence_witness :
  0 <= 0 /\ 0 + slen (Layout.py_slice "ab ab" 3 5) <= slen (Layout.refstring Layout.ex_repeated) /\
  Layout.py_slice (Layout.refstring Layout.ex_repeated) 0
    (0 + slen (Layout.py_slice "ab ab" 3 5)) = Layout.py_slice "ab ab" 3 5 /\
  (forall a', 0 <= a' < 0 ->
     Layout.py_slice (Layout.refstring Layout.ex_repeated) a'
       (a' + slen (Layout.py_slice "ab ab" 3 5)) <> Layout.py_slice "ab ab" 3 5) /\
  2 - 0 = 5 - 3 /\
  (0 <= 3 <= 5 -> 5 <= slen "ab ab" -> 2 = 0 + slen (Layout.py_slice "ab ab" 3 5)).
Proof.
  apply (proj1 (absolute_charindex_first_occurrence Layout.ex_repeated "ab ab" 3 5) 0 2).
  reflexivity.
Defined.
